(** * Venachain: sealing pipeline, peer set and contract return encoding

    A shallow embedding of the parts of the node that the specification
    talks about:

    - [Float64]  the [float64] arithmetic of miner/worker.go
    - [VM]       core/vm/util.go        (MakeReturnBytes)
    - [PeerSet]  eth/peer.go            (peerSet.Register / Unregister / Close)
    - [Istanbul] consensus/istanbul/backend/engine.go (Prepare)
    - [Worker]   miner/worker.go        (the loops of the sealing pipeline)
    - [Peer]     eth/peer.go            (known hashes, the queries of the set)
    - [Runs]     miner/worker.go        (the loops over whole runs)
    - [Sealing]  miner/worker.go        (commitNewWork, commit, the snapshot)
    - [IstanbulVerify] consensus/istanbul/backend/engine.go (header verification)
    - [Samples], [PeerSamples], [EngineSamples], [SealingSamples]
                 concrete nodes on which the model is run

    followed by the properties: [Float64Facts], [VMFacts], [PeerSetFacts],
    [WorkerFacts], [PeerFacts], [RunFacts], [SealingFacts],
    [IstanbulVerifyFacts].

    Conventions.  Go's fixed-width integers are values of [Z] with the
    wrap-around written out ([u64], [i64]); a [big.Int] is a [Z]; a
    [float64] is an IEEE 754 double, a [spec_float] at 53 bits of
    precision, with every operation rounded to nearest even, NaN and
    the infinities included; a Go [map] is a [gmap]; a channel send is
    an element appended to an output list of the step that performs
    it. *)

From Stdlib Require Import ZArith NArith List Lia QArith Qround Lqa Qpower.
From Stdlib Require Import SpecFloat.
From Stdlib.Strings Require Import Byte.
From stdpp Require Import gmap strings list fin_maps.

Local Open Scope Z_scope.

(** ** Machine integers *)

Definition u64 (z : Z) : Z := z mod 2 ^ 64.

Definition i64 (z : Z) : Z := (z + 2 ^ 63) mod 2 ^ 64 - 2 ^ 63.

Definition i32 (z : Z) : Z := (z + 2 ^ 31) mod 2 ^ 32 - 2 ^ 31.

Definition max_int64 : Z := 2 ^ 63 - 1.

(** [Int64] of a [big.Int]: the low 64 bits of the magnitude, reinterpreted
    as an [int64], and negated when the number is negative. *)
Definition big_Int64 (x : Z) : Z :=
  let v := i64 (Z.abs x mod 2 ^ 64) in
  if x <? 0 then i64 (- v) else v.

(** [Uint64] of a [big.Int]: the low 64 bits of the magnitude. *)
Definition big_Uint64 (x : Z) : Z := Z.abs x mod 2 ^ 64.

(** ** float64

    The doubles of the Go runtime on amd64 (the default [GOAMD64=v1],
    where the compiler emits one SSE2 instruction for each operation
    and fuses none): sums, differences, products and quotients are
    those of IEEE 754 binary64, rounded to nearest even. *)

Module Float64.

Definition prec : Z := 53.
Definition emax : Z := 1024.

(** [float64(n)] of an integer, signed or unsigned. *)
Definition of_int (n : Z) : spec_float := binary_normalize prec emax n 0 false.

Definition add : spec_float -> spec_float -> spec_float := SFadd prec emax.
Definition sub : spec_float -> spec_float -> spec_float := SFsub prec emax.
Definition mul : spec_float -> spec_float -> spec_float := SFmul prec emax.
Definition div : spec_float -> spec_float -> spec_float := SFdiv prec emax.

(** [x < y] and [x <= y]; both are false when either side is NaN. *)
Definition lt : spec_float -> spec_float -> bool := SFltb.
Definition le : spec_float -> spec_float -> bool := SFleb.

(** A decimal constant [n/d] of the source text, for integers [n] and
    [d] that are doubles themselves: the compiler evaluates constant
    expressions exactly and rounds once, which is what the correctly
    rounded quotient does. *)
Definition decimal (n d : Z) : spec_float := div (of_int n) (of_int d).

(** The integer a finite double is cut down to. *)
Definition truncate (x : spec_float) : option Z :=
  match x with
  | S754_zero _ => Some 0
  | S754_finite s m e => Some (cond_Zopp s (Z.shiftl (Z.pos m) e))
  | _ => None
  end.

(** [int64(x)]: the fraction is discarded.  For NaN, the infinities
    and what does not fit, Go leaves the result to the implementation;
    CVTTSD2SQ, which the amd64 compiler emits, answers [-2^63]. *)
Definition to_int64 (x : spec_float) : Z :=
  match truncate x with
  | Some z => if (- 2 ^ 63 <=? z) && (z <? 2 ^ 63) then z else - 2 ^ 63
  | None => - 2 ^ 63
  end.

(** *** Doubles as numbers *)

(** The well-formed doubles: a finite one has its mantissa in
    canonical form. *)
Definition valid : spec_float -> bool := valid_binary prec emax.

Definition finite (x : spec_float) : bool :=
  match x with
  | S754_zero _ | S754_finite _ _ _ => true
  | _ => false
  end.

Definition pw (e : Z) : Q := (2 ^ e)%Q.

(** The number a finite double stands for. *)
Definition val (x : spec_float) : Q :=
  match x with
  | S754_finite s m e => (inject_Z (cond_Zopp s (Z.pos m)) * pw e)%Q
  | _ => 0%Q
  end.

Definition sval (s : bool) (q : Q) : Q := if s then (- q)%Q else q.

(** [x] is given by the mantissa [m], the exponent [e] and the location
    [l] of what was cut off. *)
Definition located (m e : Z) (l : location) (x : Q) : Prop :=
  match l with
  | loc_Exact => (x == inject_Z m * pw e)%Q
  | loc_Inexact _ => (inject_Z m * pw e < x)%Q /\ (x < inject_Z (m + 1) * pw e)%Q
  end.

Definition at_least (q : Q) (r : spec_float) : Prop :=
  r = S754_infinity false \/ (finite r = true /\ (q <= val r)%Q).

Definition at_most (q : Q) (r : spec_float) : Prop :=
  r = S754_infinity true \/ (finite r = true /\ (val r <= q)%Q).

(** [r] is a rounding of the number [x]: a well-formed double, not NaN,
    on the same side as [x] of every double [N * 2^g] with an integer
    [N] of at most 53 bits. *)
Definition rounds (x : Q) (r : spec_float) : Prop :=
  valid r = true /\ r <> S754_nan
  /\ forall N g, Z.abs N < 2 ^ 53 -> 0 <= g <= 971 ->
       ((inject_Z N * pw g <= x)%Q -> at_least (inject_Z N * pw g) r)
       /\ ((x <= inject_Z N * pw g)%Q -> at_most (inject_Z N * pw g) r).

End Float64.

(** ** core/vm/util.go *)

Module VM.

(** A byte slice is a list of bytes; [len] is a Go [int], and the
    sums of lengths below stay far from its bounds: a slice does not
    reach [2^63] bytes. *)
Definition len {A} (s : list A) : Z := Z.of_nat (length s).

(** [make([]byte, n)]: [n] zero bytes. *)
Definition make (n : Z) : list byte := repeat x00 (Z.to_nat n).

(** The builtin [copy(dst, src)]: the first [min(len dst, len src)]
    elements of [dst] are overwritten, the result is the new [dst]. *)
Definition copy (dst src : list byte) : list byte :=
  take (length dst) src ++ drop (length src) dst.

Definition byte_of_N (n : N) : byte :=
  match Byte.of_N (n mod 256) with Some b => b | None => x00 end.

(** [w] bytes, most significant first, of the low [8*w] bits of [v]:
    what [binary.Write(buf, binary.BigEndian, v)] produces for a
    fixed-width integer. *)
Fixpoint be_bytes (w : nat) (v : N) : list byte :=
  match w with
  | O => []
  | S w' => be_bytes w' (v / 256) ++ [byte_of_N v]
  end.

(** Modelled from the spec: [common.Int32ToBytes], of a package whose
    source is not at hand; the four big-endian bytes of the two's
    complement of an [int32], so that the word built from it "encodes
    the constant 32". *)
Definition Int32ToBytes (n : Z) : list byte :=
  be_bytes 4 (Z.to_N (i32 n mod 2 ^ 32)).

(** Modelled from the spec: [common.Int64ToBytes], of the same
    package; the eight big-endian bytes of the two's complement of an
    [int64], so that the word built from it "encodes len(ret)". *)
Definition Int64ToBytes (n : Z) : list byte :=
  be_bytes 8 (Z.to_N (i64 n mod 2 ^ 64)).

Definition HashLength : nat := 32.

(** Modelled from the spec: [common.BytesToHash] followed by
    [Hash.Bytes], of the same package; a 32-byte word holding the bytes
    right-aligned, cropped from the left when longer than the word. *)
Definition BytesToHash (b : list byte) : list byte :=
  let b' := drop (length b - HashLength) b in
  repeat x00 (HashLength - length b') ++ b'.

Definition MakeReturnBytes (ret : list byte) : list byte :=
  let dataRealSize := len ret in
  let dataRealSize :=
    if negb (dataRealSize mod 32 =? 0)
    then dataRealSize + (32 - dataRealSize mod 32)
    else dataRealSize in
  let dataByt := copy (make dataRealSize) ret in
  let strHash := BytesToHash (Int32ToBytes 32) in
  let sizeHash := BytesToHash (Int64ToBytes (i64 (len ret))) in
  let finalData := [] in
  let finalData := finalData ++ strHash in
  let finalData := finalData ++ sizeHash in
  let finalData := finalData ++ dataByt in
  finalData.

(** Reading a word back: the number a big-endian byte string denotes. *)
Definition be_to_N (bs : list byte) : N :=
  fold_left (fun acc b => (acc * 256 + Byte.to_N b)%N) bs 0%N.

(** Reading with an accumulator, as [be_to_N] folds. *)
Definition be_acc (acc : N) (bs : list byte) : N :=
  fold_left (fun acc b => (acc * 256 + Byte.to_N b)%N) bs acc.

(** What a reader of the return value does: the second word is the
    length, the data follows the two words. *)
Definition returned_length (out : list byte) : N :=
  be_to_N (take 32 (drop 32 out)).

Definition returned_data (out : list byte) : list byte :=
  take (N.to_nat (returned_length out)) (drop 64 out).

(** The number of padding bytes after the data. *)
Definition padding (n : Z) : Z := (32 - n mod 32) mod 32.

End VM.

(** ** eth/peer.go: the peer set *)

Module PeerSet.

Inductive error : Set :=
  | errClosed
  | errAlreadyRegistered
  | errNotRegistered.

(** The messages the three errors are created with. *)
Definition Error (e : error) : string :=
  match e with
  | errClosed => "peer set is closed"
  | errAlreadyRegistered => "peer is already registered"
  | errNotRegistered => "peer is not registered"
  end.

(** Of a peer only the identity and what the set's methods read. *)
Record peer : Set := mkPeer {
  id : string;
  version : Z;
  types : Z
}.

Record peerSet : Type := mkPeerSet {
  peers : gmap string peer;
  closed : bool
}.

(** What a method of the set does to the peers themselves: the broadcast
    loop it starts, the termination channel it closes, the connection it
    drops. *)
Inductive effect : Set :=
  | GoBroadcast (p : string)
  | ClosePeer (p : string)
  | Disconnect (p : string).

Definition newPeerSet : peerSet := {| peers := ∅; closed := false |}.

Definition Register (p : peer) (ps : peerSet) : peerSet * list effect * option error :=
  if closed ps then (ps, [], Some errClosed)
  else match peers ps !! id p with
       | Some _ => (ps, [], Some errAlreadyRegistered)
       | None =>
           ({| peers := <[id p := p]> (peers ps); closed := closed ps |},
            [GoBroadcast (id p)], None)
       end.

Definition Unregister (i : string) (ps : peerSet) : peerSet * list effect * option error :=
  match peers ps !! i with
  | None => (ps, [], Some errNotRegistered)
  | Some p =>
      ({| peers := delete i (peers ps); closed := closed ps |},
       [ClosePeer (id p)], None)
  end.

Definition Peer (i : string) (ps : peerSet) : option peer := peers ps !! i.

Definition Len (ps : peerSet) : Z := Z.of_nat (size (peers ps)).

(** [Close] ranges over the map, in an order Go leaves unspecified, and
    disconnects every peer; the map itself is not touched. *)
Definition Close (ps : peerSet) : peerSet * list effect :=
  ({| peers := peers ps; closed := true |},
   (fun kv => Disconnect (id (snd kv))) <$> map_to_list (peers ps)).

End PeerSet.

(** ** core/types: what the worker reads of headers, blocks and receipts *)

Module Types.

Abbreviation Hash := N (only parsing).
Abbreviation Address := N (only parsing).

Record Log : Set := mkLog {
  Log_Address : Address;
  Log_TxHash : Hash;
  Log_Index : Z;
  BlockHash : Hash
}.

Record Receipt : Set := mkReceipt {
  Receipt_TxHash : Hash;
  Receipt_GasUsed : Z;
  Logs : list Log
}.

(** [tx_from] is what [types.Sender(signer, tx)] recovers. *)
Record Transaction : Set := mkTx {
  tx_hash : Hash;
  tx_from : Address;
  tx_nonce : Z;
  tx_gasPrice : Z;
  tx_gas : Z
}.

Record Header : Set := mkHeader {
  ParentHash : Hash;
  Coinbase : Address;
  Number : Z;
  GasLimit : Z;
  GasUsed : Z;
  Time : Z;
  Extra : list byte;
  MixDigest : Hash;
  Nonce : N
}.

(** [Block_Hash] is the block's [Hash()], fixed when the block is made. *)
Record Block : Set := mkBlock {
  Block_Header : Header;
  Block_Transactions : list Transaction;
  Block_Hash : Hash
}.

Definition NumberU64 (b : Block) : Z := big_Uint64 (Number (Block_Header b)).

Definition Block_Time (b : Block) : Z := Time (Block_Header b).

Definition Block_Number (b : Block) : Z := Number (Block_Header b).

#[global] Instance Transaction_eq_dec : EqDecision Transaction.
Proof. solve_decision. Defined.

End Types.

(** ** consensus: errors and the engine interface the worker calls *)

Module Consensus.
Import Types.

Inductive error : Set :=
  | ErrUnknownAncestor
  | ErrEngine (msg : string).

(** The engine as the worker sees it: whether it implements
    [consensus.Istanbul], and its [Prepare] and [SealHash]. *)
Record Engine : Type := mkEngine {
  isIstanbul : bool;
  Prepare : Header -> Header + error;
  SealHash : Header -> Hash
}.

End Consensus.

(** ** consensus/istanbul/backend/engine.go: Prepare *)

Module Istanbul.
Import Types Consensus.

Section Backend.

(** The chain reader, the parts of the backend that are not in this
    file, its configured block period (a [uint64], in milliseconds) and
    the wall clock in milliseconds. *)
Variable GetHeader : Hash -> Z -> option Header.
Variable GenerateNonce : N -> N + error.
Variable snapshot_validators : Z -> Hash -> list Address + error.
Variable prepareExtra : Header -> list Address -> list byte + error.
Variable IstanbulDigest : Hash.
Variable BlockPeriod : Z.
Variable now : Z.

Definition set_consensus_fields (h : Header) : Header :=
  {| ParentHash := ParentHash h; Coinbase := 0%N; Number := Number h;
     GasLimit := GasLimit h; GasUsed := GasUsed h; Time := Time h;
     Extra := Extra h; MixDigest := IstanbulDigest; Nonce := 0%N |}.

Definition set_Nonce (n : N) (h : Header) : Header :=
  {| ParentHash := ParentHash h; Coinbase := Coinbase h; Number := Number h;
     GasLimit := GasLimit h; GasUsed := GasUsed h; Time := Time h;
     Extra := Extra h; MixDigest := MixDigest h; Nonce := n |}.

Definition set_Extra (e : list byte) (h : Header) : Header :=
  {| ParentHash := ParentHash h; Coinbase := Coinbase h; Number := Number h;
     GasLimit := GasLimit h; GasUsed := GasUsed h; Time := Time h;
     Extra := e; MixDigest := MixDigest h; Nonce := Nonce h |}.

Definition set_Time (t : Z) (h : Header) : Header :=
  {| ParentHash := ParentHash h; Coinbase := Coinbase h; Number := Number h;
     GasLimit := GasLimit h; GasUsed := GasUsed h; Time := t;
     Extra := Extra h; MixDigest := MixDigest h; Nonce := Nonce h |}.

(** The timestamp [Prepare] writes: the parent's plus the block period,
    replaced by the clock when its [Int64] is before the clock. *)
Definition prepare_time (parentTime : Z) : Z :=
  let t := parentTime + u64 BlockPeriod in
  if big_Int64 t <? now then now else t.

Definition Prepare (header : Header) : Header + error :=
  let header := set_consensus_fields header in
  let number := big_Uint64 (Number header) in
  match GetHeader (ParentHash header) (u64 (number - 1)) with
  | None => inr ErrUnknownAncestor
  | Some parent =>
      match GenerateNonce (Nonce parent) with
      | inr e => inr e
      | inl nonce =>
          let header := set_Nonce nonce header in
          match snapshot_validators (u64 (number - 1)) (ParentHash header) with
          | inr e => inr e
          | inl vals =>
              match prepareExtra header vals with
              | inr e => inr e
              | inl extra =>
                  let header := set_Extra extra header in
                  inl (set_Time (prepare_time (Time parent)) header)
              end
          end
      end
  end.

Definition engine (sealHash : Header -> Hash) : Engine :=
  {| isIstanbul := true; Consensus.Prepare := Prepare; SealHash := sealHash |}.

End Backend.

End Istanbul.

(** ** miner/worker.go *)

Module Worker.
Import Types Consensus.

(** *** Constants *)

(** [time.Second], in the nanoseconds of a [time.Duration]. *)
Definition Second : Z := 1000000000.
Definition Millisecond : Z := 1000000.

Definition minRecommitInterval : Z := 1 * Second.
Definition maxRecommitInterval : Z := 15 * Second.
(** [intervalAdjustRatio = 0.1] and [intervalAdjustBias = 200 * 1000.0 *
    1000.0] are untyped constants: the compiler evaluates
    [1-intervalAdjustRatio] exactly, to nine tenths, and rounds each
    constant once where a [float64] is wanted. *)
Definition intervalAdjustRatio : spec_float := Float64.decimal 1 10.
Definition one_minus_intervalAdjustRatio : spec_float := Float64.decimal 9 10.
Definition intervalAdjustBias : spec_float := Float64.of_int (200 * 1000 * 1000).
Definition staleThreshold : Z := 7.

Definition commitInterruptNone : Z := 0.
Definition commitInterruptNewHead : Z := 1.
Definition commitInterruptResubmit : Z := 2.

(** *** float64 *)

(** [float64(n)] of an integer. *)
Definition float64 (n : Z) : spec_float := Float64.of_int n.

(** [int64(x)] of a float. *)
Definition int64_of_float (x : spec_float) : Z := Float64.to_int64 x.

(** The moving average of the specification: nine tenths of the
    previous value and a tenth of the sample, in [float64]. *)
Definition ema (previous sample : spec_float) : spec_float :=
  Float64.add (Float64.mul previous (Float64.decimal 9 10))
              (Float64.mul (Float64.decimal 1 10) sample).

(** The part of a gas limit that is no longer in the pool, and a
    number kept from falling below a floor, in the words of the
    specification. *)
Definition consumed_fraction (limit pool : Z) : spec_float :=
  Float64.div (float64 (limit - pool)) (float64 limit).

Definition floored (floor x : spec_float) : spec_float :=
  if Float64.lt x floor then floor else x.

(** A ratio the execution loop sends from a gas limit that is not
    zero: a double above zero and at most one. *)
Definition sound_ratio (r : spec_float) : Prop :=
  Float64.valid r = true
  /\ Float64.lt (float64 0) r = true /\ Float64.le r (float64 1) = true.

(** *** Messages *)

Record intervalAdjust : Set := mkAdjust {
  ratio : spec_float;
  inc : bool
}.

(** A [newWorkReq]; the interrupt flag is named by its address. *)
Record newWorkReq : Set := mkReq {
  req_interrupt : nat;
  req_timestamp : Z;
  req_commitBlock : option Block
}.

(** *** The price-and-nonce ordered transaction set *)

(** Modelled from the spec: [types.TransactionsByPriceAndNonce], of a
    package whose source is not at hand, from the specification's
    policy for a transaction and the comments where the worker calls
    it.  Per account the queued transactions in nonce order
    ([tp_txs]) and one head per account, best price first ([tp_heads]).
    [Peek] is the best head; [Shift] replaces it by the next transaction
    of the same account ("advance within account queue"); [Pop] removes
    it "without shifting in the next from the account", so that the
    account takes no further part ("drop entire account's remaining
    queue"). *)
Record TransactionsByPriceAndNonce : Type := mkTxSet {
  tp_txs : gmap Address (list Transaction);
  tp_heads : list Transaction
}.

(** Modelled from the spec: insertion into the heads in price order, the
    earlier head first among equal prices. *)
Fixpoint push_head (t : Transaction) (h : list Transaction) : list Transaction :=
  match h with
  | [] => [t]
  | x :: h' =>
      if tx_gasPrice x <? tx_gasPrice t then t :: h else x :: push_head t h'
  end.

(** Modelled from the spec: [types.NewTransactionsByPriceAndNonce]; the
    first transaction of every account becomes its head (an account
    without a transaction, which the pool does not hand over, gets
    none). *)
Definition NewTransactionsByPriceAndNonce
    (pending : gmap Address (list Transaction)) : TransactionsByPriceAndNonce :=
  {| tp_txs := tail <$> pending;
     tp_heads :=
       foldr (fun kv h => match snd kv with t :: _ => push_head t h | [] => h end)
             [] (map_to_list pending) |}.

(** Modelled from the spec: [Peek]. *)
Definition Peek (t : TransactionsByPriceAndNonce) : option Transaction :=
  head (tp_heads t).

(** Modelled from the spec: [Shift]. *)
Definition Shift (t : TransactionsByPriceAndNonce) : TransactionsByPriceAndNonce :=
  match tp_heads t with
  | [] => t
  | h :: rest =>
      match tp_txs t !! tx_from h with
      | Some (next :: txs) =>
          {| tp_txs := <[tx_from h := txs]> (tp_txs t);
             tp_heads := push_head next rest |}
      | _ => {| tp_txs := tp_txs t; tp_heads := rest |}
      end
  end.

(** Modelled from the spec: [Pop]. *)
Definition Pop (t : TransactionsByPriceAndNonce) : TransactionsByPriceAndNonce :=
  {| tp_txs := tp_txs t; tp_heads := tail (tp_heads t) |}.

(** The transactions still in the set: the heads and the queues. *)
Definition remaining (t : TransactionsByPriceAndNonce) : nat :=
  length (tp_heads t) + map_fold (fun _ l n => (length l + n)%nat) 0%nat (tp_txs t).

(** The queue the set holds for an account, behind its head. *)
Definition queued (a : Address) (t : TransactionsByPriceAndNonce) : list Transaction :=
  default [] (tp_txs t !! a).

(** Every account has at most one head, and the queue kept under an
    account holds transactions of that account: what
    [NewTransactionsByPriceAndNonce] makes of the pool's pending
    transactions, which are grouped by sender. *)
Definition wf_txset (q : TransactionsByPriceAndNonce) : Prop :=
  NoDup (tx_from <$> tp_heads q)
  /\ forall a l t, tp_txs q !! a = Some l -> t ∈ l -> tx_from t = a.

Definition grouped_by_sender (pending : gmap Address (list Transaction)) : Prop :=
  forall a l t, pending !! a = Some l -> t ∈ l -> tx_from t = a.


(** *** Executing the pending transactions *)

(** The errors of [core.ApplyTransaction] the worker tells apart. *)
Inductive exec_error : Set :=
  | ErrGasLimitReached
  | ErrNonceTooLow
  | ErrNonceTooHigh
  | ErrOther (msg : string).

Inductive MonitorKind : Set :=
  | TransactionExecuteStartTime
  | TransactionExecuteEndTime
  | TransactionExecuteStatus.

#[global] Instance MonitorKind_eq_dec : EqDecision MonitorKind.
Proof. solve_decision. Defined.

(** A call of [rpc.MonitorWriteData]; the record is written under the
    hash of [mon_tx]. *)
Record MonitorEvent : Set := Monitor {
  mon_kind : MonitorKind;
  mon_tx : Transaction;
  mon_value : string
}.

Section Cycle.

(** The state database, its snapshots, and the execution of one
    transaction are the business of core/state and core. *)
Context {StateDB : Type}.
Variable StateDB_Prepare : Hash -> Hash -> Z -> StateDB -> StateDB.
Variable Snapshot : StateDB -> Z.
Variable RevertToSnapshot : Z -> StateDB -> StateDB.

(** What [core.ApplyTransaction] leaves behind: the gas pool, the
    state, the header's [GasUsed], and a receipt or an error. *)
Record applied : Type := mkApplied {
  ap_gasPool : Z;
  ap_state : StateDB;
  ap_gasUsed : Z;
  ap_result : Receipt + exec_error
}.

Variable ApplyTransaction :
  Address -> Z -> StateDB -> Header -> Transaction -> applied.

(** [params.TxGas]. *)
Variable TxGas : Z.

Record environment : Type := mkEnv {
  env_state : StateDB;
  tcount : Z;
  gasPool : option Z;
  header : Header;
  txs : list Transaction;
  receipts : list Receipt
}.

(** [gasPool.Gas()]; the pool is set before the first use. *)
Definition Gas (env : environment) : Z :=
  match gasPool env with Some g => g | None => 0 end.

Definition set_GasUsed (g : Z) (h : Header) : Header :=
  {| ParentHash := ParentHash h; Coinbase := Coinbase h; Number := Number h;
     GasLimit := GasLimit h; GasUsed := g; Time := Time h;
     Extra := Extra h; MixDigest := MixDigest h; Nonce := Nonce h |}.

Definition commitTransaction (tx : Transaction) (coinbase : Address)
    (env : environment) : environment * (list Log + exec_error) :=
  let snap := Snapshot (env_state env) in
  let r := ApplyTransaction coinbase (Gas env) (env_state env) (header env) tx in
  match ap_result r with
  | inr err =>
      ({| env_state := RevertToSnapshot snap (ap_state r);
          tcount := tcount env;
          gasPool := Some (ap_gasPool r);
          header := set_GasUsed (ap_gasUsed r) (header env);
          txs := txs env;
          receipts := receipts env |}, inr err)
  | inl receipt =>
      ({| env_state := ap_state r;
          tcount := tcount env;
          gasPool := Some (ap_gasPool r);
          header := set_GasUsed (ap_gasUsed r) (header env);
          txs := txs env ++ [tx];
          receipts := receipts env ++ [receipt] |}, inl (Logs receipt))
  end.

(** The state of the loop of [commitTransactionsWithHeader]: the
    current environment, the transaction set, the number of loads of
    the interrupt flag so far, what was sent on [resubmitAdjustCh],
    what was written to the monitor, and [coalescedLogs]. *)
Record loop_state : Type := mkLoop {
  ls_env : environment;
  ls_txs : TransactionsByPriceAndNonce;
  ls_loads : nat;
  ls_adjust : list intervalAdjust;
  ls_extdb : list MonitorEvent;
  ls_logs : list Log
}.

Definition with_env (e : environment) (s : loop_state) : loop_state :=
  {| ls_env := e; ls_txs := ls_txs s; ls_loads := ls_loads s;
     ls_adjust := ls_adjust s; ls_extdb := ls_extdb s; ls_logs := ls_logs s |}.

Definition with_txs (t : TransactionsByPriceAndNonce) (s : loop_state) : loop_state :=
  {| ls_env := ls_env s; ls_txs := t; ls_loads := ls_loads s;
     ls_adjust := ls_adjust s; ls_extdb := ls_extdb s; ls_logs := ls_logs s |}.

Definition with_loads (n : nat) (s : loop_state) : loop_state :=
  {| ls_env := ls_env s; ls_txs := ls_txs s; ls_loads := n;
     ls_adjust := ls_adjust s; ls_extdb := ls_extdb s; ls_logs := ls_logs s |}.

Definition send_adjust (a : intervalAdjust) (s : loop_state) : loop_state :=
  {| ls_env := ls_env s; ls_txs := ls_txs s; ls_loads := ls_loads s;
     ls_adjust := ls_adjust s ++ [a]; ls_extdb := ls_extdb s; ls_logs := ls_logs s |}.

Definition MonitorWriteData (k : MonitorKind) (tx : Transaction) (v : string)
    (s : loop_state) : loop_state :=
  {| ls_env := ls_env s; ls_txs := ls_txs s; ls_loads := ls_loads s;
     ls_adjust := ls_adjust s; ls_extdb := ls_extdb s ++ [Monitor k tx v];
     ls_logs := ls_logs s |}.

Definition add_logs (l : list Log) (s : loop_state) : loop_state :=
  {| ls_env := ls_env s; ls_txs := ls_txs s; ls_loads := ls_loads s;
     ls_adjust := ls_adjust s; ls_extdb := ls_extdb s; ls_logs := ls_logs s ++ l |}.

Definition set_state (st : StateDB) (e : environment) : environment :=
  {| env_state := st; tcount := tcount e; gasPool := gasPool e;
     header := header e; txs := txs e; receipts := receipts e |}.

Definition set_tcount (n : Z) (e : environment) : environment :=
  {| env_state := env_state e; tcount := n; gasPool := gasPool e;
     header := header e; txs := txs e; receipts := receipts e |}.

Definition set_gasPool (g : option Z) (e : environment) : environment :=
  {| env_state := env_state e; tcount := tcount e; gasPool := g;
     header := header e; txs := txs e; receipts := receipts e |}.

(** The ratio sent with a resubmit interrupt: the part of the header's
    gas limit that is no longer in the pool, not below 0.1. *)
Definition resubmit_ratio (env : environment) : spec_float :=
  let ratio :=
    Float64.div (float64 (u64 (GasLimit (header env) - Gas env)))
                (float64 (GasLimit (header env))) in
  if Float64.lt ratio (Float64.decimal 1 10) then Float64.decimal 1 10 else ratio.

(** The head of the loop.  [interrupt] is [None] for a nil pointer;
    otherwise [flag k] is what the [k]-th [atomic.LoadInt32] of this
    call observes (another goroutine stores into the flag).  The
    answer is [Some b] when the function returns [b] here. *)
Definition check_interrupt (interrupt : option (nat -> Z)) (s : loop_state)
    : loop_state * option bool :=
  match interrupt with
  | None => (s, None)
  | Some flag =>
      let n := ls_loads s in
      if flag n =? commitInterruptNone then (with_loads (S n) s, None)
      else
        let s :=
          if flag (S n) =? commitInterruptResubmit
          then send_adjust {| ratio := resubmit_ratio (ls_env s); inc := true |} s
          else s in
        (with_loads (S (S (S n))) s,
         Some (flag (S (S n)) =? commitInterruptNewHead))
  end.

(** What executing [tx] in the current environment answers. *)
Definition run_tx (coinbase : Address) (tx : Transaction) (s : loop_state)
    : environment * (list Log + exec_error) :=
  let env := ls_env s in
  let env := set_state (StateDB_Prepare (tx_hash tx) 0%N (tcount env) (env_state env)) env in
  commitTransaction tx coinbase env.

Definition outcome (coinbase : Address) (tx : Transaction) (s : loop_state)
    : list Log + exec_error :=
  snd (run_tx coinbase tx s).

(** The body of the loop from [types.Sender] to the end of the
    [switch]. *)
Definition execute (coinbase : Address) (tx : Transaction) (s : loop_state)
    : loop_state :=
  let s := MonitorWriteData TransactionExecuteStartTime tx "" s in
  let '(env, res) := run_tx coinbase tx s in
  let s := with_env env s in
  let s := MonitorWriteData TransactionExecuteEndTime tx "" s in
  match res with
  | inr ErrGasLimitReached =>
      let s := with_txs (Pop (ls_txs s)) s in
      MonitorWriteData TransactionExecuteStatus tx "false" s
  | inr ErrNonceTooLow =>
      let s := with_txs (Shift (ls_txs s)) s in
      MonitorWriteData TransactionExecuteStatus tx "false" s
  | inr ErrNonceTooHigh =>
      let s := with_txs (Pop (ls_txs s)) s in
      MonitorWriteData TransactionExecuteStatus tx "false" s
  | inl logs =>
      let s := add_logs logs s in
      let s := with_env (set_tcount (i64 (tcount (ls_env s) + 1)) (ls_env s)) s in
      let s := with_txs (Shift (ls_txs s)) s in
      MonitorWriteData TransactionExecuteStatus tx "true" s
  | inr (ErrOther _) =>
      let s := with_txs (Shift (ls_txs s)) s in
      MonitorWriteData TransactionExecuteStatus tx "false" s
  end.

(** How the loop is left: by a [return] at the interrupt check, or by
    a [break] (gas below [TxGas], or no transaction left). *)
Inductive loop_exit : Set :=
  | Returned (b : bool)
  | OutOfGas
  | Drained.

(** The [for] loop.  Every turn that does not leave the loop takes a
    transaction out of the set, so [fuel] above [remaining] is never
    used up. *)
Fixpoint loop (coinbase : Address) (interrupt : option (nat -> Z))
    (fuel : nat) (s : loop_state) : option (loop_state * loop_exit) :=
  match fuel with
  | O => None
  | S fuel =>
      match check_interrupt interrupt s with
      | (s, Some b) => Some (s, Returned b)
      | (s, None) =>
          if Gas (ls_env s) <? TxGas then Some (s, OutOfGas)
          else match Peek (ls_txs s) with
               | None => Some (s, Drained)
               | Some tx => loop coinbase interrupt fuel (execute coinbase tx s)
               end
      end
  end.

(** The worker as [commitTransactionsWithHeader] touches it. *)
Record worker : Type := mkWorker {
  current : option environment;
  running : bool;
  resubmitAdjustCh : list intervalAdjust;
  extdb : list MonitorEvent;
  mux : list (list Log)
}.

(** What a call leaves: the worker, the transaction set, how the loop
    was left ([None] when the call returned before the loop, for want
    of an environment), and the value returned. *)
Record cycle : Type := mkCycle {
  cy_worker : worker;
  cy_txs : TransactionsByPriceAndNonce;
  cy_exit : option loop_exit;
  cy_return : bool
}.

Definition commitTransactionsWithHeader (w : worker) (hdr : Header)
    (txset : TransactionsByPriceAndNonce) (coinbase : Address)
    (interrupt : option (nat -> Z)) : option cycle :=
  match current w with
  | None =>
      Some {| cy_worker := w; cy_txs := txset; cy_exit := None;
              cy_return := true |}
  | Some env =>
      let env :=
        match gasPool env with
        | None => set_gasPool (Some (u64 (0 + GasLimit (header env)))) env
        | Some _ => env
        end in
      let s := {| ls_env := env; ls_txs := txset; ls_loads := 0;
                  ls_adjust := resubmitAdjustCh w; ls_extdb := extdb w;
                  ls_logs := [] |} in
      match loop coinbase interrupt (S (remaining txset)) s with
      | None => None
      | Some (s, Returned b) =>
          Some {| cy_worker :=
                    {| current := Some (ls_env s); running := running w;
                       resubmitAdjustCh := ls_adjust s; extdb := ls_extdb s;
                       mux := mux w |};
                  cy_txs := ls_txs s; cy_exit := Some (Returned b);
                  cy_return := b |}
      | Some (s, e) =>
          let posts :=
            if negb (running w) && (0 <? VM.len (ls_logs s))
            then mux w ++ [ls_logs s] else mux w in
          let adj :=
            match interrupt with
            | Some _ => ls_adjust s ++ [{| ratio := S754_zero false; inc := false |}]
            | None => ls_adjust s
            end in
          Some {| cy_worker :=
                    {| current := Some (ls_env s); running := running w;
                       resubmitAdjustCh := adj; extdb := ls_extdb s;
                       mux := posts |};
                  cy_txs := ls_txs s; cy_exit := Some e; cy_return := false |}
      end
  end.

(** The state in which the loop is entered, a turn of the loop that
    goes on to the next one, and [k] such turns in a row. *)
Definition enter (w : worker) (env : environment)
    (txset : TransactionsByPriceAndNonce) : loop_state :=
  {| ls_env :=
       match gasPool env with
       | None => set_gasPool (Some (u64 (0 + GasLimit (header env)))) env
       | Some _ => env
       end;
     ls_txs := txset; ls_loads := 0;
     ls_adjust := resubmitAdjustCh w; ls_extdb := extdb w; ls_logs := [] |}.

Definition turn (coinbase : Address) (interrupt : option (nat -> Z))
    (s : loop_state) : option loop_state :=
  match check_interrupt interrupt s with
  | (_, Some _) => None
  | (s, None) =>
      if Gas (ls_env s) <? TxGas then None
      else match Peek (ls_txs s) with
           | None => None
           | Some tx => Some (execute coinbase tx s)
           end
  end.

Fixpoint turns (coinbase : Address) (interrupt : option (nat -> Z))
    (k : nat) (s : loop_state) : option loop_state :=
  match k with
  | O => Some s
  | S k =>
      match turn coinbase interrupt s with
      | Some s => turns coinbase interrupt k s
      | None => None
      end
  end.

(** The transactions whose execution was started, in order. *)
Definition attempted (log : list MonitorEvent) : list Transaction :=
  mon_tx <$> filter (fun e => mon_kind e = TransactionExecuteStartTime) log.

End Cycle.

(** *** The loops *)

Inductive WriteStatus : Set :=
  | NonStatTy
  | CanonStatTy
  | SideStatTy.

Inductive chain_event : Set :=
  | ChainEvent (b : Block) (h : Hash) (logs : list Log)
  | ChainHeadEvent (b : Block)
  | ChainSideEvent (b : Block).

(** What [newWorkLoop] selects on. *)
Inductive nwl_event : Set :=
  | EvStart
  | EvChainHead (head : Block)
  | EvTimer
  | EvResubmitInterval (interval : Z)
  | EvAdjust (adjust : intervalAdjust)
  | EvExit.

(** What a turn of [newWorkLoop] reads from the rest of the node: the
    clock in nanoseconds, the number of the chain's current block,
    whether the worker is running, and the engine's answers. *)
Record nwl_input : Set := mkInput {
  in_now : Z;
  in_currentNumber : Z;
  in_isRunning : bool;
  in_isIstanbul : bool;
  in_ShouldSeal : bool
}.

(** The variables of [newWorkLoop].  Interrupt flags are allocated with
    [new(int32)]; [nw_flags] is the store of those allocated so far. *)
Record nwl_state : Set := mkNwl {
  nw_interrupt : option nat;
  nw_flags : gmap nat Z;
  nw_minRecommit : Z;
  nw_recommit : Z;
  nw_timestamp : Z;
  nw_timer : option Z;
  nw_newWorkCh : list newWorkReq
}.

(** [recalcRecommit]; [minRecommit] and [recommit] are the variables the
    closure captures, the answer is the new [recommit]. *)
Definition recalcRecommit (minRecommit recommit : Z) (target : spec_float)
    (inc : bool) : Z :=
  let prev := float64 recommit in
  let next :=
    if inc then
      let next :=
        Float64.add
          (Float64.mul prev one_minus_intervalAdjustRatio)
          (Float64.mul intervalAdjustRatio
             (Float64.add target intervalAdjustBias)) in
      if Float64.lt (float64 maxRecommitInterval) next
      then float64 maxRecommitInterval else next
    else
      let next :=
        Float64.add
          (Float64.mul prev one_minus_intervalAdjustRatio)
          (Float64.mul intervalAdjustRatio
             (Float64.sub target intervalAdjustBias)) in
      if Float64.lt next (float64 minRecommit)
      then float64 minRecommit else next in
  int64_of_float next.

(** The closure [commit] of [newWorkLoop]. *)
Definition nwl_commit (s : Z) (baseBlock : option Block) (st : nwl_state) : nwl_state :=
  let flags :=
    match nw_interrupt st with
    | Some p => <[p := s]> (nw_flags st)
    | None => nw_flags st
    end in
  let p := size flags in
  {| nw_interrupt := Some p;
     nw_flags := <[p := commitInterruptNone]> flags;
     nw_minRecommit := nw_minRecommit st;
     nw_recommit := nw_recommit st;
     nw_timestamp := nw_timestamp st;
     nw_timer := Some (nw_recommit st);
     nw_newWorkCh :=
       nw_newWorkCh st
       ++ [{| req_interrupt := p; req_timestamp := nw_timestamp st;
              req_commitBlock := baseBlock |}] |}.

Definition set_timestamp (t : Z) (st : nwl_state) : nwl_state :=
  {| nw_interrupt := nw_interrupt st; nw_flags := nw_flags st;
     nw_minRecommit := nw_minRecommit st; nw_recommit := nw_recommit st;
     nw_timestamp := t; nw_timer := nw_timer st;
     nw_newWorkCh := nw_newWorkCh st |}.

Definition set_timer (d : Z) (st : nwl_state) : nwl_state :=
  {| nw_interrupt := nw_interrupt st; nw_flags := nw_flags st;
     nw_minRecommit := nw_minRecommit st; nw_recommit := nw_recommit st;
     nw_timestamp := nw_timestamp st; nw_timer := Some d;
     nw_newWorkCh := nw_newWorkCh st |}.

Definition set_recommit (minRecommit recommit : Z) (st : nwl_state) : nwl_state :=
  {| nw_interrupt := nw_interrupt st; nw_flags := nw_flags st;
     nw_minRecommit := minRecommit; nw_recommit := recommit;
     nw_timestamp := nw_timestamp st; nw_timer := nw_timer st;
     nw_newWorkCh := nw_newWorkCh st |}.

(** The store of flags holds the flags [0 .. size - 1], and the flag of
    the request in flight is still none. *)
Definition flags_wf (st : nwl_state) : Prop :=
  (forall p, is_Some (nw_flags st !! p) <-> (p < size (nw_flags st))%nat)
  /\ forall p, nw_interrupt st = Some p ->
               nw_flags st !! p = Some commitInterruptNone.

(** The recommit interval [newWorker] hands to [newWorkLoop]. *)
Definition sanitize (recommit : Z) : Z :=
  if recommit <? minRecommitInterval then minRecommitInterval else recommit.

Definition newWorkLoop_init (recommit : Z) : nwl_state :=
  {| nw_interrupt := None; nw_flags := ∅;
     nw_minRecommit := recommit; nw_recommit := recommit;
     nw_timestamp := 0; nw_timer := None; nw_newWorkCh := [] |}.

Section Loops.

Context {StateDB : Type}.

Record task : Type := mkTask {
  task_receipts : list Receipt;
  task_state : StateDB;
  task_block : Block;
  createdAt : Z
}.

(** The test of [clearPending]; the sum is a [uint64]. *)
Definition stale (number : Z) (t : task) : bool :=
  u64 (NumberU64 (task_block t) + staleThreshold) <=? number.

(** [clearPending]: a [range] over the table that deletes as it goes. *)
Definition clearPending (number : Z) (pendingTasks : gmap Hash task)
    : gmap Hash task :=
  map_fold (fun h t acc => if stale number t then delete h acc else acc)
    pendingTasks pendingTasks.

(** One turn of the [select] of [newWorkLoop]; [None] when the loop
    returns.  The table of pending tasks is the worker's, shared with
    the other loops under [pendingMu]. *)
Definition newWorkLoop_step (i : nwl_input) (ev : nwl_event)
    (st : nwl_state) (pendingTasks : gmap Hash task)
    : option (nwl_state * gmap Hash task) :=
  match ev with
  | EvStart =>
      let pendingTasks := clearPending (in_currentNumber i) pendingTasks in
      let st := set_timestamp (i64 (Z.quot (in_now i) 1000000)) st in
      Some (nwl_commit commitInterruptNewHead None st, pendingTasks)
  | EvChainHead head =>
      (* clearing the consensus cache and telling the engine of the new
         head touch neither the loop's variables nor the table *)
      let pendingTasks := clearPending (NumberU64 head) pendingTasks in
      let st := set_timestamp (i64 (Z.quot (in_now i) 1000000)) st in
      Some (st, pendingTasks)
  | EvTimer =>
      if negb (in_isRunning i) then Some (st, pendingTasks)
      else if in_isIstanbul i then
        if in_ShouldSeal i
        then Some (set_timer (500 * Millisecond)
                     (nwl_commit commitInterruptResubmit None st), pendingTasks)
        else Some (set_timer (50 * Millisecond) st, pendingTasks)
      else Some (st, pendingTasks)
  | EvResubmitInterval interval =>
      let interval :=
        if interval <? minRecommitInterval then minRecommitInterval else interval in
      Some (set_recommit interval interval st, pendingTasks)
  | EvAdjust adjust =>
      if inc adjust then
        let r := recalcRecommit (nw_minRecommit st) (nw_recommit st)
                   (Float64.div (float64 (nw_recommit st)) (ratio adjust)) true in
        Some (set_recommit (nw_minRecommit st) r st, pendingTasks)
      else
        let r := recalcRecommit (nw_minRecommit st) (nw_recommit st)
                   (float64 (nw_minRecommit st)) false in
        Some (set_recommit (nw_minRecommit st) r st, pendingTasks)
  | EvExit => None
  end.

(** The variables of [taskLoop]: the cancellation channel of the seal
    in flight, the seal hash of the last task taken up, and, of the
    channels made so far, those closed; then what was handed to the
    engine's [Seal], each block with its cancellation channel. *)
Record tl_state : Type := mkTl {
  tl_stopCh : option nat;
  tl_prev : Hash;
  tl_made : nat;
  tl_closed : list nat;
  tl_sealed : list (Block * nat)
}.

Definition taskLoop_init : tl_state :=
  {| tl_stopCh := None; tl_prev := 0%N; tl_made := 0;
     tl_closed := []; tl_sealed := [] |}.

(** How a turn of [taskLoop] ends for the task it received. *)
Inductive tl_outcome : Set :=
  | SkippedDuplicate
  | SkippedByHook
  | Processed.

Section TaskLoop.

Variable engine : Engine.
(** The test hook [skipSealHook], [None] when it is nil. *)
Variable skipSealHook : option (task -> bool).
(** [common.SysCfg.IsProduceEmptyBlock()]. *)
Variable IsProduceEmptyBlock : bool.

Definition sealHashOf (t : task) : Hash :=
  SealHash engine (Block_Header (task_block t)).

Definition taskLoop_step (t : task) (st : tl_state)
    (pendingTasks : gmap Hash task)
    : tl_state * gmap Hash task * tl_outcome :=
  let sealHash := sealHashOf t in
  if N.eqb sealHash (tl_prev st) then (st, pendingTasks, SkippedDuplicate)
  else
    (* interrupt() *)
    let closed :=
      match tl_stopCh st with
      | Some c => tl_closed st ++ [c]
      | None => tl_closed st
      end in
    (* stopCh, prev = make(chan struct{}), sealHash *)
    let stopCh := tl_made st in
    let st' := {| tl_stopCh := Some stopCh; tl_prev := sealHash;
                  tl_made := S (tl_made st); tl_closed := closed;
                  tl_sealed := tl_sealed st |} in
    if match skipSealHook with Some hook => hook t | None => false end
    then (st', pendingTasks, SkippedByHook)
    else
      let isEmpty := VM.len (Block_Transactions (task_block t)) =? 0 in
      let pendingTasks :=
        if negb isEmpty || IsProduceEmptyBlock
        then <[sealHash := t]> pendingTasks else pendingTasks in
      ({| tl_stopCh := Some stopCh; tl_prev := sealHash;
          tl_made := S (tl_made st); tl_closed := closed;
          tl_sealed := tl_sealed st ++ [(task_block t, stopCh)] |},
       pendingTasks, Processed).

(** The tasks arriving one after the other on [taskCh]. *)
Fixpoint taskLoop_run (ts : list task) (st : tl_state)
    (pendingTasks : gmap Hash task) : tl_state * gmap Hash task :=
  match ts with
  | [] => (st, pendingTasks)
  | t :: ts =>
      let '(st, pendingTasks, _) := taskLoop_step t st pendingTasks in
      taskLoop_run ts st pendingTasks
  end.

End TaskLoop.

Section ResultLoop.

(** The block chain and its storage belong to core. *)
Context {Chain : Type}.
Variable HasBlock : Chain -> Hash -> Z -> bool.
Variable WriteBlockWithState :
  Chain -> Block -> list Receipt -> StateDB -> (Chain * WriteStatus) + string.
Variable engine : Engine.

(** A call of [WriteBlockWithState]. *)
Record write_call : Type := mkWrite {
  wr_block : Block;
  wr_receipts : list Receipt;
  wr_state : StateDB
}.

Record rl_state : Type := mkRl {
  rl_chain : Chain;
  rl_pendingTasks : gmap Hash task;
  rl_writes : list write_call;
  rl_mined : list Block;
  rl_events : list (list chain_event * list Log)
}.

Definition set_BlockHash (h : Hash) (l : Log) : Log :=
  {| Log_Address := Log_Address l; Log_TxHash := Log_TxHash l;
     Log_Index := Log_Index l; BlockHash := h |}.

(** The two nested [range] loops: every log of every receipt gets
    the hash; the logs are reached through pointers, so the receipts
    of the task are the ones that change. *)
Definition patch_receipt (h : Hash) (r : Receipt) : Receipt :=
  {| Receipt_TxHash := Receipt_TxHash r; Receipt_GasUsed := Receipt_GasUsed r;
     Logs := set_BlockHash h <$> Logs r |}.

Definition patch_receipts (h : Hash) (rs : list Receipt) : list Receipt :=
  patch_receipt h <$> rs.

Definition set_receipts (rs : list Receipt) (t : task) : task :=
  {| task_receipts := rs; task_state := task_state t;
     task_block := task_block t; createdAt := createdAt t |}.

(** One block taken from [resultCh]; [None] is the nil block. *)
Definition resultLoop_step (received : option Block) (st : rl_state) : rl_state :=
  match received with
  | None => st
  | Some block =>
      if HasBlock (rl_chain st) (Block_Hash block) (NumberU64 block) then st
      else
        let sealhash := SealHash engine (Block_Header block) in
        let hash := Block_Hash block in
        match rl_pendingTasks st !! sealhash with
        | None => st
        | Some t =>
            let receipts := patch_receipts hash (task_receipts t) in
            let logs := concat (Logs <$> receipts) in
            let pending := <[sealhash := set_receipts receipts t]> (rl_pendingTasks st) in
            let call := {| wr_block := block; wr_receipts := receipts;
                           wr_state := task_state t |} in
            match WriteBlockWithState (rl_chain st) block receipts (task_state t) with
            | inr _ =>
                {| rl_chain := rl_chain st; rl_pendingTasks := pending;
                   rl_writes := rl_writes st ++ [call];
                   rl_mined := rl_mined st; rl_events := rl_events st |}
            | inl (chain, stat) =>
                let events :=
                  match stat with
                  | CanonStatTy =>
                      [ChainEvent block (Block_Hash block) logs; ChainHeadEvent block]
                  | SideStatTy => [ChainSideEvent block]
                  | NonStatTy => []
                  end in
                {| rl_chain := chain; rl_pendingTasks := pending;
                   rl_writes := rl_writes st ++ [call];
                   rl_mined := rl_mined st ++ [block];
                   rl_events := rl_events st ++ [(events, logs)] |}
            end
        end
  end.

End ResultLoop.

End Loops.

(** *** commitNewWork: the candidate header *)

Section NewWork.

(** [core.CalcGasLimit]. *)
Variable CalcGasLimit : Block -> Z -> Z -> Z.

(** The fields of the worker [commitNewWork] reads before it makes
    the environment. *)
Record work_config : Type := mkConfig {
  w_engine : Engine;
  w_coinbase : Address;
  w_extra : list byte;
  w_gasFloor : Z;
  w_gasCeil : Z;
  w_isRunning : bool
}.

(** The first [if]: with an Istanbul engine the requested timestamp
    is taken as it is; otherwise it is moved past the parent's, and
    the worker sleeps when it lies more than a second ahead of the
    clock ([now], in seconds).  The answer is the timestamp and the
    time slept. *)
Definition adjust_timestamp (istanbul : bool) (parent : Block)
    (timestamp now : Z) : Z * option Z :=
  if istanbul then (timestamp, None)
  else
    let timestamp :=
      if Block_Time parent >=? timestamp
      then i64 (big_Int64 (Block_Time parent) + 1) else timestamp in
    let wait :=
      if i64 (now + 1) <? timestamp
      then Some (i64 (i64 (timestamp - now) * Second)) else None in
    (timestamp, wait).

(** The header literal, with the coinbase set when the worker runs. *)
Definition build_header (w : work_config) (parent : Block) (timestamp : Z) : Header :=
  {| ParentHash := Block_Hash parent;
     Coinbase := if w_isRunning w then w_coinbase w else 0%N;
     Number := Block_Number parent + 1;
     GasLimit := CalcGasLimit parent (w_gasFloor w) (w_gasCeil w);
     GasUsed := 0;
     Time := timestamp;
     Extra := w_extra w;
     MixDigest := 0%N;
     Nonce := 0%N |}.

Definition set_Coinbase (a : Address) (h : Header) : Header :=
  {| ParentHash := ParentHash h; Coinbase := a; Number := Number h;
     GasLimit := GasLimit h; GasUsed := GasUsed h; Time := Time h;
     Extra := Extra h; MixDigest := MixDigest h; Nonce := Nonce h |}.

(** [commitNewWork] up to the call of [makeCurrent]: the header as
    built, the time slept, and the header the engine's [Prepare]
    leaves, or the error on which [commitNewWork] returns. *)
Record candidate : Type := mkCandidate {
  cand_built : Header;
  cand_wait : option Z;
  cand_prepared : Header + error
}.

Definition commitNewWork_header (w : work_config) (parent : Block)
    (timestamp now : Z) : candidate :=
  let '(timestamp, wait) :=
    adjust_timestamp (isIstanbul (w_engine w)) parent timestamp now in
  let header := build_header w parent timestamp in
  {| cand_built := header;
     cand_wait := wait;
     cand_prepared :=
       match Prepare (w_engine w) header with
       | inr e => inr e
       | inl header => inl (set_Coinbase (w_coinbase w) header)
       end |}.

End NewWork.

End Worker.

(** ** eth/peer.go: what a peer remembers, and the queries of the peer set *)

Module Peer.
Import PeerSet.

Definition maxKnownTxs : Z := 32768.

Definition maxKnownBlocks : Z := 1024.

Definition max (a b : Z) : Z := if a >? b then a else b.

#[global] Instance peer_eq_dec : EqDecision peer.
Proof. solve_decision. Defined.

Definition IsConsensus (p : peer) : bool := types p =? 1.

(** The mutable part of a peer object: its head and the two sets of
    hashes the remote side is known to have. *)
Record state : Type := mkState {
  head : N;
  bn : Z;
  knownTxs : gset N;
  knownBlocks : gset N
}.

Definition set_knownTxs (s : state) (k : gset N) : state :=
  {| head := head s; bn := bn s; knownTxs := k; knownBlocks := knownBlocks s |}.

Definition set_knownBlocks (s : state) (k : gset N) : state :=
  {| head := head s; bn := bn s; knownTxs := knownTxs s; knownBlocks := k |}.

Definition Head (s : state) : N * Z := (head s, bn s).

Definition SetHead (hash : N) (n : Z) (s : state) : state :=
  {| head := hash; bn := n; knownTxs := knownTxs s; knownBlocks := knownBlocks s |}.

Definition Cardinality (s : gset N) : Z := Z.of_nat (size s).

(** The messages handed to [p2p.Send]; the error a send method returns
    is the one [p2p.Send] gives for its message. *)
Inductive message : Type :=
  | TxMsg (hashes : list N)
  | TxHashesMsg (hashes : list N)
  | PooledTxMsg (txs : list (list byte)).

Section KnownSets.

(** [Pop] of the set library: removes an element of its choice. *)
Variable Pop : gset N -> gset N.

(** [for full(set.Cardinality()) { set.Pop() }]; the set has at most
    [fuel] elements to lose. *)
Fixpoint drain (full : Z -> bool) (fuel : nat) (s : gset N) : gset N :=
  match fuel with
  | O => s
  | S fuel => if full (Cardinality s) then drain full fuel (Pop s) else s
  end.

Definition Add (hash : N) (s : gset N) : gset N := s ∪ {[hash]}.

Definition AddAll (hashes : list N) (s : gset N) : gset N :=
  fold_left (fun s hash => Add hash s) hashes s.

Definition MarkBlock (hash : N) (s : state) : state :=
  set_knownBlocks s
    (Add hash (drain (fun c => c >=? maxKnownBlocks)
                     (size (knownBlocks s)) (knownBlocks s))).

Definition MarkTransaction (hash : N) (s : state) : state :=
  set_knownTxs s
    (Add hash (drain (fun c => c >=? maxKnownTxs)
                     (size (knownTxs s)) (knownTxs s))).

Definition sendPooledTransactionHashes (hashes : list N) (s : state)
  : state * message :=
  (set_knownTxs s (AddAll hashes (knownTxs s)), TxHashesMsg hashes).

Definition SendPooledTransactionsRLP (hashes : list N) (txs : list (list byte))
    (s : state) : state * message :=
  let limit := max 0 (maxKnownTxs - Z.of_nat (length hashes)) in
  (set_knownTxs s
     (AddAll hashes (drain (fun c => c >? limit)
                           (size (knownTxs s)) (knownTxs s))),
   PooledTxMsg txs).

End KnownSets.

(** The states of the peer objects after one of them has changed. *)
Definition update (st : peer -> state) (p : peer) (s : state) : peer -> state :=
  fun q => if decide (q = p) then s else st q.

(** *** The queries of the peer set

    [st] gives the state of each peer object.  A [range] over the map
    visits the entries in the order of [map_to_list]; Go leaves the
    order open. *)

Section Queries.

Variable st : peer -> state.

(** [for i, p := range m { if keep(i, p) { list = append(list, p) } }] *)
Definition range_append (keep : string -> peer -> bool)
    (m : gmap string peer) : list peer :=
  fold_left (fun list kv => if keep kv.1 kv.2 then list ++ [kv.2] else list)
            (map_to_list m) [].

Definition Peers (ps : peerSet) : gmap string peer :=
  map_fold (fun i p set => <[i := p]> set) ∅ (peers ps).

Definition PeersWithoutBlock (hash : N) (ps : peerSet) : list peer :=
  range_append (fun _ p => negb (bool_decide (hash ∈ knownBlocks (st p))))
               (peers ps).

Definition PeersWithoutTx (hash : N) (ps : peerSet) : list peer :=
  range_append (fun _ p => negb (bool_decide (hash ∈ knownTxs (st p))))
               (peers ps).

Definition ConsensusPeers (ps : peerSet) : list peer :=
  range_append (fun _ p => IsConsensus p) (peers ps).

Definition ConsensusPeersWithoutTx (csPeers : list peer) (hash : N)
    (ps : peerSet) : list peer :=
  fold_left
    (fun list p =>
       match peers ps !! id p with
       | Some _ =>
           if negb (bool_decide (hash ∈ knownTxs (st p)))
           then list ++ [p] else list
       | None => list
       end)
    csPeers [].

(** One turn of the loop of [BestPeer]: it keeps the best peer so far
    with its block number; [None] is the nil [bestPeer]. *)
Definition best_step (best : option (peer * Z)) (kv : string * peer)
  : option (peer * Z) :=
  let n := snd (Head (st kv.2)) in
  match best with
  | None => Some (kv.2, n)
  | Some (_, bestBn) => if n >? bestBn then Some (kv.2, n) else best
  end.

Definition BestPeer (ps : peerSet) : option peer :=
  fst <$> fold_left best_step (map_to_list (peers ps)) None.

(** What the loop of [BestPeer] has established after the entries [l]. *)
Definition best_ok (l : list (string * peer)) (best : option (peer * Z))
  : Prop :=
  match best with
  | None => l = []
  | Some (p, n) =>
      n = bn (st p) /\ (exists i, (i, p) ∈ l)
      /\ forall j q, (j, q) ∈ l -> bn (st q) <= n
  end.

(** The engine is not looked at by either of the two. *)
Definition PeersWithConsensus {Engine : Type} (engine : Engine)
    (ps : peerSet) : list peer := [].

Definition PeersWithoutConsensus {Engine : Type} (engine : Engine)
    (ps : peerSet) : list peer :=
  let consensusNodeMap : gmap string string := ∅ in
  range_append (fun nodeId _ =>
                  match consensusNodeMap !! nodeId with
                  | Some _ => false
                  | None => true
                  end)
               (peers ps).

End Queries.

(** *** Histories of the set: the calls that change it *)

Inductive call : Set :=
  | CallRegister (p : peer)
  | CallUnregister (i : string)
  | CallClose.

Definition do_call (ps : peerSet) (c : call) : peerSet :=
  match c with
  | CallRegister p => (Register p ps).1.1
  | CallUnregister i => (Unregister i ps).1.1
  | CallClose => (Close ps).1
  end.

Definition calls (cs : list call) (ps : peerSet) : peerSet :=
  fold_left do_call cs ps.

(** Every peer sits under its own id. *)
Definition keyed (ps : peerSet) : Prop :=
  forall i p, peers ps !! i = Some p -> id p = i.

End Peer.

(** ** miner/worker.go: runs of the loops *)

Module Runs.
Import Types Consensus Worker.

Section Loops.

Context {StateDB : Type}.

(** The turns of [newWorkLoop], until the events are used up or the
    loop returns. *)
Fixpoint newWorkLoop_run (evs : list (nwl_input * nwl_event))
    (st : nwl_state) (pendingTasks : gmap Hash (@task StateDB))
    : nwl_state * gmap Hash (@task StateDB) :=
  match evs with
  | [] => (st, pendingTasks)
  | (i, ev) :: evs =>
      match newWorkLoop_step i ev st pendingTasks with
      | None => (st, pendingTasks)
      | Some (st, pendingTasks) => newWorkLoop_run evs st pendingTasks
      end
  end.

(** The loop as [newWorker] starts it. *)
Definition newWorkLoop (recommit : Z) (evs : list (nwl_input * nwl_event))
    (pendingTasks : gmap Hash (@task StateDB)) : nwl_state * gmap Hash task :=
  newWorkLoop_run evs (newWorkLoop_init (sanitize recommit)) pendingTasks.

(** The requests sent so far carry the flags [0, 1, ...] in order; the
    flag of the last one is the loop's [interrupt], and it is the only
    one not yet set. *)
Definition one_in_flight (st : nwl_state) : Prop :=
  let n := length (nw_newWorkCh st) in
  req_interrupt <$> nw_newWorkCh st = seq 0 n
  /\ size (nw_flags st) = n
  /\ nw_interrupt st = match n with O => None | S k => Some k end
  /\ forall p,
       match nw_flags st !! p with
       | Some v => (p < n)%nat /\ (v = commitInterruptNone <-> S p = n)
       | None => (n <= p)%nat
       end.

(** The events of a run: an increase carries a ratio the worker can
    send, and the interval a user asks for is one of at most [2^52]
    nanoseconds, 52 days. *)
Definition sound_event (e : nwl_input * nwl_event) : Prop :=
  match e.2 with
  | EvAdjust adj => inc adj = true -> sound_ratio (ratio adj)
  | EvResubmitInterval interval => interval <= 2 ^ 52
  | _ => True
  end.

(** The [exitCh] case of [taskLoop]: the seal in flight is cancelled. *)
Definition taskLoop_exit (st : tl_state) : tl_state :=
  match tl_stopCh st with
  | Some c =>
      {| tl_stopCh := None; tl_prev := tl_prev st; tl_made := tl_made st;
         tl_closed := tl_closed st ++ [c]; tl_sealed := tl_sealed st |}
  | None => st
  end.

(** Channels are closed once, the one of the seal in flight is open,
    and every other seal has been cancelled. *)
Definition channels_ok (st : tl_state) : Prop :=
  NoDup (tl_closed st)
  /\ NoDup (snd <$> tl_sealed st)
  /\ (forall c, c ∈ tl_closed st -> (c < tl_made st)%nat)
  /\ (forall c, tl_stopCh st = Some c ->
                (c < tl_made st)%nat /\ c ∉ tl_closed st)
  /\ forall b c, (b, c) ∈ tl_sealed st ->
                 (c < tl_made st)%nat
                 /\ (c ∈ tl_closed st \/ tl_stopCh st = Some c).

Section ResultRun.

Context {Chain : Type}.
Variable HasBlock : Chain -> Hash -> Z -> bool.
Variable WriteBlockWithState :
  Chain -> Block -> list Receipt -> StateDB -> (Chain * WriteStatus) + string.
Variable engine : Engine.

(** The blocks arriving one after the other on [resultCh]. *)
Definition resultLoop_run (bs : list (option Block))
    (st : @rl_state StateDB Chain) : @rl_state StateDB Chain :=
  fold_left
    (fun st b => resultLoop_step HasBlock WriteBlockWithState engine b st)
    bs st.

(** The table after some results: the same keys, and under each the
  task it held, its receipts perhaps patched. *)
Definition patched_table (m m' : gmap Hash (@task StateDB)) : Prop :=
forall k,
  match m !! k, m' !! k with
  | Some t, Some t' =>
      task_state t' = task_state t /\ task_block t' = task_block t
      /\ createdAt t' = createdAt t
      /\ (task_receipts t' = task_receipts t
          \/ exists h, task_receipts t' = patch_receipts h (task_receipts t))
  | None, None => True
  | _, _ => False
  end.

(** What a run of the loop adds to a state with the table [m]. *)
Definition run_ok (m : gmap Hash (@task StateDB))
  (st st' : @rl_state StateDB Chain) : Prop :=
patched_table m (rl_pendingTasks st')
/\ exists new mined,
     rl_writes st' = rl_writes st ++ new
     /\ rl_mined st' = rl_mined st ++ mined
     /\ sublist mined (wr_block <$> new)
     /\ forall call, call ∈ new ->
          exists t,
            m !! SealHash engine (Block_Header (wr_block call)) = Some t
            /\ wr_state call = task_state t
            /\ wr_receipts call
               = patch_receipts (Block_Hash (wr_block call)) (task_receipts t).

End ResultRun.

End Loops.

End Runs.

(** ** miner/worker.go: from the candidate header to the sealing task *)

Module Sealing.
Import Types Consensus Worker.

(** The transactions the monitor has recorded as executed with success. *)
Definition succeeded (log : list MonitorEvent) : list Transaction :=
  mon_tx <$> filter (fun e => mon_kind e = TransactionExecuteStatus
                              /\ mon_value e = "true") log.

(** The split of the pending transactions: every local account with a
    transaction moves, with its transactions, from the remotes (the
    pending map itself) to the locals.  [split_step] is one turn of the
    loop over the local accounts. *)
Definition split_step
    (maps : gmap Address (list Transaction) * gmap Address (list Transaction))
    (account : Address)
    : gmap Address (list Transaction) * gmap Address (list Transaction) :=
  let '(localTxs, remoteTxs) := maps in
  match remoteTxs !! account with
  | Some txs =>
      if 0 <? VM.len txs
      then (<[account := txs]> localTxs, delete account remoteTxs)
      else (localTxs, remoteTxs)
  | None => (localTxs, remoteTxs)
  end.

Definition split_pending (locals : list Address)
    (pending : gmap Address (list Transaction))
    : gmap Address (list Transaction) * gmap Address (list Transaction) :=
  fold_left split_step locals (∅, pending).

(** Where the transactions of each account are once the accounts
    [locals] have been looked at. *)
Definition split_ok (locals : list Address)
    (pending : gmap Address (list Transaction))
    (r : gmap Address (list Transaction) * gmap Address (list Transaction))
    : Prop :=
  forall a,
    match pending !! a with
    | Some txs =>
        if bool_decide (a ∈ locals /\ txs <> [])
        then r.1 !! a = Some txs /\ r.2 !! a = None
        else r.1 !! a = None /\ r.2 !! a = Some txs
    | None => r.1 !! a = None /\ r.2 !! a = None
    end.

Section CommitNewWork.

Context {StateDB : Type}.
Variable StateDB_Prepare : Hash -> Hash -> Z -> StateDB -> StateDB.
Variable Snapshot : StateDB -> Z.
Variable RevertToSnapshot : Z -> StateDB -> StateDB.
Variable ApplyTransaction :
  Address -> Z -> StateDB -> Header -> Transaction -> @applied StateDB.
Variable TxGas : Z.

(** The state database's [Copy], [types.NewBlock], [core.CalcGasLimit],
    the chain's [StateAt] for the root of a block, and the engine's
    [Finalize], which answers a block or an error and leaves the state
    it was given changed. *)
Variable StateDB_Copy : StateDB -> StateDB.
Variable NewBlock : Header -> list Transaction -> list Receipt -> Block.
Variable CalcGasLimit : Block -> Z -> Z -> Z.
Variable StateAt : Block -> StateDB + string.
Variable Finalize :
  Header -> StateDB -> list Transaction -> list Receipt
  -> (Block + string) * StateDB.

(** What a call has added to the environment and to the monitor: the
    new monitor records [new], the transactions executed with success
    appended to the environment's, a receipt for each, and no more
    executions than the set held transactions. *)
Definition grown (n : nat) (env env' : @environment StateDB)
    (log log' : list MonitorEvent) : Prop :=
  exists new,
    log' = log ++ new
    /\ txs env' = txs env ++ succeeded new
    /\ length (receipts env') = (length (receipts env) + length (succeeded new))%nat
    /\ sublist (succeeded new) (attempted new)
    /\ (length (attempted new) <= n)%nat
    /\ Worker.header env' = set_GasUsed (GasUsed (Worker.header env'))
                              (Worker.header env).

(** The worker with its snapshot and what it has sent on [taskCh]. *)
Record miner : Type := mkMiner {
  m_worker : @worker StateDB;
  snapshotBlock : option Block;
  snapshotState : option StateDB;
  taskCh : list (@task StateDB)
}.

Definition set_worker (w : @worker StateDB) (m : miner) : miner :=
  {| m_worker := w; snapshotBlock := snapshotBlock m;
     snapshotState := snapshotState m; taskCh := taskCh m |}.

Definition set_current (e : option (@environment StateDB))
    (w : @worker StateDB) : @worker StateDB :=
  {| current := e; running := running w;
     resubmitAdjustCh := resubmitAdjustCh w; extdb := extdb w; mux := mux w |}.

(** [pending]: the snapshot, nothing while there is no state. *)
Definition pending (m : miner) : option (option Block * StateDB) :=
  match snapshotState m with
  | None => None
  | Some s => Some (snapshotBlock m, StateDB_Copy s)
  end.

Definition makeCurrent (parent : Block) (header : Header) (m : miner)
    : miner * option string :=
  match StateAt parent with
  | inr err => (m, Some err)
  | inl state =>
      let env := {| env_state := state; tcount := 0; gasPool := None;
                    Worker.header := header; txs := []; receipts := [] |} in
      (set_worker (set_current (Some env) (m_worker m)) m, None)
  end.

(** [updateSnapshot]; [None] when there is no current environment to
    read (a nil dereference). *)
Definition updateSnapshot (block : option Block) (m : miner) : option miner :=
  match current (m_worker m) with
  | None => None
  | Some env =>
      Some {| m_worker := m_worker m;
              snapshotBlock :=
                Some match block with
                     | None => NewBlock (Worker.header env) (txs env) (receipts env)
                     | Some b => b
                     end;
              snapshotState := Some (StateDB_Copy (env_state env));
              taskCh := taskCh m |}
  end.

(** [commit]: [sent] tells whether the [select] takes the send on
    [taskCh] (it takes [exitCh] otherwise); [now] is the clock at the
    send.  The receipts of the task are copies of the current ones. *)
Definition commit (update : bool) (now : Z) (sent : bool) (m : miner)
    : option (miner * option string) :=
  match current (m_worker m) with
  | None => None
  | Some env =>
      let '(answer, s) :=
        Finalize (Worker.header env) (env_state env) (txs env) (receipts env) in
      let env := set_state s env in
      let m := set_worker (set_current (Some env) (m_worker m)) m in
      match answer with
      | inr err => Some (m, Some err)
      | inl block =>
          let m :=
            if running (m_worker m) && sent then
              {| m_worker := m_worker m; snapshotBlock := snapshotBlock m;
                 snapshotState := snapshotState m;
                 taskCh := taskCh m
                           ++ [{| task_receipts := receipts env; task_state := s;
                                  task_block := block; createdAt := now |}] |}
            else m in
          if update
          then match updateSnapshot (Some block) m with
               | Some m => Some (m, None)
               | None => None
               end
          else Some (m, None)
      end
  end.

(** One of the two batches of [commitNewWork]: nothing for an empty
    map, otherwise a call of [commitTransactionsWithHeader]; the
    answer tells whether [commitNewWork] returns after it. *)
Definition batch (header : Header) (coinbase : Address)
    (accounts : gmap Address (list Transaction))
    (interrupt : option (nat -> Z)) (m : miner) : option (miner * bool) :=
  if 0 <? Z.of_nat (size accounts) then
    match commitTransactionsWithHeader StateDB_Prepare Snapshot
            RevertToSnapshot ApplyTransaction TxGas (m_worker m) header
            (NewTransactionsByPriceAndNonce accounts) coinbase interrupt with
    | None => None
    | Some c => Some (set_worker (cy_worker c) m, cy_return c)
    end
  else Some (m, false).

(** [commitNewWork].  [parent] is the chain's current block, [now] the
    clock in seconds, [pool] the answer of the pool's [PendingLimited]
    and [locals] that of its [Locals]; [interrupt] is [None] for a nil
    pointer and otherwise what the loads of the flag observe in the
    first and in the second batch. *)
Definition commitNewWork (cfg : work_config) (parent : Block)
    (timestamp now : Z) (pool : gmap Address (list Transaction) + string)
    (locals : list Address) (interrupt : option ((nat -> Z) * (nat -> Z)))
    (sendTime : Z) (sent : bool) (m : miner) : option miner :=
  match cand_prepared (commitNewWork_header CalcGasLimit cfg parent timestamp now) with
  | inr _ => Some m
  | inl header =>
      match makeCurrent parent header m with
      | (m, Some _) => Some m
      | (m, None) =>
          match pool with
          | inr _ => Some m
          | inl pending =>
              if Z.of_nat (size pending) =? 0 then
                if isIstanbul (w_engine cfg)
                then fst <$> commit true sendTime sent m
                else updateSnapshot None m
              else
                let '(localTxs, remoteTxs) := split_pending locals pending in
                match batch header (w_coinbase cfg) localTxs (fst <$> interrupt) m with
                | None => None
                | Some (m, true) => Some m
                | Some (m, false) =>
                    match batch header (w_coinbase cfg) remoteTxs
                            (snd <$> interrupt) m with
                    | None => None
                    | Some (m, true) => Some m
                    | Some (m, false) => fst <$> commit true sendTime sent m
                    end
                end
          end
      end
  end.

End CommitNewWork.

End Sealing.

(** ** consensus/istanbul/backend/engine.go: verifying a header *)

Module IstanbulVerify.
Import Types.

Inductive error : Set :=
  | ErrFutureBlock
  | errUnknownBlock
  | errUnauthorized
  | errInvalidTimestamp
  | errInvalidSignature
  | errInvalidCommittedSeals
  | errEmptyCommittedSeals
  | Consensus (e : Consensus.error).

Section Verify.

(** The validator set of a snapshot, of the package validator. *)
Context {ValSet : Type}.
Variable Copy : ValSet -> ValSet.
Variable GetByAddress : Address -> ValSet -> bool.
Variable RemoveValidator : Address -> ValSet -> ValSet * bool.
Variable Size : ValSet -> Z.
Variable F : ValSet -> Z.

(** The chain reader, the header's [Hash], the snapshot's validator
    set for a block, the committed seals [ExtractIstanbulExtra] finds
    in a header, the signed data [PrepareCommittedSeal] makes of a
    hash and the address [GetSignatureAddress] recovers; then the
    signer [ecrecover] finds, the check of the nonce and the
    configuration. *)
Variable GetHeader : Hash -> Z -> option Header.
Variable Header_Hash : Header -> Hash.
Variable snapshot : Z -> Hash -> list Header -> ValSet + Consensus.error.
Variable CommittedSeal : Header -> list (list byte) + Consensus.error.
Variable PrepareCommittedSeal : Hash -> list byte.
Variable GetSignatureAddress : list byte -> list byte -> option Address.
Variable ecrecover : Header -> Address + Consensus.error.
Variable VerifyVrf : Header -> Header -> option Consensus.error.
Variable BlockPeriod : Z.
Variable ElectionEpoch : Z.
Variable Pivot : Z.
Variable now : Z.

(** The loop over the committed seals: every seal must recover to a
    validator still in the copy of the set, which then leaves it.
    The count is an [int] and counts elements of a slice. *)
Fixpoint count_seals (proposalSeal : list byte) (seals : list (list byte))
    (validators : ValSet) (validSeal : Z) : Z + error :=
  match seals with
  | [] => inl validSeal
  | seal :: seals =>
      match GetSignatureAddress proposalSeal seal with
      | None => inr errInvalidSignature
      | Some addr =>
          let '(validators, ok) := RemoveValidator addr validators in
          if ok then count_seals proposalSeal seals validators (validSeal + 1)
          else inr errInvalidCommittedSeals
      end
  end.

Definition verifyCommittedSeals (header : Header) (parents : list Header)
    : option error :=
  let number := big_Uint64 (Number header) in
  if number =? 0 then None
  else
    match snapshot (u64 (number - 1)) (ParentHash header) parents with
    | inr e => Some (Consensus e)
    | inl valset =>
        match CommittedSeal header with
        | inr e => Some (Consensus e)
        | inl seals =>
            if VM.len seals =? 0 then Some errEmptyCommittedSeals
            else
              match count_seals (PrepareCommittedSeal (Header_Hash header))
                      seals (Copy valset) 0 with
              | inr e => Some e
              | inl validSeal =>
                  if validSeal <? Size valset - F valset
                  then Some errInvalidCommittedSeals
                  else None
              end
        end
    end.

Definition verifySigner (header : Header) (parents : list Header)
    : option error :=
  let number := big_Uint64 (Number header) in
  if number =? 0 then Some errUnknownBlock
  else
    match snapshot (u64 (number - 1)) (ParentHash header) parents with
    | inr e => Some (Consensus e)
    | inl valset =>
        match ecrecover header with
        | inr e => Some (Consensus e)
        | inl signer =>
            if GetByAddress signer valset then None else Some errUnauthorized
        end
    end.

(** [verifyVRF]; recovering the key and checking the nonce against
    the parent's is [VerifyVrf]. *)
Definition verifyVRF (header : Header) : option error :=
  let number := big_Uint64 (Number header) in
  if number =? 0 then Some errUnknownBlock
  else
    match GetHeader (ParentHash header) (u64 (number - 1)) with
    | None => Some (Consensus Consensus.ErrUnknownAncestor)
    | Some parent => Consensus <$> VerifyVrf parent header
    end.

Definition verifyCascadingFields (header : Header) (parents : list Header)
    : option error :=
  let number := big_Uint64 (Number header) in
  if number =? 0 then None
  else
    let parent :=
      if 0 <? VM.len parents then last parents
      else GetHeader (ParentHash header) (u64 (number - 1)) in
    match parent with
    | None => Some (Consensus Consensus.ErrUnknownAncestor)
    | Some parent =>
        if negb (big_Uint64 (Number parent) =? u64 (number - 1))
           || negb (N.eqb (Header_Hash parent) (ParentHash header))
        then Some (Consensus Consensus.ErrUnknownAncestor)
        else if u64 (big_Uint64 (Time parent) + u64 BlockPeriod)
                >? big_Uint64 (Time header)
        then Some errInvalidTimestamp
        else
          match snapshot (u64 (number - 1)) (ParentHash header) parents with
          | inr e => Some (Consensus e)
          | inl _ =>
              match verifySigner header parents with
              | Some e => Some e
              | None =>
                  match (if negb (ElectionEpoch =? 0) then verifyVRF header
                         else None) with
                  | Some e => Some e
                  | None => verifyCommittedSeals header parents
                  end
              end
          end
    end.

(** [verifyHeader]; the header's number is there, and the clock is in
    milliseconds. *)
Definition verifyHeader (header : Header) (parents : list Header)
    : option error :=
  if Time header >? i64 (now + 30000) then Some ErrFutureBlock
  else verifyCascadingFields header parents.

Definition VerifyHeader (header : Header) : option error :=
  if big_Uint64 (Number header) <=? Pivot then None
  else verifyHeader header [].

Definition VerifySeal (header : Header) : option error :=
  if big_Uint64 (Number header) =? 0 then Some errUnknownBlock
  else verifySigner header [].

(** What the package validator has to provide: a set has members, a
    copy has the same, [GetByAddress] finds exactly the members, and
    [RemoveValidator] succeeds exactly on a member, which it takes
    out, and on no other address. *)
Definition validator_sets (members : ValSet -> list Address) : Prop :=
  (forall v a, a ∈ members (Copy v) <-> a ∈ members v)
  /\ (forall v a, GetByAddress a v = true <-> a ∈ members v)
  /\ (forall v a, (RemoveValidator a v).2 = true <-> a ∈ members v)
  /\ (forall v a b, b ∈ members (RemoveValidator a v).1
                    <-> b ∈ members v /\ b <> a).

End Verify.

End IstanbulVerify.

(** ** Concrete nodes, used to run the model *)

Module Samples.
Import Types Consensus Worker.

(** *** Peers *)

Definition alice : PeerSet.peer :=
  {| PeerSet.id := "a1b2c3d4e5f60718"; PeerSet.version := 63; PeerSet.types := 1 |}.

Definition bob : PeerSet.peer :=
  {| PeerSet.id := "0807060504030201"; PeerSet.version := 63; PeerSet.types := 0 |}.

Definition with_alice : PeerSet.peerSet :=
  (PeerSet.Register alice PeerSet.newPeerSet).1.1.

(** A set that holds a peer and has been closed. *)
Definition closed_with_alice : PeerSet.peerSet := (PeerSet.Close with_alice).1.

(** *** Blocks and tasks *)

Definition header_at (number time : Z) : Header :=
  {| ParentHash := 0%N; Coinbase := 0%N; Number := number; GasLimit := 1000000;
     GasUsed := 0; Time := time; Extra := []; MixDigest := 0%N; Nonce := 0%N |}.

Definition block_at (number time : Z) (hash : Hash) : Block :=
  {| Block_Header := header_at number time; Block_Transactions := [];
     Block_Hash := hash |}.

Definition task_at (number : Z) : @task unit :=
  {| task_receipts := []; task_state := tt;
     task_block := block_at number 0 (Z.to_N number); createdAt := 0 |}.

(** A table with a task at block 95 and one at the last block number a
    [uint64] can hold. *)
Definition table : gmap Hash (@task unit) :=
  {[ 1%N := task_at 95; 2%N := task_at (2 ^ 64 - 1) ]}.

(** *** A state that is the next nonce of every account *)

Definition sample_apply (coinbase : Address) (pool : Z) (st : gmap Address Z)
    (h : Header) (tx : Transaction) : @applied (gmap Address Z) :=
  let expected := default 0 (st !! tx_from tx) in
  let failed e :=
    {| ap_gasPool := pool; ap_state := st; ap_gasUsed := GasUsed h;
       ap_result := inr e |} in
  if tx_nonce tx <? expected then failed ErrNonceTooLow
  else if expected <? tx_nonce tx then failed ErrNonceTooHigh
  else if pool <? tx_gas tx then failed ErrGasLimitReached
  else
    {| ap_gasPool := pool - tx_gas tx;
       ap_state := <[tx_from tx := expected + 1]> st;
       ap_gasUsed := GasUsed h + tx_gas tx;
       ap_result := inl {| Receipt_TxHash := tx_hash tx;
                           Receipt_GasUsed := tx_gas tx; Logs := [] |} |}.

Definition sample_Prepare (thash bhash : Hash) (ti : Z) (st : gmap Address Z)
    : gmap Address Z := st.

Definition sample_Snapshot (st : gmap Address Z) : Z := 0.

Definition sample_Revert (snap : Z) (st : gmap Address Z) : gmap Address Z := st.

Definition sample_loop :=
  loop sample_Prepare sample_Snapshot sample_Revert sample_apply 21000 0%N.

Definition sample_execute :=
  execute sample_Prepare sample_Snapshot sample_Revert sample_apply 0%N.

Definition sample_outcome :=
  outcome sample_Prepare sample_Snapshot sample_Revert sample_apply 0%N.

Definition sample_cycle :=
  commitTransactionsWithHeader sample_Prepare sample_Snapshot sample_Revert
    sample_apply 21000.

(** Account 1 has queued [a1] and [a2], account 2 has queued [b1]. *)
Definition a1 : Transaction :=
  {| tx_hash := 11%N; tx_from := 1%N; tx_nonce := 4; tx_gasPrice := 9; tx_gas := 21000 |}.
Definition a2 : Transaction :=
  {| tx_hash := 12%N; tx_from := 1%N; tx_nonce := 5; tx_gasPrice := 9; tx_gas := 21000 |}.
Definition b1 : Transaction :=
  {| tx_hash := 21%N; tx_from := 2%N; tx_nonce := 0; tx_gasPrice := 3; tx_gas := 21000 |}.
(** The same as [a1], asking for more gas than a block has. *)
Definition a1_big : Transaction :=
  {| tx_hash := 13%N; tx_from := 1%N; tx_nonce := 4; tx_gasPrice := 9; tx_gas := 2000000 |}.

Definition pending : gmap Address (list Transaction) :=
  {[ 1%N := [a1; a2]; 2%N := [b1] ]}.

Definition pending_big : gmap Address (list Transaction) :=
  {[ 1%N := [a1_big; a2]; 2%N := [b1] ]}.

Definition env_with (nonces : gmap Address Z) : @environment (gmap Address Z) :=
  {| env_state := nonces; tcount := 0; gasPool := Some 1000000;
     header := header_at 8 0; txs := []; receipts := [] |}.

Definition state_with (nonces : gmap Address Z)
    (p : gmap Address (list Transaction)) : @loop_state (gmap Address Z) :=
  {| ls_env := env_with nonces; ls_txs := NewTransactionsByPriceAndNonce p;
     ls_loads := 0; ls_adjust := []; ls_extdb := []; ls_logs := [] |}.

Definition worker_with (nonces : gmap Address Z) : @worker (gmap Address Z) :=
  {| current := Some (env_with nonces); running := true;
     resubmitAdjustCh := []; extdb := []; mux := [] |}.

(** The account 1 is at nonce 5: [a1] comes too late. *)
Definition nonces_low : gmap Address Z := {[ 1%N := 5 ]}.
(** The account 1 is at nonce 3: [a1] comes too early. *)
Definition nonces_high : gmap Address Z := {[ 1%N := 3 ]}.
(** The account 1 is at nonce 4: [a1] is the next. *)
Definition nonces_next : gmap Address Z := {[ 1%N := 4 ]}.

(** A flag that is none at the first load and resubmit from then on,
    and one that is set from the start. *)
Definition resubmit_after_first (k : nat) : Z :=
  match k with O => commitInterruptNone | S _ => commitInterruptResubmit end.

Definition always (v : Z) (k : nat) : Z := v.

(** *** Engines *)

Definition sample_sealHash (h : Header) : Hash := Z.to_N (Number h).

(** An Istanbul backend with a block period of [period] milliseconds,
    over a chain whose every header lookup answers block 7 of time
    1000, at clock 900. *)
Definition istanbul_engine (period : Z) : Engine :=
  Istanbul.engine (fun _ _ => Some (header_at 7 1000)) (fun n => inl n)
    (fun _ _ => inl []) (fun h _ => inl (Extra h)) 99%N period 900 sample_sealHash.

Definition other_engine : Engine :=
  {| isIstanbul := false; Prepare := fun h => inl h; SealHash := sample_sealHash |}.

Definition config_with (e : Engine) : work_config :=
  {| w_engine := e; w_coinbase := 5%N; w_extra := []; w_gasFloor := 1000000;
     w_gasCeil := 2000000; w_isRunning := true |}.

Definition sample_CalcGasLimit (parent : Block) (floor ceil : Z) : Z := floor.

Definition parent7 : Block := block_at 7 1000 77%N.

(** *** A result loop over a chain that is the list of its blocks *)

Definition sample_HasBlock (c : list Block) (h : Hash) (n : Z) : bool :=
  existsb (fun b => N.eqb (Block_Hash b) h && (NumberU64 b =? n)) c.

Definition sample_Write (c : list Block) (b : Block) (rs : list Receipt)
    (st : unit) : (list Block * WriteStatus) + string :=
  inl (c ++ [b], CanonStatTy).

Definition logged_task : @task unit :=
  {| task_receipts :=
       [ {| Receipt_TxHash := 11%N; Receipt_GasUsed := 21000;
            Logs := [ {| Log_Address := 1%N; Log_TxHash := 11%N; Log_Index := 0;
                         BlockHash := 0%N |};
                      {| Log_Address := 1%N; Log_TxHash := 11%N; Log_Index := 1;
                         BlockHash := 0%N |} ] |} ];
     task_state := tt; task_block := block_at 8 0 0%N; createdAt := 0 |}.

Definition result_state : @rl_state unit (list Block) :=
  {| rl_chain := [parent7]; rl_pendingTasks := {[ 8%N := logged_task ]};
     rl_writes := []; rl_mined := []; rl_events := [] |}.


Definition task_with_tx : @task unit :=
  {| task_receipts := []; task_state := tt;
     task_block := {| Block_Header := header_at 9 0; Block_Transactions := [b1];
                      Block_Hash := 0%N |};
     createdAt := 0 |}.

End Samples.

(** ** Concrete peers' states *)

Module PeerSamples.
Import PeerSet Peer.

(** A [Pop] that removes the least element. *)
Definition sample_Pop (s : gset N) : gset N :=
  match elements s with
  | [] => s
  | x :: _ => s ∖ {[x]}
  end.

Definition fresh : state :=
  {| head := 0%N; bn := 0; knownTxs := ∅; knownBlocks := ∅ |}.

Definition knows (txs blocks : list N) (n : Z) : state :=
  {| head := 0%N; bn := n; knownTxs := list_to_set txs;
     knownBlocks := list_to_set blocks |}.

(** Alice is at block 9 and knows transaction 7 and block 3; everyone
    else is fresh. *)
Definition sample_st (p : peer) : state :=
  if decide (p = Samples.alice) then knows [7%N] [3%N] 9 else fresh.

Definition both : peerSet :=
  (Register Samples.bob Samples.with_alice).1.1.

End PeerSamples.

(** ** A small Istanbul network *)

Module EngineSamples.
Import Types IstanbulVerify.

(** Validator sets as lists of addresses. *)
Definition list_Remove (a : Address) (v : list Address) : list Address * bool :=
  (filter (fun b => b <> a) v, bool_decide (a ∈ v)).

Definition list_Get (a : Address) (v : list Address) : bool :=
  bool_decide (a ∈ v).

Definition list_Size (v : list Address) : Z := Z.of_nat (length v).

(** The faulty validators tolerated among [n]: a third, rounded up,
    less one. *)
Definition list_F (v : list Address) : Z := (list_Size v + 2) / 3 - 1.

(** A seal of one byte is signed by the validator of that number. *)
Definition sample_signer (data seal : list byte) : option Address :=
  match seal with
  | [b] => Some (Byte.to_N b)
  | _ => None
  end.

Definition sample_hash (h : Header) : Hash := Z.to_N (Number h).

(** Block 8, on top of block 7 of time 1000, at time 2000. *)
Definition header8 : Header :=
  {| ParentHash := 7%N; Coinbase := 0%N; Number := 8; GasLimit := 1000000;
     GasUsed := 0; Time := 2000; Extra := []; MixDigest := 0%N; Nonce := 0%N |}.

Definition sample_GetHeader (h : Hash) (n : Z) : option Header :=
  Some (Samples.header_at 7 1000).

Definition sample_snapshot (n : Z) (h : Hash) (parents : list Header)
    : list Address + Consensus.error :=
  inl [1%N; 2%N; 3%N; 4%N].

Definition sample_seals (h : Header) : list (list byte) + Consensus.error :=
  inl [[Byte.x01]; [Byte.x02]; [Byte.x04]].

Definition sample_proposal (h : Hash) : list byte := [].

Definition sample_ecrecover (h : Header) : Address + Consensus.error := inl 1%N.

Definition sample_VerifyVrf (parent h : Header) : option Consensus.error := None.

Definition sample_verifyCommittedSeals :=
  verifyCommittedSeals (fun v => v) list_Remove list_Size list_F sample_hash
    sample_snapshot sample_seals sample_proposal sample_signer.

Definition sample_verifyCascadingFields :=
  verifyCascadingFields (fun v => v) list_Get list_Remove list_Size list_F
    sample_GetHeader sample_hash sample_snapshot sample_seals sample_proposal
    sample_signer sample_ecrecover sample_VerifyVrf 1000 0.

(** The backend's [Prepare] over the same chain, at clock 900. *)
Definition sample_backend_Prepare :=
  Istanbul.Prepare sample_GetHeader (fun n => inl n) (fun _ _ => inl [])
    (fun h _ => inl (Extra h)) 99%N 1000 900.

End EngineSamples.

(** ** A worker that makes new work *)

Module SealingSamples.
Import Types Consensus Worker Sealing Samples.

Definition sample_NewBlock (h : Header) (txs : list Transaction)
    (rs : list Receipt) : Block :=
  {| Block_Header := h; Block_Transactions := txs; Block_Hash := Z.to_N (Number h) |}.

(** The state at every block has account 1 at nonce 4. *)
Definition sample_StateAt (parent : Block) : gmap Address Z + string :=
  inl nonces_next.

Definition sample_Finalize (h : Header) (s : gmap Address Z)
    (txs : list Transaction) (rs : list Receipt)
    : (Block + string) * gmap Address Z :=
  (inl (sample_NewBlock h txs rs), s).

Definition sample_commitNewWork :=
  commitNewWork sample_Prepare sample_Snapshot sample_Revert sample_apply 21000
    (fun s => s) sample_NewBlock sample_CalcGasLimit sample_StateAt
    sample_Finalize.

(** A running worker that has not made work yet. *)
Definition idle : @miner (gmap Address Z) :=
  {| m_worker := {| current := None; running := true; resubmitAdjustCh := [];
                    extdb := []; mux := [] |};
     snapshotBlock := None; snapshotState := None; taskCh := [] |}.

End SealingSamples.

(** * Properties *)

(** ** Machine integers *)

Lemma u64_range z : 0 <= u64 z < 2 ^ 64.
Proof. unfold u64. apply Z.mod_pos_bound. lia. Qed.

Lemma u64_small z : 0 <= z < 2 ^ 64 -> u64 z = z.
Proof. intros H. unfold u64. apply Z.mod_small. exact H. Qed.

Lemma i64_small z : - 2 ^ 63 <= z < 2 ^ 63 -> i64 z = z.
Proof. intros H. unfold i64. rewrite Z.mod_small; lia. Qed.

Lemma big_Int64_small x : - 2 ^ 63 < x < 2 ^ 63 -> big_Int64 x = x.
Proof.
  intros H. unfold big_Int64.
  destruct (Z.ltb_spec x 0) as [Hn | Hp].
  - rewrite Z.abs_neq by lia. rewrite (Z.mod_small (- x)) by lia.
    rewrite (i64_small (- x)) by lia. rewrite i64_small; lia.
  - rewrite Z.abs_eq by lia. rewrite (Z.mod_small x) by lia.
    apply i64_small. lia.
Qed.

(** ** core/vm/util.go *)

Module VMFacts.
Import VM.

Example MakeReturnBytes_abc :
  MakeReturnBytes [x61; x62; x63] =
    repeat x00 31 ++ [x20] ++ repeat x00 31 ++ [x03] ++
    [x61; x62; x63] ++ repeat x00 29.
Proof. reflexivity. Qed.

Example MakeReturnBytes_nil :
  MakeReturnBytes [] = repeat x00 31 ++ [x20] ++ repeat x00 32.
Proof. reflexivity. Qed.

Example returned_data_abc :
  returned_data (MakeReturnBytes [x61; x62; x63]) = [x61; x62; x63].
Proof. reflexivity. Qed.

Lemma to_N_byte_of_N n : Byte.to_N (byte_of_N n) = (n mod 256)%N.
Proof.
  unfold byte_of_N.
  destruct (Byte.of_N (n mod 256)) as [b |] eqn:E.
  - apply Byte.to_of_N. exact E.
  - apply Byte.of_N_None_iff in E.
    pose proof (N.mod_upper_bound n 256). lia.
Qed.

Lemma length_be_bytes w v : length (be_bytes w v) = w.
Proof.
  revert v. induction w as [| w IH]; intros v; simpl; [reflexivity |].
  rewrite length_app, IH. simpl. lia.
Qed.

Lemma be_acc_app acc a b : be_acc acc (a ++ b) = be_acc (be_acc acc a) b.
Proof. unfold be_acc. apply fold_left_app. Qed.

Lemma be_acc_zeros k : be_acc 0 (repeat x00 k) = 0%N.
Proof. induction k as [| k IH]; simpl; [reflexivity | exact IH]. Qed.

Lemma be_acc_be_bytes w v acc :
  be_acc acc (be_bytes w v) = (acc * 256 ^ N.of_nat w + v mod 256 ^ N.of_nat w)%N.
Proof.
  revert v acc. induction w as [| w IH]; intros v acc.
  - simpl. rewrite N.mod_1_r. lia.
  - cbn [be_bytes]. rewrite be_acc_app, IH. cbn [be_acc fold_left].
    rewrite to_N_byte_of_N.
    rewrite Nat2N.inj_succ, N.pow_succ_r'.
    rewrite (N.Div0.mod_mul_r v 256 (256 ^ N.of_nat w)).
    set (p := (256 ^ N.of_nat w)%N). lia.
Qed.

Lemma be_to_N_be_bytes w v : be_to_N (be_bytes w v) = (v mod 256 ^ N.of_nat w)%N.
Proof. exact (be_acc_be_bytes w v 0). Qed.

Lemma BytesToHash_short b :
  (length b <= 32)%nat -> BytesToHash b = repeat x00 (32 - length b) ++ b.
Proof.
  intros H. unfold BytesToHash, HashLength.
  replace (length b - 32)%nat with 0%nat by lia. reflexivity.
Qed.

Lemma length_BytesToHash b : length (BytesToHash b) = 32%nat.
Proof.
  unfold BytesToHash, HashLength.
  rewrite length_app, repeat_length, length_drop. lia.
Qed.

Lemma be_to_N_BytesToHash_be_bytes w v :
  (w <= 32)%nat ->
  be_to_N (BytesToHash (be_bytes w v)) = (v mod 256 ^ N.of_nat w)%N.
Proof.
  intros H. rewrite BytesToHash_short by (rewrite length_be_bytes; exact H).
  change (be_to_N ?l) with (be_acc 0 l).
  rewrite be_acc_app, be_acc_zeros. apply be_acc_be_bytes.
Qed.

(** The data part: the bytes, then zeros up to a multiple of 32. *)
Lemma padded_data (ret : list byte) :
  copy (make (if negb (len ret mod 32 =? 0)
              then len ret + (32 - len ret mod 32) else len ret)) ret
  = ret ++ repeat x00 (Z.to_nat (padding (len ret))).
Proof.
  unfold copy, make, padding, len.
  pose proof (Z.mod_pos_bound (Z.of_nat (length ret)) 32 ltac:(lia)) as Hm.
  rewrite repeat_length.
  destruct (Z.eqb_spec (Z.of_nat (length ret) mod 32) 0) as [E | E]; cbn [negb].
  - rewrite E. change ((32 - 0) mod 32) with 0. cbn [Z.to_nat repeat].
    rewrite Nat2Z.id, firstn_all.
    rewrite skipn_all2 by (rewrite repeat_length; lia). reflexivity.
  - rewrite (Z.mod_small (32 - Z.of_nat (length ret) mod 32)) by lia.
    rewrite take_ge by lia. f_equal.
    replace (Z.to_nat (Z.of_nat (length ret) + (32 - Z.of_nat (length ret) mod 32)))
      with (length ret + Z.to_nat (32 - Z.of_nat (length ret) mod 32))%nat by lia.
    rewrite repeat_app, drop_app_length'; [reflexivity |].
    rewrite repeat_length. reflexivity.
Qed.

Lemma padding_spec n :
  0 <= n ->
  0 <= padding n < 32 /\ (n + padding n) mod 32 = 0
  /\ n + padding n = 32 * ((n + 31) / 32).
Proof. intros H. unfold padding. Z.div_mod_to_equations. lia. Qed.

Lemma MakeReturnBytes_parts (ret : list byte) :
  MakeReturnBytes ret =
    BytesToHash (Int32ToBytes 32)
    ++ BytesToHash (Int64ToBytes (i64 (len ret)))
    ++ (ret ++ repeat x00 (Z.to_nat (padding (len ret)))).
Proof.
  unfold MakeReturnBytes. cbv zeta. rewrite padded_data.
  rewrite app_nil_l, <- app_assoc. reflexivity.
Qed.

(** C10.  [MakeReturnBytes ret] is a 32-byte word that reads 32, a
    32-byte word, and [ret] followed by fewer than 32 zero bytes that
    fill it up to a multiple of 32; its length is
    [64 + 32 * ceil(len ret / 32)]; and for a slice as Go can hold it
    (a length below [2^63]) the second word reads [len ret], so that
    the reader who takes that many bytes after the two words gets
    [ret] back. *)
Theorem MakeReturnBytes_layout (ret : list byte) :
  let out := MakeReturnBytes ret in
  (length (take 32 out) = 32%nat /\ be_to_N (take 32 out) = 32%N)
  /\ length (take 32 (drop 32 out)) = 32%nat
  /\ drop 64 out = ret ++ repeat x00 (Z.to_nat (padding (len ret)))
  /\ (0 <= padding (len ret) < 32 /\ (len ret + padding (len ret)) mod 32 = 0)
  /\ len out = 64 + 32 * ((len ret + 31) / 32)
  /\ (len ret < 2 ^ 63 ->
      be_to_N (take 32 (drop 32 out)) = N.of_nat (length ret)
      /\ returned_data out = ret).
Proof.
  intros out.
  assert (Hout : out = BytesToHash (Int32ToBytes 32)
                       ++ BytesToHash (Int64ToBytes (i64 (len ret)))
                       ++ (ret ++ repeat x00 (Z.to_nat (padding (len ret)))))
    by apply MakeReturnBytes_parts.
  pose proof (length_BytesToHash (Int32ToBytes 32)) as L1.
  pose proof (length_BytesToHash (Int64ToBytes (i64 (len ret)))) as L2.
  assert (Hlen : 0 <= len ret) by (unfold len; lia).
  destruct (padding_spec (len ret) Hlen) as (Hp1 & Hp2 & Hp3).
  assert (T1 : take 32 out = BytesToHash (Int32ToBytes 32)).
  { rewrite Hout. apply take_app_length'. symmetry. exact L1. }
  assert (D1 : drop 32 out = BytesToHash (Int64ToBytes (i64 (len ret)))
                             ++ (ret ++ repeat x00 (Z.to_nat (padding (len ret))))).
  { rewrite Hout. apply drop_app_length'. symmetry. exact L1. }
  assert (T2 : take 32 (drop 32 out) = BytesToHash (Int64ToBytes (i64 (len ret)))).
  { rewrite D1. apply take_app_length'. symmetry. exact L2. }
  assert (D2 : drop 64 out = ret ++ repeat x00 (Z.to_nat (padding (len ret)))).
  { change 64%nat with (32 + 32)%nat. rewrite <- drop_drop, D1.
    apply drop_app_length'. symmetry. exact L2. }
  assert (R : len ret < 2 ^ 63 ->
              be_to_N (BytesToHash (Int64ToBytes (i64 (len ret))))
              = N.of_nat (length ret)).
  { intros H. unfold Int64ToBytes.
    rewrite be_to_N_BytesToHash_be_bytes by lia.
    rewrite (i64_small (len ret)) by lia.
    rewrite (i64_small (len ret)) by lia.
    rewrite Z.mod_small by lia.
    unfold len in *. rewrite N.mod_small; [lia |].
    change (256 ^ N.of_nat 8)%N with (2 ^ 64)%N. lia. }
  split; [split |]; [| | split; [| split; [| split; [| split]]]].
  - rewrite T1. exact L1.
  - rewrite T1. unfold Int32ToBytes.
    rewrite be_to_N_BytesToHash_be_bytes by lia. reflexivity.
  - rewrite T2. exact L2.
  - exact D2.
  - exact (conj Hp1 Hp2).
  - unfold len at 1. rewrite Hout, !length_app, L1, L2, repeat_length.
    unfold len in *. lia.
  - intros H. split.
    + rewrite T2. exact (R H).
    + unfold returned_data, returned_length. rewrite T2, D2, (R H).
      rewrite Nat2N.id. apply take_app_length.
Qed.

(** The layout at the three bytes "abc". *)
Lemma MakeReturnBytes_layout_witness :
  len [x61; x62; x63] < 2 ^ 63
  /\ be_to_N (take 32 (drop 32 (MakeReturnBytes [x61; x62; x63]))) = 3%N
  /\ returned_data (MakeReturnBytes [x61; x62; x63]) = [x61; x62; x63].
Proof.
  assert (H : len [x61; x62; x63] < 2 ^ 63) by (vm_compute; reflexivity).
  split; [exact H |].
  exact (proj2 (proj2 (proj2 (proj2 (proj2
           (MakeReturnBytes_layout [x61; x62; x63]))))) H).
Defined.

End VMFacts.

(** ** float64: what a rounding does to a number *)

Module Float64Facts.
Import Float64.

Lemma iter_pos_nat {A} (f : A -> A) p x :
  SpecFloat.iter_pos f p x = Nat.iter (Pos.to_nat p) f x.
Proof.
  revert x. induction p as [p IH | p IH |]; intros x; cbn [SpecFloat.iter_pos].
  - rewrite !IH, Pos2Nat.inj_xI.
    change (S (2 * Pos.to_nat p)) with (S (Pos.to_nat p + (Pos.to_nat p + 0)))%nat.
    rewrite Nat.add_0_r, Nat.iter_succ_r, Nat.iter_add. reflexivity.
  - rewrite !IH, Pos2Nat.inj_xO.
    change (2 * Pos.to_nat p)%nat with (Pos.to_nat p + (Pos.to_nat p + 0))%nat.
    rewrite Nat.add_0_r, Nat.iter_add. reflexivity.
  - reflexivity.
Qed.

Lemma shr_1_m r : 0 <= shr_m r ->
  shr_m (shr_1 r) = shr_m r / 2 /\ 0 <= shr_m (shr_1 r).
Proof.
  destruct r as [m b s]. cbn [shr_m]. intros H.
  destruct m as [| [p | p |] | p]; cbn [shr_1 shr_m]; try lia.
  - split; [reflexivity | lia].
  - split; [| lia]. apply Z.div_unique with 1; lia.
  - split; [| lia]. apply Z.div_unique with 0; lia.
  - split; [reflexivity | lia].
Qed.

Lemma shr_1_exact r : 0 <= shr_m r ->
  loc_of_shr_record (shr_1 r) = loc_Exact
  <-> loc_of_shr_record r = loc_Exact /\ shr_m r mod 2 = 0.
Proof.
  destruct r as [m b s]. cbn [shr_m]. intros H.
  destruct m as [| [p | p |] | p]; try lia.
  - destruct b, s; cbn; (split; [intros X | intros [X Y]]);
      try discriminate; try (split; reflexivity); try reflexivity.
  - assert (E : Z.pos p~1 mod 2 = 1).
    { symmetry. apply Z.mod_unique with (Z.pos p); lia. }
    rewrite E. destruct b, s; cbn; (split; [intros X | intros [X Y]]);
      try discriminate; try (split; reflexivity); try reflexivity.
  - assert (E : Z.pos p~0 mod 2 = 0).
    { symmetry. apply Z.mod_unique with (Z.pos p); lia. }
    rewrite E. destruct b, s; cbn; (split; [intros X | intros [X Y]]);
      try discriminate; try (split; reflexivity); try reflexivity.
  - destruct b, s; cbn; (split; [intros X | intros [X Y]]);
      try discriminate; try (split; reflexivity); try reflexivity.
Qed.

Lemma shr_iter n r : 0 <= shr_m r ->
  shr_m (Nat.iter n shr_1 r) = shr_m r / 2 ^ Z.of_nat n
  /\ 0 <= shr_m (Nat.iter n shr_1 r)
  /\ (loc_of_shr_record (Nat.iter n shr_1 r) = loc_Exact
      <-> loc_of_shr_record r = loc_Exact /\ shr_m r mod 2 ^ Z.of_nat n = 0).
Proof.
  intros H. induction n as [| n IH].
  - change (Nat.iter 0 shr_1 r) with r. change (2 ^ Z.of_nat 0) with 1.
    rewrite Z.div_1_r, Z.mod_1_r. tauto.
  - destruct IH as (Em & Pm & Ex).
    change (Nat.iter (S n) shr_1 r) with (shr_1 (Nat.iter n shr_1 r)).
    destruct (shr_1_m _ Pm) as [E1 P1].
    pose proof (shr_1_exact _ Pm) as X1.
    assert (P2 : 0 < 2 ^ Z.of_nat n) by (apply Z.pow_pos_nonneg; lia).
    rewrite Nat2Z.inj_succ, Z.pow_succ_r by lia.
    split; [| split; [exact P1 |]].
    + rewrite E1, Em, Z.div_div by lia. f_equal. lia.
    + rewrite X1, Ex, Em.
      rewrite (Z.mul_comm 2), Z.rem_mul_r by lia.
      pose proof (Z.mod_pos_bound (shr_m r) (2 ^ Z.of_nat n) P2).
      pose proof (Z.mod_pos_bound (shr_m r / 2 ^ Z.of_nat n) 2 ltac:(lia)).
      split.
      * intros ((A & B) & C). split; [exact A |]. rewrite B, C. lia.
      * intros (A & B). split; [split; [exact A |] |]; nia.
Qed.

Lemma digits2_pos_spec p :
  2 ^ (Z.pos (digits2_pos p) - 1) <= Z.pos p < 2 ^ Z.pos (digits2_pos p).
Proof.
  induction p as [p IH | p IH |]; cbn [digits2_pos].
  - rewrite Pos2Z.inj_succ.
    replace (Z.succ (Z.pos (digits2_pos p)) - 1) with (Z.succ (Z.pos (digits2_pos p) - 1)) by lia.
    rewrite !Z.pow_succ_r by lia.
    generalize dependent (2 ^ (Z.pos (digits2_pos p) - 1)). generalize (2 ^ Z.pos (digits2_pos p)). lia.
  - rewrite Pos2Z.inj_succ.
    replace (Z.succ (Z.pos (digits2_pos p)) - 1) with (Z.succ (Z.pos (digits2_pos p) - 1)) by lia.
    rewrite !Z.pow_succ_r by lia.
    generalize dependent (2 ^ (Z.pos (digits2_pos p) - 1)). generalize (2 ^ Z.pos (digits2_pos p)). lia.
  - cbn. lia.
Qed.

Lemma Zdigits2_spec m : 0 < m ->
  0 < Zdigits2 m /\ 2 ^ (Zdigits2 m - 1) <= m < 2 ^ Zdigits2 m.
Proof.
  destruct m as [| p | p]; try lia. intros _. cbn [Zdigits2].
  split; [lia | apply digits2_pos_spec].
Qed.

Lemma Zdigits2_unique m d : 2 ^ (d - 1) <= m < 2 ^ d -> 0 < d -> Zdigits2 m = d.
Proof.
  intros H Hd.
  assert (Hm : 0 < m).
  { assert (0 < 2 ^ (d - 1)) by (apply Z.pow_pos_nonneg; lia). lia. }
  destruct (Zdigits2_spec m Hm) as [P S].
  set (d' := Zdigits2 m) in *.
  destruct (Z.lt_trichotomy d d') as [L | [E | L]]; [| congruence |].
  - assert (2 ^ d <= 2 ^ (d' - 1)) by (apply Z.pow_le_mono_r; lia). lia.
  - assert (2 ^ d' <= 2 ^ (d - 1)) by (apply Z.pow_le_mono_r; lia). lia.
Qed.

Lemma fexp_eq e : fexp prec emax e = Z.max (e - 53) (-1074).
Proof. reflexivity. Qed.

(** *** Powers of two as rationals *)

Lemma pw_pos e : (0 < pw e)%Q.
Proof. apply Qpower_0_lt. reflexivity. Qed.

Lemma pw_add a b : (pw (a + b) == pw a * pw b)%Q.
Proof. apply Qpower_plus. discriminate. Qed.

Lemma pw_Z e : 0 <= e -> (pw e == inject_Z (2 ^ e))%Q.
Proof. intros H. unfold pw. rewrite Zpower_Qpower by exact H. reflexivity. Qed.

Lemma pw_le a b : a <= b -> (pw a <= pw b)%Q.
Proof. intros H. apply Qpower_le_compat_l; [exact H | discriminate]. Qed.

Lemma pw_scale (z d e : Z) : 0 <= d ->
  (inject_Z (z * 2 ^ d) * pw e == inject_Z z * pw (e + d))%Q.
Proof.
  intros H. rewrite pw_add, (pw_Z d) by exact H.
  rewrite inject_Z_mult. ring.
Qed.

Lemma scaled_lt a b e : (inject_Z a * pw e < inject_Z b * pw e)%Q -> a < b.
Proof.
  intros H. apply Qmult_lt_r in H; [| apply pw_pos]. rewrite Zlt_Qlt. exact H.
Qed.

Lemma scaled_le a b e : (inject_Z a * pw e <= inject_Z b * pw e)%Q -> a <= b.
Proof.
  intros H. apply Qmult_le_r in H; [| apply pw_pos]. rewrite Zle_Qle. exact H.
Qed.

Lemma le_scaled a b e : a <= b -> (inject_Z a * pw e <= inject_Z b * pw e)%Q.
Proof.
  intros H. apply Qmult_le_r; [apply pw_pos |]. rewrite <- Zle_Qle. exact H.
Qed.

Lemma lt_scaled a b e : a < b -> (inject_Z a * pw e < inject_Z b * pw e)%Q.
Proof.
  intros H. apply Qmult_lt_r; [apply pw_pos |]. rewrite <- Zlt_Qlt. exact H.
Qed.

Lemma inject_Z_nonneg n : 0 <= n -> (0 <= inject_Z n)%Q.
Proof. intros H. change 0%Q with (inject_Z 0). rewrite <- Zle_Qle. exact H. Qed.

Lemma scaled_nonneg n e : 0 <= n -> (0 <= inject_Z n * pw e)%Q.
Proof.
  intros H. apply Qmult_le_0_compat; [apply inject_Z_nonneg; exact H |].
  apply Qlt_le_weak, pw_pos.
Qed.

(** *** The two shifts of a rounding *)

Lemma shr_record_of_loc_m m l : shr_m (shr_record_of_loc m l) = m.
Proof. destruct l as [| []]; reflexivity. Qed.

Lemma loc_of_shr_record_of_loc m l :
  loc_of_shr_record (shr_record_of_loc m l) = l.
Proof. destruct l as [| []]; reflexivity. Qed.

Lemma shr_spec r e k : 0 <= shr_m r -> 0 <= k ->
  exists r1, shr r e k = (r1, e + k)
    /\ shr_m r1 = shr_m r / 2 ^ k
    /\ (loc_of_shr_record r1 = loc_Exact
        <-> loc_of_shr_record r = loc_Exact /\ shr_m r mod 2 ^ k = 0).
Proof.
  intros Hm Hk. destruct k as [| p | p]; [| | lia].
  - exists r. cbn [shr]. rewrite Z.add_0_r. change (2 ^ 0) with 1.
    rewrite Z.div_1_r, Z.mod_1_r. tauto.
  - exists (SpecFloat.iter_pos shr_1 p r). cbn [shr]. split; [reflexivity |].
    rewrite iter_pos_nat.
    destruct (shr_iter (Pos.to_nat p) r Hm) as (A & _ & B).
    rewrite positive_nat_Z in A, B. split; [exact A | exact B].
Qed.

Lemma shr_fexp_spec m e l :
  0 <= m -> e <= fexp prec emax (Zdigits2 m + e) ->
  exists r1,
    shr_fexp prec emax m e l = (r1, fexp prec emax (Zdigits2 m + e))
    /\ shr_m r1 = m / 2 ^ (fexp prec emax (Zdigits2 m + e) - e)
    /\ (loc_of_shr_record r1 = loc_Exact
        <-> l = loc_Exact /\ m mod 2 ^ (fexp prec emax (Zdigits2 m + e) - e) = 0).
Proof.
  intros Hm He. unfold shr_fexp.
  set (E := fexp prec emax (Zdigits2 m + e)) in *.
  destruct (shr_spec (shr_record_of_loc m l) e (E - e)) as (r1 & A & B & C).
  - rewrite shr_record_of_loc_m. exact Hm.
  - lia.
  - exists r1. rewrite A. split; [f_equal; lia |].
    rewrite shr_record_of_loc_m in B, C.
    rewrite loc_of_shr_record_of_loc in C. split; [exact B | exact C].
Qed.

(** The mantissa after the first shift has at most 53 digits, and
    exactly 53 above the least exponent. *)
Lemma shifted_lt m e :
  0 <= m -> e <= fexp prec emax (Zdigits2 m + e) ->
  m / 2 ^ (fexp prec emax (Zdigits2 m + e) - e) < 2 ^ 53.
Proof.
  intros Hm He. rewrite fexp_eq in *.
  set (k := Z.max (Zdigits2 m + e - 53) (-1074) - e) in *.
  assert (Hk : 0 <= k) by lia.
  assert (P : 0 < 2 ^ k) by (apply Z.pow_pos_nonneg; lia).
  destruct (Z.eq_dec m 0) as [-> | Hne].
  - rewrite Z.div_0_l by lia. reflexivity.
  - destruct (Zdigits2_spec m ltac:(lia)) as (Hd & _ & Hlt).
    apply Z.div_lt_upper_bound; [exact P |].
    rewrite <- Z.pow_add_r by lia.
    apply Z.lt_le_trans with (1 := Hlt). apply Z.pow_le_mono_r; lia.
Qed.

Lemma shifted_ge m e :
  0 <= m -> e <= fexp prec emax (Zdigits2 m + e) ->
  -1074 < fexp prec emax (Zdigits2 m + e) ->
  2 ^ 52 <= m / 2 ^ (fexp prec emax (Zdigits2 m + e) - e).
Proof.
  intros Hm He. rewrite fexp_eq in *. intros HE.
  destruct (Z.eq_dec m 0) as [-> | Hne].
  - cbn [Zdigits2] in *. lia.
  - destruct (Zdigits2_spec m ltac:(lia)) as (Hd & Hle & _).
    replace (Z.max (Zdigits2 m + e - 53) (-1074) - e) with (Zdigits2 m - 53) by lia.
    assert (Hk : 0 <= Zdigits2 m - 53) by lia.
    apply Z.div_le_lower_bound; [apply Z.pow_pos_nonneg; lia |].
    rewrite <- Z.pow_add_r by lia.
    replace (Zdigits2 m - 53 + 52) with (Zdigits2 m - 1) by lia. exact Hle.
Qed.

(** Where the number lies after the first shift. *)
Lemma located_shift m e l x k :
  0 <= m -> 0 <= k -> located m e l x ->
  (inject_Z (m / 2 ^ k) * pw (e + k) <= x)%Q
  /\ (x < inject_Z (m / 2 ^ k + 1) * pw (e + k))%Q
  /\ (~ (l = loc_Exact /\ m mod 2 ^ k = 0) ->
      (inject_Z (m / 2 ^ k) * pw (e + k) < x)%Q).
Proof.
  intros Hm Hk Hx.
  assert (P : 0 < 2 ^ k) by (apply Z.pow_pos_nonneg; lia).
  pose proof (Z.div_mod m (2 ^ k) ltac:(lia)) as D.
  pose proof (Z.mod_pos_bound m (2 ^ k) P) as R.
  set (q := m / 2 ^ k) in *. set (r := m mod 2 ^ k) in *.
  rewrite <- !pw_scale by exact Hk.
  assert (L : (inject_Z (q * 2 ^ k) * pw e <= inject_Z m * pw e)%Q)
    by (apply le_scaled; lia).
  assert (U : (inject_Z (m + 1) * pw e <= inject_Z ((q + 1) * 2 ^ k) * pw e)%Q)
    by (apply le_scaled; lia).
  assert (U' : (inject_Z m * pw e < inject_Z ((q + 1) * 2 ^ k) * pw e)%Q)
    by (apply lt_scaled; lia).
  destruct l as [| c]; cbn [located] in Hx.
  - rewrite Hx. split; [exact L |]. split; [exact U' |].
    intros N. apply lt_scaled.
    destruct (Z.eq_dec r 0) as [E | E]; [exfalso; apply N; split; [reflexivity | exact E] | lia].
  - destruct Hx as [H1 H2]. split; [| split].
    + apply Qlt_le_weak. apply Qle_lt_trans with (1 := L). exact H1.
    + apply Qlt_le_trans with (1 := H2). exact U.
    + intros _. apply Qle_lt_trans with (1 := L). exact H1.
Qed.

Lemma Zdigits2_le_53 m : 0 < m < 2 ^ 53 -> Zdigits2 m <= 53.
Proof.
  intros H. destruct (Zdigits2_spec m ltac:(lia)) as (Hd & Hle & _).
  destruct (Z_le_gt_dec (Zdigits2 m) 53) as [L | G]; [exact L | exfalso].
  assert (2 ^ 53 <= 2 ^ (Zdigits2 m - 1)) by (apply Z.pow_le_mono_r; lia).
  lia.
Qed.

Lemma Zdigits2_ge_53 m : 2 ^ 52 <= m -> 53 <= Zdigits2 m.
Proof.
  intros H. assert (0 < 2 ^ 52) by reflexivity.
  destruct (Zdigits2_spec m ltac:(lia)) as (Hd & _ & Hlt).
  destruct (Z_le_gt_dec 53 (Zdigits2 m)) as [L | G]; [exact L | exfalso].
  assert (2 ^ Zdigits2 m <= 2 ^ 52) by (apply Z.pow_le_mono_r; lia).
  lia.
Qed.

(** A mantissa of the grid is left alone by the second shift, unless
    the rounding carried into [2^53]. *)
Lemma shr_fexp_rounded m2 E :
  -1074 <= E -> 0 <= m2 <= 2 ^ 53 -> (-1074 < E -> 2 ^ 52 <= m2) ->
  exists r2 E2,
    shr_fexp prec emax m2 E loc_Exact = (r2, E2)
    /\ ((m2 < 2 ^ 53 /\ shr_m r2 = m2 /\ E2 = E)
        \/ (m2 = 2 ^ 53 /\ shr_m r2 = 2 ^ 52 /\ E2 = E + 1))
    /\ (0 < shr_m r2 -> fexp prec emax (Zdigits2 (shr_m r2) + E2) = E2).
Proof.
  intros HE Hm Hn.
  destruct (Z.eq_dec m2 (2 ^ 53)) as [-> | Hne].
  - exists (shr_1 (shr_record_of_loc (2 ^ 53) loc_Exact)), (E + 1).
    split; [| split].
    + unfold shr_fexp. change (Zdigits2 (2 ^ 53)) with 54. rewrite fexp_eq.
      replace (Z.max (54 + E - 53) (-1074) - E) with 1 by lia. reflexivity.
    + right. split; [reflexivity |]. split; reflexivity.
    + intros _. change (shr_m (shr_1 (shr_record_of_loc (2 ^ 53) loc_Exact))) with (2 ^ 52).
      change (Zdigits2 (2 ^ 52)) with 53. rewrite fexp_eq. lia.
  - assert (C : fexp prec emax (Zdigits2 m2 + E) = E).
    { rewrite fexp_eq. destruct (Z.eq_dec m2 0) as [-> | Hz].
      - cbn [Zdigits2]. assert (~ -1074 < E); [| lia].
        intros G. specialize (Hn G). assert (0 < 2 ^ 52) by reflexivity. lia.
      - pose proof (Zdigits2_le_53 m2 ltac:(lia)) as L.
        destruct (Z_le_gt_dec E (-1074)) as [A | A]; [lia |].
        pose proof (Zdigits2_ge_53 m2 (Hn ltac:(lia))). lia. }
    exists (shr_record_of_loc m2 loc_Exact), E. split; [| split].
    + unfold shr_fexp. rewrite C, Z.sub_diag. reflexivity.
    + left. split; [lia |]. split; reflexivity.
    + intros _. exact C.
Qed.

Lemma round_nearest_even_spec m l :
  m <= round_nearest_even m l <= m + 1
  /\ (l = loc_Exact -> round_nearest_even m l = m).
Proof.
  destruct l as [| []]; cbn [round_nearest_even]; try destruct (Z.even m);
    split; try lia; try reflexivity; discriminate.
Qed.

(** What [binary_round_aux] makes of a number [x >= 0] given by a
    mantissa, an exponent and a location: the grid point [m1 * 2^E]
    below [x] and the mantissa [m2] chosen, [m1] or its successor. *)
Lemma round_aux_geometry s m e l x :
  0 <= m -> e <= fexp prec emax (Zdigits2 m + e) -> located m e l x ->
  exists m1 m2 E,
    -1074 <= E /\ 0 <= m1 < 2 ^ 53 /\ (-1074 < E -> 2 ^ 52 <= m1)
    /\ (inject_Z m1 * pw E <= x)%Q /\ (x < inject_Z (m1 + 1) * pw E)%Q
    /\ m1 <= m2 <= m1 + 1
    /\ (m2 = m1 + 1 -> (inject_Z m1 * pw E < x)%Q)
    /\ valid (binary_round_aux prec emax s m e l) = true
    /\ ((binary_round_aux prec emax s m e l = S754_infinity s
         /\ (971 < E \/ (m2 = 2 ^ 53 /\ 970 < E)))
        \/ (finite (binary_round_aux prec emax s m e l) = true
            /\ (val (binary_round_aux prec emax s m e l)
                == sval s (inject_Z m2 * pw E))%Q)).
Proof.
  intros Hm He Hx.
  destruct (shr_fexp_spec m e l Hm He) as (r1 & S1 & M1 & L1).
  set (E := fexp prec emax (Zdigits2 m + e)) in *.
  pose proof (shifted_lt m e Hm He) as B1. fold E in B1.
  pose proof (shifted_ge m e Hm He) as B2. fold E in B2.
  assert (HE : -1074 <= E) by (subst E; rewrite fexp_eq; lia).
  assert (P1 : 0 <= m / 2 ^ (E - e)) by (apply Z.div_pos; [lia | apply Z.pow_pos_nonneg; lia]).
  destruct (located_shift m e l x (E - e) Hm ltac:(lia) Hx) as (X1 & X2 & X3).
  replace (e + (E - e)) with E in X1, X2, X3 by lia.
  set (m1 := m / 2 ^ (E - e)) in *.
  destruct (round_nearest_even_spec m1 (loc_of_shr_record r1)) as (R1 & R2).
  set (m2 := round_nearest_even m1 (loc_of_shr_record r1)) in *.
  destruct (shr_fexp_rounded m2 E HE ltac:(lia)) as (r2 & E2 & S2 & C2 & K2).
  { intros G. specialize (B2 G). lia. }
  exists m1, m2, E.
  split; [exact HE |]. split; [lia |]. split; [exact B2 |].
  split; [exact X1 |]. split; [exact X2 |]. split; [exact R1 |].
  split.
  { intros Hup. apply X3. intros D. apply L1 in D. specialize (R2 D). lia. }
  unfold binary_round_aux. rewrite S1, M1. fold m1. fold m2. rewrite S2.
  clearbody m2.
  destruct C2 as [(Hlt & Hr2 & ->) | (Em2 & Hr2 & ->)].
  - rewrite Hr2 in *. destruct m2 as [| p | p] eqn:Em2; [| | lia].
    + split; [reflexivity |]. right. split; [reflexivity |].
      cbn [val]. destruct s; cbn [sval]; ring.
    + assert (Hc : fexp prec emax (Zdigits2 (Z.pos p) + E) = E) by (apply K2; cbn; lia).
      destruct (Z.leb_spec E (emax - prec)) as [A | A].
      * split.
        { unfold valid. cbn [valid_binary]. unfold bounded, canonical_mantissa.
          cbn [Zdigits2] in Hc. rewrite Hc, Z.eqb_refl.
          apply Z.leb_le in A. rewrite A. reflexivity. }
        right. split; [reflexivity |]. cbn [val].
        destruct s; cbn [sval cond_Zopp].
        -- change (Z.neg p) with (- Z.pos p). rewrite inject_Z_opp. ring.
        -- reflexivity.
      * split; [reflexivity |]. left. split; [reflexivity |].
        left. unfold emax, prec in A. lia.
  - subst m2. rewrite Hr2. change (2 ^ 52) with (Z.pos 4503599627370496).
    cbv iota beta.
    assert (Hc : fexp prec emax (Zdigits2 (shr_m r2) + (E + 1)) = E + 1)
      by (apply K2; rewrite Hr2; reflexivity).
    rewrite Hr2 in Hc. change (2 ^ 52) with (Z.pos 4503599627370496) in Hc.
    destruct (Z.leb_spec (E + 1) (emax - prec)) as [A | A].
    + split.
      { unfold valid. cbn [valid_binary]. unfold bounded, canonical_mantissa.
        cbn [Zdigits2] in Hc. rewrite Hc, Z.eqb_refl.
        apply Z.leb_le in A. rewrite A. reflexivity. }
      right. split; [reflexivity |]. cbn [val].
      assert (T : (inject_Z (Z.pos 4503599627370496) * pw (E + 1)
                   == inject_Z (2 ^ 53) * pw E)%Q).
      { rewrite <- (pw_scale _ 1 E) by lia. reflexivity. }
      destruct s; cbn [sval cond_Zopp].
      * change (Z.neg 4503599627370496) with (- Z.pos 4503599627370496).
        rewrite inject_Z_opp, <- T. ring.
      * exact T.
    + split; [reflexivity |]. left. split; [reflexivity |].
      right. split; [reflexivity |]. unfold emax, prec in A. lia.
Qed.

Lemma pw_rescale N g E : E <= g ->
  (inject_Z N * pw g == inject_Z (N * 2 ^ (g - E)) * pw E)%Q.
Proof.
  intros H. rewrite pw_scale by lia. replace (E + (g - E)) with g by lia.
  reflexivity.
Qed.

Lemma grid_lower m1 m2 E x N g :
  0 <= m1 -> (-1074 < E -> 2 ^ 52 <= m1) ->
  (x < inject_Z (m1 + 1) * pw E)%Q -> m1 <= m2 ->
  0 <= N < 2 ^ 53 -> 0 <= g ->
  (inject_Z N * pw g <= x)%Q ->
  (inject_Z N * pw g <= inject_Z m2 * pw E)%Q.
Proof.
  intros Hm1 Hn Hx Hm2 HN Hg H.
  destruct (Z_le_gt_dec E g) as [L | G].
  - rewrite (pw_rescale N g E L) in *.
    apply le_scaled.
    assert (N * 2 ^ (g - E) < m1 + 1); [| lia].
    apply scaled_lt with E. apply Qle_lt_trans with (1 := H). exact Hx.
  - rewrite (pw_rescale m2 E g) by lia. apply le_scaled.
    assert (2 <= 2 ^ (E - g)) by (apply (Z.pow_le_mono_r 2 1); lia).
    specialize (Hn ltac:(lia)). change (2 ^ 53) with (2 ^ 52 * 2) in HN.
    assert (0 < 2 ^ 52) by reflexivity. nia.
Qed.

Lemma grid_upper m1 m2 E x N g :
  0 <= m1 -> (-1074 < E -> 2 ^ 52 <= m1) ->
  (inject_Z m1 * pw E <= x)%Q -> m1 <= m2 <= m1 + 1 ->
  (m2 = m1 + 1 -> (inject_Z m1 * pw E < x)%Q) ->
  0 <= N < 2 ^ 53 -> 0 <= g <= 971 ->
  (x <= inject_Z N * pw g)%Q ->
  (inject_Z m2 * pw E <= inject_Z N * pw g)%Q
  /\ ~ (971 < E \/ (m2 = 2 ^ 53 /\ 970 < E)).
Proof.
  intros Hm1 Hn Hx Hm2 Hup HN Hg H.
  destruct (Z_le_gt_dec E g) as [L | G].
  - rewrite (pw_rescale N g E L) in *.
    assert (B : m2 <= N * 2 ^ (g - E)).
    { destruct (Z.eq_dec m2 (m1 + 1)) as [E1 | E1].
      - assert (m1 < N * 2 ^ (g - E)); [| lia].
        apply scaled_lt with E. apply Qlt_le_trans with (2 := H). exact (Hup E1).
      - assert (m1 <= N * 2 ^ (g - E)); [| lia].
        apply scaled_le with E. apply Qle_trans with (2 := H). exact Hx. }
    split; [apply le_scaled; exact B |].
    intros [A | [A1 A2]]; [lia |].
    replace (g - E) with 0 in B by lia. change (2 ^ 0) with 1 in B. lia.
  - exfalso.
    assert (B : m1 * 2 ^ (E - g) <= N).
    { apply scaled_le with g. rewrite <- (pw_rescale m1 E g) by lia.
      apply Qle_trans with (1 := Hx). exact H. }
    assert (2 <= 2 ^ (E - g)) by (apply (Z.pow_le_mono_r 2 1); lia).
    specialize (Hn ltac:(lia)). change (2 ^ 53) with (2 ^ 52 * 2) in HN.
    assert (0 < 2 ^ 52) by reflexivity. nia.
Qed.

Lemma round_aux_rounds s m e l x :
  0 <= m -> e <= fexp prec emax (Zdigits2 m + e) -> located m e l x ->
  rounds (sval s x) (binary_round_aux prec emax s m e l).
Proof.
  intros Hm He Hx.
  destruct (round_aux_geometry s m e l x Hm He Hx)
    as (m1 & m2 & E & HE & Hm1 & Hn & X1 & X2 & Hm2 & Hup & Hv & Hr).
  set (r := binary_round_aux prec emax s m e l) in *. clearbody r.
  assert (X0 : (0 <= x)%Q).
  { apply Qle_trans with (2 := X1). apply scaled_nonneg. lia. }
  assert (V0 : (0 <= inject_Z m2 * pw E)%Q).
  { apply scaled_nonneg. lia. }
  split; [exact Hv |]. split.
  { destruct Hr as [[-> _] | [F _]]; [discriminate | intros ->; discriminate]. }
  intros N g HN Hg.
  assert (Pg : (0 < pw g)%Q) by apply pw_pos.
  assert (Sgn : forall n, (0 <= inject_Z n * pw g)%Q -> 0 <= n).
  { intros n Hn0. apply scaled_le with g.
    change (inject_Z 0 * pw g)%Q with (0 * pw g)%Q. rewrite Qmult_0_l. exact Hn0. }
  assert (Neg : forall n, n <= 0 -> (inject_Z n * pw g <= 0)%Q).
  { intros n Hn0. rewrite <- (Qmult_0_l (pw g)). apply (le_scaled n 0 g Hn0). }
  assert (Opp : (inject_Z (- N) * pw g == - (inject_Z N * pw g))%Q)
    by (rewrite inject_Z_opp; ring).
  destruct s; cbn [sval] in *.
  - (* negative *)
    split.
    + intros H. right.
      assert (H' : (x <= inject_Z (- N) * pw g)%Q) by (rewrite Opp; lra).
      assert (HN' : 0 <= - N < 2 ^ 53).
      { split; [| lia]. apply Sgn. lra. }
      destruct (grid_upper m1 m2 E x (- N) g ltac:(lia) Hn X1 Hm2 Hup HN' Hg H')
        as [B NI].
      destruct Hr as [[_ I] | [F V]]; [contradiction |].
      split; [exact F |]. rewrite V. rewrite Opp in B. lra.
    + intros H. destruct Hr as [[-> _] | [F V]]; [left; reflexivity | right].
      split; [exact F |]. rewrite V.
      destruct (Z_le_gt_dec 0 N) as [P | P].
      * pose proof (scaled_nonneg N g P). lra.
      * assert (H' : (inject_Z (- N) * pw g <= x)%Q) by (rewrite Opp; lra).
        pose proof (grid_lower m1 m2 E x (- N) g ltac:(lia) Hn X2 ltac:(lia)
                      ltac:(lia) ltac:(lia) H') as B.
        rewrite Opp in B. lra.
  - (* non-negative *)
    split.
    + intros H. destruct Hr as [[-> _] | [F V]]; [left; reflexivity | right].
      split; [exact F |]. rewrite V.
      destruct (Z_le_gt_dec N 0) as [P | P].
      * pose proof (Neg N P). lra.
      * exact (grid_lower m1 m2 E x N g ltac:(lia) Hn X2 ltac:(lia)
                 ltac:(lia) ltac:(lia) H).
    + intros H. right.
      assert (HN' : 0 <= N < 2 ^ 53).
      { split; [| lia]. apply Sgn. lra. }
      destruct (grid_upper m1 m2 E x N g ltac:(lia) Hn X1 Hm2 Hup HN' Hg H)
        as [B NI].
      destruct Hr as [[_ I] | [F V]]; [contradiction |].
      split; [exact F |]. rewrite V. exact B.
Qed.

(** *** The operations on finite doubles *)

Lemma rounds_proper x y r : (x == y)%Q -> rounds x r -> rounds y r.
Proof.
  intros E (V & Nn & H). split; [exact V |]. split; [exact Nn |].
  intros N g HN Hg. destruct (H N g HN Hg) as [A B].
  split; intros C; [apply A | apply B]; rewrite E; exact C.
Qed.

Lemma rounds_self r : valid r = true -> finite r = true -> rounds (val r) r.
Proof.
  intros V F. split; [exact V |]. split; [intros ->; discriminate |].
  intros N g _ _. split; intros C; right; (split; [exact F | exact C]).
Qed.

Lemma rounds_zero s : rounds 0 (S754_zero s).
Proof. apply (rounds_self (S754_zero s)); reflexivity. Qed.

Lemma pos_iter_xO m d : Z.pos (Pos.iter xO m d) = Z.pos m * 2 ^ Z.pos d.
Proof.
  rewrite Pos2Nat.inj_iter, <- (positive_nat_Z d).
  induction (Pos.to_nat d) as [| n IH].
  - cbn. lia.
  - cbn [nat_rect]. rewrite Pos2Z.inj_xO, IH, Nat2Z.inj_succ, Z.pow_succ_r by lia.
    lia.
Qed.

Lemma shl_align_spec mx ex ex' :
  exists mz ez,
    shl_align mx ex ex' = (mz, ez)
    /\ ez = Z.min ex ex' /\ Z.pos mz = Z.pos mx * 2 ^ (ex - ez).
Proof.
  unfold shl_align. destruct (ex' - ex) as [| d | d] eqn:E.
  - exists mx, ex. split; [reflexivity |]. split; [lia |].
    rewrite Z.sub_diag. lia.
  - exists mx, ex. split; [reflexivity |]. split; [lia |].
    rewrite Z.sub_diag. lia.
  - exists (Pos.iter xO mx d), ex'. split; [reflexivity |]. split; [lia |].
    rewrite pos_iter_xO. f_equal. f_equal. lia.
Qed.

Lemma Zdigits2_shift m d : 0 < m -> 0 <= d ->
  Zdigits2 (m * 2 ^ d) = Zdigits2 m + d.
Proof.
  intros Hm Hd. destruct (Zdigits2_spec m Hm) as (P & L & U).
  assert (0 < 2 ^ d) by (apply Z.pow_pos_nonneg; lia).
  apply Zdigits2_unique; [| lia].
  replace (Zdigits2 m + d - 1) with (Zdigits2 m - 1 + d) by lia.
  rewrite !Z.pow_add_r by lia. nia.
Qed.

Lemma binary_round_rounds s m e :
  rounds (sval s (inject_Z (Z.pos m) * pw e)) (binary_round prec emax s m e).
Proof.
  unfold binary_round.
  destruct (shl_align_spec m e (fexp prec emax (Z.pos (digits2_pos m) + e)))
    as (mz & ez & -> & Ez & Em).
  assert (Hd : 0 <= e - ez) by lia.
  apply round_aux_rounds; [lia | |].
  - rewrite Em, Zdigits2_shift by lia.
    change (Zdigits2 (Z.pos m)) with (Z.pos (digits2_pos m)).
    replace (Z.pos (digits2_pos m) + (e - ez) + ez) with (Z.pos (digits2_pos m) + e) by lia.
    lia.
  - cbn [located]. rewrite Em, pw_scale by lia.
    replace (ez + (e - ez)) with e by lia. reflexivity.
Qed.

Lemma normalize_rounds z e :
  rounds (inject_Z z * pw e) (binary_normalize prec emax z e false).
Proof.
  destruct z as [| m | m]; cbn [binary_normalize].
  - apply rounds_proper with 0%Q; [| apply rounds_zero].
    change (inject_Z 0) with 0%Q. ring.
  - apply (binary_round_rounds false m e).
  - apply rounds_proper with (sval true (inject_Z (Z.pos m) * pw e));
      [| apply binary_round_rounds].
    cbn [sval]. change (Z.neg m) with (- Z.pos m). rewrite inject_Z_opp. ring.
Qed.

Lemma of_int_rounds n : rounds (inject_Z n) (of_int n).
Proof.
  apply rounds_proper with (inject_Z n * pw 0)%Q; [| apply normalize_rounds].
  change (pw 0) with 1%Q. ring.
Qed.

Lemma valid_canonical s m e :
  valid (S754_finite s m e) = true ->
  e = Z.max (Z.pos (digits2_pos m) + e - 53) (-1074) /\ e <= 971.
Proof.
  unfold valid. cbn [valid_binary]. unfold bounded, canonical_mantissa.
  rewrite fexp_eq. intros H. apply andb_true_iff in H as [A B].
  apply Z.eqb_eq in A. apply Z.leb_le in B. unfold emax, prec in B. lia.
Qed.

Lemma val_finite s m e :
  (val (S754_finite s m e) == sval s (inject_Z (Z.pos m) * pw e))%Q.
Proof.
  cbn [val]. destruct s; cbn [sval cond_Zopp]; [| reflexivity].
  change (Z.neg m) with (- Z.pos m). rewrite inject_Z_opp. ring.
Qed.

Lemma sval_xorb a b p q :
  (sval (xorb a b) (p * q) == sval a p * sval b q)%Q.
Proof. destruct a, b; cbn [sval xorb]; ring. Qed.

Lemma mul_rounds x y :
  valid x = true -> valid y = true -> finite x = true -> finite y = true ->
  rounds (val x * val y) (mul x y).
Proof.
  intros Vx Vy Fx Fy.
  destruct x as [sx | | | sx mx ex]; try discriminate;
    destruct y as [sy | | | sy my ey]; try discriminate; cbn [mul SFmul].
  - apply rounds_proper with 0%Q; [cbn [val]; ring | apply rounds_zero].
  - apply rounds_proper with 0%Q; [cbn [val]; ring | apply rounds_zero].
  - apply rounds_proper with 0%Q; [cbn [val]; ring | apply rounds_zero].
  - unfold mul. cbn [SFmul].
    apply rounds_proper
      with (sval (xorb sx sy) (inject_Z (Z.pos (mx * my)) * pw (ex + ey))).
    + rewrite !val_finite.
      destruct sx, sy; cbn [sval xorb];
        rewrite Pos2Z.inj_mul, inject_Z_mult, pw_add; ring.
    + apply round_aux_rounds; [lia | | cbn [located]; reflexivity].
      apply valid_canonical in Vx as [Cx _]. apply valid_canonical in Vy as [Cy _].
      rewrite fexp_eq.
      pose proof (digits2_pos_spec mx) as [Lx Ux].
      pose proof (digits2_pos_spec my) as [Ly Uy].
      destruct (Zdigits2_spec (Z.pos (mx * my)) ltac:(lia)) as (Pd & _ & Ud).
      set (dx := Z.pos (digits2_pos mx)) in *.
      set (dy := Z.pos (digits2_pos my)) in *.
      set (d := Zdigits2 (Z.pos (mx * my))) in *.
      assert (Hd : dx + dy - 1 <= d).
      { destruct (Z_le_gt_dec (dx + dy - 1) d) as [L | G]; [exact L | exfalso].
        assert (2 ^ d <= 2 ^ (dx - 1 + (dy - 1))) by (apply Z.pow_le_mono_r; lia).
        rewrite Z.pow_add_r in H by lia. rewrite Pos2Z.inj_mul in Ud.
        assert (0 < 2 ^ (dx - 1)) by (apply Z.pow_pos_nonneg; lia).
        assert (0 < 2 ^ (dy - 1)) by (apply Z.pow_pos_nonneg; lia).
        nia. }
      lia.
Qed.

Lemma aligned_val s m e ez : ez <= e ->
  (inject_Z (cond_Zopp s (Z.pos (fst (shl_align m e ez)))) * pw ez
   == val (S754_finite s m e))%Q.
Proof.
  intros H. destruct (shl_align_spec m e ez) as (mz & ez' & -> & Ez & Em).
  cbn [fst]. replace ez' with ez in Em by lia. rewrite Em. cbn [val].
  pose proof (pw_rescale (Z.pos m) e ez H) as T.
  destruct s; cbn [cond_Zopp].
  - rewrite !inject_Z_opp. lra.
  - lra.
Qed.

Lemma add_rounds x y :
  valid x = true -> valid y = true -> finite x = true -> finite y = true ->
  rounds (val x + val y) (add x y).
Proof.
  intros Vx Vy Fx Fy.
  destruct x as [sx | | | sx mx ex]; try discriminate;
    destruct y as [sy | | | sy my ey]; try discriminate; unfold add; cbn [SFadd].
  - apply rounds_proper with 0%Q; [cbn [val]; ring |].
    destruct sx, sy; apply rounds_zero.
  - apply rounds_proper with (val (S754_finite sy my ey)); [cbn [val]; ring |].
    apply rounds_self; [exact Vy | reflexivity].
  - apply rounds_proper with (val (S754_finite sx mx ex)); [cbn [val]; ring |].
    apply rounds_self; [exact Vx | reflexivity].
  - eapply rounds_proper; [| apply normalize_rounds].
    rewrite inject_Z_plus, Qmult_plus_distr_l.
    rewrite !aligned_val by lia. reflexivity.
Qed.

Lemma sub_rounds x y :
  valid x = true -> valid y = true -> finite x = true -> finite y = true ->
  rounds (val x - val y) (sub x y).
Proof.
  intros Vx Vy Fx Fy.
  destruct x as [sx | | | sx mx ex]; try discriminate;
    destruct y as [sy | | | sy my ey]; try discriminate; unfold sub; cbn [SFsub].
  - apply rounds_proper with 0%Q; [cbn [val]; ring |].
    destruct sx, sy; apply rounds_zero.
  - apply rounds_proper with (val (S754_finite (negb sy) my ey)).
    + rewrite !val_finite. destruct sy; cbn [sval negb val]; ring.
    + apply rounds_self; [exact Vy | reflexivity].
  - apply rounds_proper with (val (S754_finite sx mx ex)); [cbn [val]; ring |].
    apply rounds_self; [exact Vx | reflexivity].
  - eapply rounds_proper; [| apply normalize_rounds].
    rewrite <- (aligned_val sx mx ex (Z.min ex ey)),
            <- (aligned_val sy my ey (Z.min ex ey)) by lia.
    unfold Z.sub at 1. rewrite inject_Z_plus, inject_Z_opp. ring.
Qed.

Lemma new_location_spec n k :
  (k = 0 -> new_location n k = loc_Exact)
  /\ (k <> 0 -> exists c, new_location n k = loc_Inexact c).
Proof.
  unfold new_location, new_location_even, new_location_odd.
  destruct (Z.even n), (Z.eqb_spec k 0); split; intros H;
    try reflexivity; try contradiction; try congruence; eexists; reflexivity.
Qed.

Lemma div_core_spec mx ex my ey :
  exists q e' l,
    SFdiv_core_binary prec emax (Z.pos mx) ex (Z.pos my) ey = (q, e', l)
    /\ 0 <= q /\ e' <= fexp prec emax (Zdigits2 q + e')
    /\ located q e' l
         ((inject_Z (Z.pos mx) * pw ex) / (inject_Z (Z.pos my) * pw ey))%Q.
Proof.
  unfold SFdiv_core_binary.
  set (d1 := Zdigits2 (Z.pos mx)). set (d2 := Zdigits2 (Z.pos my)).
  set (e' := Z.min (fexp prec emax (d1 + ex - (d2 + ey))) (ex - ey)).
  set (s := ex - ey - e').
  assert (Hs : 0 <= s) by (unfold s, e'; lia).
  set (m' := match s with
             | 0 => Z.pos mx
             | Z.pos _ => Z.shiftl (Z.pos mx) s
             | Z.neg _ => 0
             end).
  assert (Em : m' = Z.pos mx * 2 ^ s).
  { unfold m'. destruct s as [| p | p] eqn:Es; [cbn; lia | | lia].
    rewrite Z.shiftl_mul_pow2 by lia. reflexivity. }
  clearbody m'.
  pose proof (Z.div_mod m' (Z.pos my) ltac:(lia)) as D.
  pose proof (Z.mod_pos_bound m' (Z.pos my) ltac:(lia)) as R.
  unfold Z.div, Z.modulo in D, R.
  destruct (Z.div_eucl m' (Z.pos my)) as [q r] eqn:E.
  exists q, e', (new_location (Z.pos my) r). split; [reflexivity |].
  assert (P2 : 0 < 2 ^ s) by (apply Z.pow_pos_nonneg; lia).
  assert (Hq : 0 <= q) by nia.
  split; [exact Hq |]. split.
  - (* the quotient has the digits the format asks for *)
    assert (Hd : d1 + s - d2 <= Zdigits2 q).
    { destruct (Z_le_gt_dec (d1 + s - d2) 0) as [L | G].
      - destruct q as [| p | p]; cbn [Zdigits2]; lia.
      - destruct (Zdigits2_spec (Z.pos mx) ltac:(lia)) as (P1' & L1 & _).
        destruct (Zdigits2_spec (Z.pos my) ltac:(lia)) as (P2' & _ & U2).
        fold d1 in L1, P1'. fold d2 in U2, P2'.
        assert (K : 2 ^ (d1 + s - d2 - 1) <= q).
        { assert (T : Z.pos my * 2 ^ (d1 + s - d2 - 1) <= m').
          { apply Z.le_trans with (2 ^ d2 * 2 ^ (d1 + s - d2 - 1)).
            - apply Z.mul_le_mono_nonneg_r; [apply Z.pow_nonneg; lia | lia].
            - rewrite <- Z.pow_add_r by lia.
              replace (d2 + (d1 + s - d2 - 1)) with (d1 - 1 + s) by lia.
              rewrite Z.pow_add_r by lia. rewrite Em.
              apply Z.mul_le_mono_nonneg_r; lia. }
          assert (0 < 2 ^ (d1 + s - d2 - 1)) by (apply Z.pow_pos_nonneg; lia).
          nia. }
        assert (0 < 2 ^ (d1 + s - d2 - 1)) by (apply Z.pow_pos_nonneg; lia).
        destruct (Zdigits2_spec q ltac:(lia)) as (_ & _ & Uq).
        destruct (Z_le_gt_dec (d1 + s - d2) (Zdigits2 q)) as [L | G']; [exact L | exfalso].
        assert (2 ^ Zdigits2 q <= 2 ^ (d1 + s - d2 - 1))
          by (apply Z.pow_le_mono_r; lia).
        lia. }
    assert (Ee : e' = Z.min (Z.max (d1 + ex - (d2 + ey) - 53) (-1074)) (ex - ey))
      by reflexivity.
    assert (Es : s = ex - ey - e') by reflexivity.
    rewrite fexp_eq. clearbody s e'. lia.
  - (* where the quotient lies *)
    assert (Pe : (0 < pw ey)%Q) by apply pw_pos.
    assert (Py : (0 < inject_Z (Z.pos my))%Q)
      by (change 0%Q with (inject_Z 0); rewrite <- Zlt_Qlt; lia).
    assert (X : ((inject_Z (Z.pos mx) * pw ex) / (inject_Z (Z.pos my) * pw ey)
                 == (inject_Z q + inject_Z r / inject_Z (Z.pos my)) * pw e')%Q).
    { replace ex with (e' + (s + ey)) by (unfold s; lia).
      rewrite !pw_add, (pw_Z s) by lia.
      assert (T : (inject_Z (Z.pos mx) * inject_Z (2 ^ s)
                   == inject_Z (Z.pos my) * inject_Z q + inject_Z r)%Q).
      { rewrite <- !inject_Z_mult, <- inject_Z_plus, <- D, Em. reflexivity. }
      set (a := inject_Z (Z.pos mx)) in *. set (b := inject_Z (2 ^ s)) in *.
      set (c := inject_Z (Z.pos my)) in *.
      assert (T' : (a * b / c == inject_Z q + inject_Z r / c)%Q).
      { rewrite T. field. lra. }
      rewrite <- T'. field. split; lra. }
    set (X0 := ((inject_Z (Z.pos mx) * pw ex) / (inject_Z (Z.pos my) * pw ey))%Q) in *.
    destruct (new_location_spec (Z.pos my) r) as [N0 N1].
    destruct (Z.eq_dec r 0) as [-> | Hr].
    + rewrite (N0 eq_refl). cbn [located]. rewrite X.
      change (inject_Z 0) with 0%Q. field. lra.
    + destruct (N1 Hr) as [c ->]. cbn [located].
      assert (F0 : (0 < inject_Z r / inject_Z (Z.pos my))%Q).
      { apply Qlt_shift_div_l; [exact Py |]. rewrite Qmult_0_l.
        change 0%Q with (inject_Z 0). rewrite <- Zlt_Qlt. lia. }
      assert (F1 : (inject_Z r / inject_Z (Z.pos my) < 1)%Q).
      { apply Qlt_shift_div_r; [exact Py |]. rewrite Qmult_1_l.
        rewrite <- Zlt_Qlt. lia. }
      pose proof (pw_pos e') as Pp.
      rewrite X, inject_Z_plus. change (inject_Z 1) with 1%Q.
      split; nra.
Qed.

Lemma div_rounds x y :
  valid x = true -> valid y = true -> finite x = true -> finite y = true ->
  ~ (val y == 0)%Q ->
  rounds (val x / val y) (div x y).
Proof.
  intros Vx Vy Fx Fy Hy.
  destruct y as [sy | | | sy my ey]; try discriminate.
  { exfalso. apply Hy. reflexivity. }
  destruct x as [sx | | | sx mx ex]; try discriminate; unfold div; cbn [SFdiv].
  - apply rounds_proper with 0%Q; [| apply rounds_zero].
    cbn [val]. unfold Qdiv. ring.
  - destruct (div_core_spec mx ex my ey) as (q & e' & l & -> & Hq & He & Hl).
    eapply rounds_proper; [| apply (round_aux_rounds _ _ _ _ _ Hq He Hl)].
    rewrite !val_finite.
    assert (Pe : (0 < pw ey)%Q) by apply pw_pos.
    assert (Py : (0 < inject_Z (Z.pos my))%Q)
      by (change 0%Q with (inject_Z 0); rewrite <- Zlt_Qlt; lia).
    destruct sx, sy; cbn [sval xorb]; field; nra.
Qed.

(** *** Comparison *)

Lemma Qcompare_opp p q : (- p ?= - q)%Q = (q ?= p)%Q.
Proof.
  unfold Qcompare. cbn [Qopp Qnum Qden]. rewrite !Z.mul_opp_l.
  apply Z.compare_opp.
Qed.

Lemma Qcompare_lt p q : (p < q)%Q -> (p ?= q)%Q = Lt.
Proof. intros H. apply Qlt_alt. exact H. Qed.

Lemma Qcompare_gt p q : (q < p)%Q -> (p ?= q)%Q = Gt.
Proof. intros H. apply Qgt_alt. exact H. Qed.

Lemma mag_pos m e : (0 < inject_Z (Z.pos m) * pw e)%Q.
Proof.
  apply Qmult_lt_0_compat; [| apply pw_pos].
  change 0%Q with (inject_Z 0). rewrite <- Zlt_Qlt. lia.
Qed.

Lemma mag_lt_exp s1 m1 e1 s2 m2 e2 :
  valid (S754_finite s1 m1 e1) = true -> valid (S754_finite s2 m2 e2) = true ->
  e1 < e2 ->
  (inject_Z (Z.pos m1) * pw e1 < inject_Z (Z.pos m2) * pw e2)%Q.
Proof.
  intros V1 V2 H.
  apply valid_canonical in V1 as [C1 _]. apply valid_canonical in V2 as [C2 _].
  pose proof (digits2_pos_spec m1) as [_ U1].
  pose proof (digits2_pos_spec m2) as [L2 _].
  rewrite (pw_rescale (Z.pos m2) e2 e1) by lia. apply lt_scaled.
  assert (A : 2 ^ Z.pos (digits2_pos m1) <= 2 ^ 53) by (apply Z.pow_le_mono_r; lia).
  replace (Z.pos (digits2_pos m2) - 1) with 52 in L2 by lia.
  assert (B : 2 <= 2 ^ (e2 - e1)) by (apply (Z.pow_le_mono_r 2 1); lia).
  change (2 ^ 53) with (2 ^ 52 * 2) in A. assert (0 < 2 ^ 52) by reflexivity.
  nia.
Qed.

Lemma mag_compare s1 m1 e1 s2 m2 e2 :
  valid (S754_finite s1 m1 e1) = true -> valid (S754_finite s2 m2 e2) = true ->
  match e1 ?= e2 with
  | Lt => Lt
  | Gt => Gt
  | Eq => Pos.compare_cont Eq m1 m2
  end = (inject_Z (Z.pos m1) * pw e1 ?= inject_Z (Z.pos m2) * pw e2)%Q.
Proof.
  intros V1 V2. destruct (Z.compare_spec e1 e2) as [E | L | G].
  - subst e2. change (Pos.compare_cont Eq m1 m2) with (Z.pos m1 ?= Z.pos m2).
    symmetry. destruct (Z.compare_spec (Z.pos m1) (Z.pos m2)) as [E | L | G].
    + rewrite E. apply Qeq_alt. reflexivity.
    + apply Qcompare_lt, lt_scaled. exact L.
    + apply Qcompare_gt, lt_scaled. exact G.
  - symmetry. apply Qcompare_lt. exact (mag_lt_exp _ _ _ _ _ _ V1 V2 L).
  - symmetry. apply Qcompare_gt. exact (mag_lt_exp _ _ _ _ _ _ V2 V1 G).
Qed.

Lemma compare_val x y :
  valid x = true -> valid y = true -> finite x = true -> finite y = true ->
  SFcompare x y = Some (val x ?= val y)%Q.
Proof.
  intros Vx Vy Fx Fy.
  destruct x as [sx | | | sx mx ex]; try discriminate;
    destruct y as [sy | | | sy my ey]; try discriminate; cbn [SFcompare].
  - reflexivity.
  - f_equal. rewrite val_finite. pose proof (mag_pos my ey).
    destruct sy; cbn [sval val]; symmetry;
      [apply Qcompare_gt | apply Qcompare_lt]; lra.
  - f_equal. rewrite val_finite. pose proof (mag_pos mx ex).
    destruct sx; cbn [sval val]; symmetry;
      [apply Qcompare_lt | apply Qcompare_gt]; lra.
  - f_equal. rewrite !val_finite.
    pose proof (mag_pos mx ex). pose proof (mag_pos my ey).
    destruct sx, sy; cbn [sval].
    + rewrite Qcompare_opp, <- (mag_compare _ _ _ _ _ _ Vy Vx).
      rewrite (Z.compare_antisym ex ey).
      destruct (ex ?= ey); cbn [CompOpp]; try reflexivity.
      apply (Pos.compare_cont_antisym mx my Eq).
    + symmetry. apply Qcompare_lt. lra.
    + symmetry. apply Qcompare_gt. lra.
    + apply (mag_compare _ _ _ _ _ _ Vx Vy).
Qed.

Lemma lt_val x y :
  valid x = true -> valid y = true -> finite x = true -> finite y = true ->
  lt x y = true <-> (val x < val y)%Q.
Proof.
  intros Vx Vy Fx Fy. unfold lt, SFltb. rewrite (compare_val x y Vx Vy Fx Fy).
  rewrite Qlt_alt. destruct (val x ?= val y)%Q; split; congruence.
Qed.

Lemma le_val x y :
  valid x = true -> valid y = true -> finite x = true -> finite y = true ->
  le x y = true <-> (val x <= val y)%Q.
Proof.
  intros Vx Vy Fx Fy. unfold le, SFleb. rewrite (compare_val x y Vx Vy Fx Fy).
  rewrite Qle_alt. destruct (val x ?= val y)%Q; split; congruence.
Qed.

(** *** Conversion to [int64] *)

Lemma truncate_spec x : finite x = true ->
  exists z, truncate x = Some z
    /\ ((0 <= val x)%Q -> (inject_Z z <= val x)%Q /\ (val x < inject_Z (z + 1))%Q)
    /\ ((val x <= 0)%Q -> (inject_Z (z - 1) < val x)%Q /\ (val x <= inject_Z z)%Q).
Proof.
  destruct x as [s | | | s m e]; try discriminate; intros _; cbn [truncate].
  - exists 0. split; [reflexivity |]. cbn [val].
    split; intros _; split; try apply Qle_refl; reflexivity.
  - eexists. split; [reflexivity |].
    assert (B : (inject_Z (Z.shiftl (Z.pos m) e) <= inject_Z (Z.pos m) * pw e)%Q
                /\ (inject_Z (Z.pos m) * pw e < inject_Z (Z.shiftl (Z.pos m) e + 1))%Q).
    { destruct (Z_le_gt_dec 0 e) as [P | N].
      - rewrite Z.shiftl_mul_pow2 by exact P.
        assert (T : (inject_Z (Z.pos m * 2 ^ e) == inject_Z (Z.pos m) * pw e)%Q).
        { rewrite inject_Z_mult, (pw_Z e) by exact P. reflexivity. }
        rewrite inject_Z_plus, T. change (inject_Z 1) with 1%Q. split; lra.
      - rewrite Z.shiftl_div_pow2 by lia.
        destruct (located_shift (Z.pos m) e loc_Exact (inject_Z (Z.pos m) * pw e)
                    (- e) ltac:(lia) ltac:(lia)) as (A1 & A2 & _);
          [cbn [located]; reflexivity |].
        replace (e + - e) with 0 in A1, A2 by lia. change (pw 0) with 1%Q in A1, A2.
        rewrite Qmult_1_r in A1, A2. split; [exact A1 | exact A2]. }
    destruct B as [B1 B2]. rewrite val_finite.
    pose proof (mag_pos m e) as Pm.
    destruct s; cbn [sval cond_Zopp].
    + split; [intros C; lra |]. intros _.
      unfold Z.sub. rewrite <- Z.opp_add_distr, !inject_Z_opp. split; lra.
    + split; [| intros C; lra]. intros _. split; [exact B1 | exact B2].
Qed.

Lemma to_int64_range x : - 2 ^ 63 <= to_int64 x < 2 ^ 63.
Proof.
  unfold to_int64. destruct (truncate x) as [z |]; [| lia].
  destruct (Z.leb_spec (- 2 ^ 63) z), (Z.ltb_spec z (2 ^ 63)); cbn [andb]; lia.
Qed.

Lemma to_int64_bounds x a b :
  finite x = true -> - 2 ^ 63 <= a -> b < 2 ^ 63 ->
  (inject_Z a <= val x)%Q -> (val x <= inject_Z b)%Q ->
  a <= to_int64 x <= b.
Proof.
  intros F Ha Hb La Ub. unfold to_int64.
  destruct (truncate_spec x F) as (z & -> & P & N).
  assert (R : a <= z <= b).
  { destruct (Qlt_le_dec (val x) 0) as [Hn | Hp].
    - destruct (N (Qlt_le_weak _ _ Hn)) as [N1 N2]. split.
      + rewrite Zle_Qle. lra.
      + assert (z - 1 < b); [| lia]. rewrite Zlt_Qlt. lra.
    - destruct (P Hp) as [P1 P2]. split.
      + assert (a < z + 1); [| lia]. rewrite Zlt_Qlt. lra.
      + rewrite Zle_Qle. lra. }
  destruct (Z.leb_spec (- 2 ^ 63) z), (Z.ltb_spec z (2 ^ 63)); cbn [andb]; lia.
Qed.

Lemma to_int64_le x b :
  finite x = true -> - 2 ^ 63 <= b -> (val x <= inject_Z b)%Q -> to_int64 x <= b.
Proof.
  intros F Hb Ub. unfold to_int64.
  destruct (truncate_spec x F) as (z & -> & P & N).
  assert (R : z <= b).
  { destruct (Qlt_le_dec (val x) 0) as [Hn | Hp].
    - destruct (N (Qlt_le_weak _ _ Hn)) as [N1 N2].
      assert (z - 1 < b); [| lia]. rewrite Zlt_Qlt. lra.
    - destruct (P Hp) as [P1 P2]. rewrite Zle_Qle. lra. }
  destruct (Z.leb_spec (- 2 ^ 63) z), (Z.ltb_spec z (2 ^ 63)); cbn [andb]; lia.
Qed.

(** *** Reading off a rounding *)

Lemma pw_0 q : (q * pw 0 == q)%Q.
Proof. change (pw 0) with 1%Q. ring. Qed.

Lemma rounds_at_least x r N :
  rounds x r -> Z.abs N < 2 ^ 53 -> (inject_Z N <= x)%Q ->
  at_least (inject_Z N) r.
Proof.
  intros (_ & _ & H) HN Hx. destruct (H N 0 HN ltac:(lia)) as [A _].
  assert (Hx' : (inject_Z N * pw 0 <= x)%Q) by (rewrite pw_0; exact Hx).
  destruct (A Hx') as [I | [F L]]; [left; exact I | right].
  split; [exact F |]. rewrite pw_0 in L. exact L.
Qed.

Lemma rounds_at_most x r N :
  rounds x r -> Z.abs N < 2 ^ 53 -> (x <= inject_Z N)%Q ->
  at_most (inject_Z N) r.
Proof.
  intros (_ & _ & H) HN Hx. destruct (H N 0 HN ltac:(lia)) as [_ A].
  assert (Hx' : (x <= inject_Z N * pw 0)%Q) by (rewrite pw_0; exact Hx).
  destruct (A Hx') as [I | [F L]]; [left; exact I | right].
  split; [exact F |]. rewrite pw_0 in L. exact L.
Qed.

Lemma rounds_valid x r : rounds x r -> valid r = true.
Proof. intros (V & _). exact V. Qed.

Lemma rounds_between x r a b :
  rounds x r -> Z.abs a < 2 ^ 53 -> Z.abs b < 2 ^ 53 ->
  (inject_Z a <= x)%Q -> (x <= inject_Z b)%Q ->
  valid r = true /\ finite r = true
  /\ (inject_Z a <= val r)%Q /\ (val r <= inject_Z b)%Q.
Proof.
  intros H Ha Hb La Ub. split; [exact (rounds_valid _ _ H) |].
  destruct (rounds_at_least x r a H Ha La) as [I | [F L]].
  - destruct (rounds_at_most x r b H Hb Ub) as [I' | [F' _]];
      [congruence | rewrite I in F'; discriminate].
  - destruct (rounds_at_most x r b H Hb Ub) as [I' | [_ U]];
      [rewrite I' in F; discriminate |].
    split; [exact F |]. split; [exact L | exact U].
Qed.

Lemma of_int_exact n : Z.abs n < 2 ^ 53 ->
  valid (of_int n) = true /\ finite (of_int n) = true
  /\ (val (of_int n) == inject_Z n)%Q.
Proof.
  intros H.
  destruct (rounds_between _ _ n n (of_int_rounds n) H H) as (V & F & L & U);
    try apply Qle_refl.
  split; [exact V |]. split; [exact F |]. apply Qle_antisym; assumption.
Qed.

(** *** Every operation answers a well-formed double *)

Lemma of_int_valid n : valid (of_int n) = true.
Proof. exact (rounds_valid _ _ (of_int_rounds n)). Qed.

Lemma add_valid x y :
  valid x = true -> valid y = true -> valid (add x y) = true.
Proof.
  intros Vx Vy.
  destruct x as [sx | sx | | sx mx ex] eqn:Ex;
    destruct y as [sy | sy | | sy my ey] eqn:Ey;
    try (exact (rounds_valid _ _ (add_rounds _ _ Vx Vy eq_refl eq_refl)));
    try reflexivity; try exact Vx; try exact Vy;
    destruct sx, sy; reflexivity.
Qed.

Lemma mul_valid x y :
  valid x = true -> valid y = true -> valid (mul x y) = true.
Proof.
  intros Vx Vy.
  destruct x as [sx | sx | | sx mx ex] eqn:Ex;
    destruct y as [sy | sy | | sy my ey] eqn:Ey;
    try (exact (rounds_valid _ _ (mul_rounds _ _ Vx Vy eq_refl eq_refl)));
    reflexivity.
Qed.

Lemma at_least_weaken q q' r : (q' <= q)%Q -> at_least q r -> at_least q' r.
Proof.
  intros H [I | [F L]]; [left; exact I | right].
  split; [exact F |]. apply Qle_trans with (1 := H). exact L.
Qed.

End Float64Facts.

(** ** eth/peer.go *)

Module PeerSetFacts.
Import PeerSet Samples.

Example Register_fresh :
  Register alice newPeerSet
  = ({| peers := {[ id alice := alice ]}; closed := false |},
     [GoBroadcast (id alice)], None).
Proof. reflexivity. Qed.

Example Register_twice :
  snd (Register alice (Register alice newPeerSet).1.1) = Some errAlreadyRegistered.
Proof. reflexivity. Qed.

Example Unregister_unknown :
  snd (Unregister (id bob) (Register alice newPeerSet).1.1) = Some errNotRegistered.
Proof. reflexivity. Qed.

(** Once closed, always closed: no method resets the flag. *)
Lemma Register_closed p ps : closed (Register p ps).1.1 = closed ps.
Proof.
  unfold Register. destruct (closed ps) eqn:E; [exact E |].
  destruct (peers ps !! id p); simpl; congruence.
Qed.

Lemma Unregister_closed i ps : closed (Unregister i ps).1.1 = closed ps.
Proof. unfold Unregister. destruct (peers ps !! i); reflexivity. Qed.

Lemma Close_closed ps : closed (Close ps).1 = true.
Proof. reflexivity. Qed.

Lemma Close_peers ps : peers (Close ps).1 = peers ps.
Proof. reflexivity. Qed.

(** C9, as stated, fails.  The set holds the peer and has been
    closed: [Register] of that peer, whose id is present, answers "peer
    set is closed" and not "peer is already registered", since the
    closed flag is looked at first. *)
Lemma Register_present_on_closed_set :
  peers closed_with_alice !! id alice = Some alice
  /\ (Register alice closed_with_alice).2 = Some errClosed
  /\ Error errClosed <> Error errAlreadyRegistered.
Proof. split; [reflexivity |]. split; [reflexivity | discriminate]. Qed.

(** C9, amended.  [Register] answers "peer set is closed" on a closed
    set, and a set that [Close] was called on is closed and keeps its
    peers; on a set that is not closed [Register] answers "peer is
    already registered" when the id is present; [Unregister] answers
    "peer is not registered" when the id is absent; in each of these
    cases the set, and with it the map of peers, is returned as it was
    and nothing is done to any peer. *)
Theorem peerSet_errors (ps : peerSet) (p : peer) (i : string) :
  (closed ps = true -> Register p ps = (ps, [], Some errClosed))
  /\ (closed (Close ps).1 = true /\ peers (Close ps).1 = peers ps
      /\ Register p (Close ps).1 = ((Close ps).1, [], Some errClosed))
  /\ (closed ps = false -> is_Some (peers ps !! id p) ->
      Register p ps = (ps, [], Some errAlreadyRegistered))
  /\ (peers ps !! i = None -> Unregister i ps = (ps, [], Some errNotRegistered))
  /\ Error errClosed = "peer set is closed"
  /\ Error errAlreadyRegistered = "peer is already registered"
  /\ Error errNotRegistered = "peer is not registered".
Proof.
  repeat apply conj; try reflexivity.
  - intros Hc. unfold Register. rewrite Hc. reflexivity.
  - intros Hc [q Hq]. unfold Register. rewrite Hc, Hq. reflexivity.
  - intros Hn. unfold Unregister. rewrite Hn. reflexivity.
Qed.

(** The three errors on the sets made of one peer. *)
Lemma peerSet_errors_witness :
  Register alice closed_with_alice = (closed_with_alice, [], Some errClosed)
  /\ Register alice (Register alice newPeerSet).1.1
     = ((Register alice newPeerSet).1.1, [], Some errAlreadyRegistered)
  /\ Unregister (id bob) (Register alice newPeerSet).1.1
     = ((Register alice newPeerSet).1.1, [], Some errNotRegistered).
Proof.
  pose proof (peerSet_errors closed_with_alice alice (id bob)) as (H1 & _).
  pose proof (peerSet_errors (Register alice newPeerSet).1.1 alice (id bob))
    as (_ & _ & H3 & H4 & _).
  split; [apply H1; reflexivity |].
  split; [apply H3; [reflexivity | exists alice; reflexivity] |].
  apply H4. reflexivity.
Defined.

End PeerSetFacts.

(** ** miner/worker.go *)

Module WorkerFacts.
Import Types Consensus Worker.

(** *** The pending-task table *)

Section PendingTasks.

Context {StateDB : Type}.
Implicit Types (m : gmap Hash (@task StateDB)) (t : @task StateDB).

Lemma clearPending_fold_lookup n (acc : gmap Hash (@task StateDB)) m k :
  map_fold (fun h t acc => if stale n t then delete h acc else acc) acc m !! k
  = match m !! k with
    | Some t => if stale n t then None else acc !! k
    | None => acc !! k
    end.
Proof.
  revert k.
  apply (map_fold_weak_ind
           (fun r m => forall k,
                r !! k = match m !! k with
                         | Some t => if stale n t then None else acc !! k
                         | None => acc !! k
                         end)).
  - intros k. rewrite lookup_empty. reflexivity.
  - intros i x m' r Hi IH k.
    destruct (decide (i = k)) as [-> | Hne].
    + rewrite lookup_insert_eq.
      destruct (stale n x); [apply lookup_delete_eq |].
      rewrite IH, Hi. reflexivity.
    + rewrite lookup_insert_ne by exact Hne.
      destruct (stale n x); [rewrite lookup_delete_ne by exact Hne |];
        apply IH.
Qed.

Lemma clearPending_lookup n m k :
  clearPending n m !! k
  = match m !! k with
    | Some t => if stale n t then None else Some t
    | None => None
    end.
Proof.
  unfold clearPending.
  rewrite clearPending_fold_lookup.
  destruct (m !! k) as [t |] eqn:E; [| reflexivity].
  destruct (stale n t); reflexivity.
Qed.

Lemma NumberU64_range (b : Block) : 0 <= NumberU64 b < 2 ^ 64.
Proof. unfold NumberU64, big_Uint64. apply Z.mod_pos_bound. lia. Qed.

(** C3.  On a start signal and on a new head the table becomes
    [clearPending N] of itself, [N] the number of the chain's current
    block or of the new head.  After [clearPending N] a task is in
    the table exactly when it was there and its block number plus 7
    is above [N]: the sum is a [uint64], and for every block number
    of at most [2^64 - 8], which a chain does not outgrow, it is the
    block number plus 7. *)
Theorem clearPending_spec (i : nwl_input) (head : Block) (st : nwl_state)
    (N : Z) m (h : Hash) t :
  (snd <$> newWorkLoop_step i EvStart st m
     = Some (clearPending (in_currentNumber i) m)
   /\ snd <$> newWorkLoop_step i (EvChainHead head) st m
     = Some (clearPending (NumberU64 head) m))
  /\ (clearPending N m !! h = Some t
      <-> m !! h = Some t
          /\ N < u64 (NumberU64 (task_block t) + 7))
  /\ (NumberU64 (task_block t) <= 2 ^ 64 - 8 ->
      m !! h = Some t ->
      (clearPending N m !! h = Some t
       <-> NumberU64 (task_block t) + 7 > N)).
Proof.
  assert (A : clearPending N m !! h = Some t
              <-> m !! h = Some t
                  /\ N < u64 (NumberU64 (task_block t) + 7)).
  { rewrite clearPending_lookup. unfold stale, staleThreshold.
    destruct (m !! h) as [t' |] eqn:E.
    - destruct (Z.leb_spec (u64 (NumberU64 (task_block t') + 7)) N) as [L | L].
      + split; [discriminate |]. intros [[= ->] H]. lia.
      + split; [intros [= ->]; split; [reflexivity | lia] |].
        intros [[= ->] _]. reflexivity.
    - split; [discriminate | intros [[=] _]]. }
  split; [split; reflexivity |]. split; [exact A |].
  intros Hsmall Hin. rewrite A.
  pose proof (NumberU64_range (task_block t)) as R.
  rewrite u64_small by lia. split; [lia |]. intros H. split; [exact Hin | lia].
Qed.

End PendingTasks.


(** *** The interrupt flags *)

Lemma newWorkLoop_init_flags r : flags_wf (newWorkLoop_init r).
Proof.
  split; cbn.
  - intros p. rewrite lookup_empty, map_size_empty. split; [intros [x H]; discriminate | lia].
  - intros p H. discriminate H.
Qed.

(** [commit] stores into the flag of the request in flight, which is
    none until then, and goes on with a new flag: a flag that has been
    stored into is never stored into again. *)
Lemma nwl_commit_flags s b st :
  flags_wf st ->
  flags_wf (nwl_commit s b st)
  /\ forall p v, nw_flags st !! p = Some v -> v <> commitInterruptNone ->
                 nw_flags (nwl_commit s b st) !! p = Some v.
Proof.
  intros [Hdom Hcur]. unfold nwl_commit.
  set (flags := match nw_interrupt st with
                | Some p => <[p := s]> (nw_flags st)
                | None => nw_flags st
                end).
  assert (Hsize : size flags = size (nw_flags st)).
  { subst flags. destruct (nw_interrupt st) as [p0 |]; [| reflexivity].
    apply map_size_insert_Some. rewrite (Hcur p0 eq_refl). eexists. reflexivity. }
  assert (Hd : forall p, is_Some (flags !! p) <-> (p < size flags)%nat).
  { intros p. rewrite Hsize, <- Hdom. subst flags.
    destruct (nw_interrupt st) as [p0 |]; [| reflexivity].
    destruct (decide (p0 = p)) as [<- | Hne].
    - rewrite lookup_insert_eq, (Hcur p0 eq_refl).
      split; intros _; eexists; reflexivity.
    - rewrite lookup_insert_ne by exact Hne. reflexivity. }
  assert (Hfresh : flags !! size flags = None).
  { destruct (flags !! size flags) eqn:E; [| reflexivity].
    assert (H : is_Some (flags !! size flags)) by (rewrite E; eexists; reflexivity).
    apply Hd in H. lia. }
  split; [split |]; cbn.
  - intros p. rewrite map_size_insert_None by exact Hfresh.
    destruct (decide (size flags = p)) as [<- | Hne].
    + rewrite lookup_insert_eq. split; [lia | intros _; eexists; reflexivity].
    + rewrite lookup_insert_ne by exact Hne. rewrite Hd. lia.
  - intros p [= <-]. apply lookup_insert_eq.
  - intros p v Hp Hv.
    assert (Hlt : (p < size flags)%nat).
    { rewrite Hsize. apply Hdom. rewrite Hp. eexists. reflexivity. }
    rewrite lookup_insert_ne by lia. subst flags.
    destruct (nw_interrupt st) as [p0 |]; [| exact Hp].
    rewrite lookup_insert_ne; [exact Hp |].
    intros ->. rewrite (Hcur p eq_refl) in Hp. congruence.
Qed.

(** Through every turn of [newWorkLoop]: once a flag is not none it
    keeps its value, which is why the loads of one check in
    [commitTransactionsWithHeader] agree. *)
Lemma newWorkLoop_step_flags {StateDB : Type} (i : nwl_input) (ev : nwl_event)
    (st st' : nwl_state) (m m' : gmap Hash (@task StateDB)) :
  newWorkLoop_step i ev st m = Some (st', m') ->
  flags_wf st ->
  flags_wf st'
  /\ forall p v, nw_flags st !! p = Some v -> v <> commitInterruptNone ->
                 nw_flags st' !! p = Some v.
Proof.
  intros H Hwf.
  assert (Same : forall st0, nw_flags st0 = nw_flags st ->
                   nw_interrupt st0 = nw_interrupt st ->
                   flags_wf st0
                   /\ forall p v, nw_flags st !! p = Some v ->
                                  v <> commitInterruptNone ->
                                  nw_flags st0 !! p = Some v).
  { intros st0 E1 E2. unfold flags_wf. rewrite E1, E2.
    split; [exact Hwf | intros p v Hp _; exact Hp]. }
  destruct ev; cbn in H.
  - injection H as <- _.
    apply (nwl_commit_flags commitInterruptNewHead None
             (set_timestamp (i64 (in_now i ÷ 1000000)) st)).
    exact Hwf.
  - injection H as <- _. apply Same; reflexivity.
  - destruct (in_isRunning i); cbn in H; [| injection H as <- _; apply Same; reflexivity].
    destruct (in_isIstanbul i); [| injection H as <- _; apply Same; reflexivity].
    destruct (in_ShouldSeal i); injection H as <- _; [| apply Same; reflexivity].
    apply (nwl_commit_flags commitInterruptResubmit None st Hwf).
  - injection H as <- _. apply Same; reflexivity.
  - destruct (inc adjust); injection H as <- _; apply Same; reflexivity.
  - discriminate H.
Qed.

(** *** The recommit interval *)

(** The constants, as doubles and as numbers. *)
Lemma tenth_eq :
  Float64.decimal 1 10 = S754_finite false 7205759403792794 (-56).
Proof. reflexivity. Qed.

Lemma nine_tenths_eq :
  Float64.decimal 9 10 = S754_finite false 8106479329266893 (-53).
Proof. reflexivity. Qed.

Lemma tenth_val :
  (Float64.val intervalAdjustRatio == 7205759403792794 # 72057594037927936)%Q.
Proof. reflexivity. Qed.

Lemma nine_tenths_val :
  (Float64.val one_minus_intervalAdjustRatio
   == 8106479329266893 # 9007199254740992)%Q.
Proof. reflexivity. Qed.

Lemma bias_val : (Float64.val intervalAdjustBias == inject_Z 200000000)%Q.
Proof. reflexivity. Qed.

Lemma max_val :
  (Float64.val (float64 maxRecommitInterval) == inject_Z 15000000000)%Q.
Proof. reflexivity. Qed.

Lemma float64_finite n : Z.abs n <= 2 ^ 64 ->
  Float64.valid (float64 n) = true /\ Float64.finite (float64 n) = true.
Proof.
  intros H. destruct (Float64Facts.of_int_rounds n) as (V & _ & R).
  split; [exact V |].
  assert (P : (Float64.pw 64 == inject_Z (2 ^ 64))%Q)
    by (apply Float64Facts.pw_Z; lia).
  destruct (R 1 64 ltac:(reflexivity) ltac:(lia)) as [_ U].
  destruct (R (-1) 64 ltac:(reflexivity) ltac:(lia)) as [L _].
  assert (U' : (inject_Z n <= inject_Z 1 * Float64.pw 64)%Q).
  { rewrite P, <- inject_Z_mult, <- Zle_Qle. lia. }
  assert (L' : (inject_Z (-1) * Float64.pw 64 <= inject_Z n)%Q).
  { rewrite P, <- inject_Z_mult, <- Zle_Qle. lia. }
  destruct (U U') as [I | [F _]]; [| exact F].
  destruct (L L') as [I' | [F _]]; [| exact F].
  unfold float64 in *. congruence.
Qed.

Lemma float64_ge n R : Z.abs n <= 2 ^ 64 -> Z.abs R < 2 ^ 53 -> R <= n ->
  (inject_Z R <= Float64.val (float64 n))%Q.
Proof.
  intros Hn HR H. destruct (float64_finite n Hn) as [_ F].
  destruct (Float64Facts.rounds_at_least _ _ R (Float64Facts.of_int_rounds n) HR)
    as [I | [_ L]].
  - rewrite <- Zle_Qle. exact H.
  - unfold float64 in F. rewrite I in F. discriminate.
  - exact L.
Qed.

Lemma float64_exact n : Z.abs n < 2 ^ 53 ->
  Float64.valid (float64 n) = true /\ Float64.finite (float64 n) = true
  /\ (Float64.val (float64 n) == inject_Z n)%Q.
Proof. apply Float64Facts.of_int_exact. Qed.

(** Sums and products of doubles that are at least something, the
    positive infinity included. *)
Lemma add_at_least x y qx qy N :
  Float64.valid x = true -> Float64.valid y = true ->
  Float64.at_least qx x -> Float64.at_least qy y ->
  Z.abs N < 2 ^ 53 -> (inject_Z N <= qx + qy)%Q ->
  Float64.valid (Float64.add x y) = true
  /\ Float64.at_least (inject_Z N) (Float64.add x y).
Proof.
  intros Vx Vy [-> | [Fx Lx]] [-> | [Fy Ly]] HN H.
  - split; [reflexivity | left; reflexivity].
  - destruct y; try discriminate; (split; [reflexivity | left; reflexivity]).
  - destruct x; try discriminate; (split; [reflexivity | left; reflexivity]).
  - pose proof (Float64Facts.add_rounds x y Vx Vy Fx Fy) as R.
    split; [exact (Float64Facts.rounds_valid _ _ R) |].
    apply (Float64Facts.rounds_at_least _ _ N R HN). lra.
Qed.

Lemma positive_finite c : Float64.finite c = true -> (0 < Float64.val c)%Q ->
  exists m e, c = S754_finite false m e.
Proof.
  destruct c as [s | | | s m e]; try discriminate; intros _ H.
  destruct s; [| eexists; eexists; reflexivity].
  rewrite Float64Facts.val_finite in H. cbn [Float64.sval] in H.
  pose proof (Float64Facts.mag_pos m e). lra.
Qed.

Lemma mul_at_least c y qy N :
  Float64.valid c = true -> Float64.finite c = true -> (0 < Float64.val c)%Q ->
  Float64.valid y = true -> Float64.at_least qy y -> (0 < qy)%Q ->
  Z.abs N < 2 ^ 53 -> (inject_Z N <= Float64.val c * qy)%Q ->
  Float64.valid (Float64.mul c y) = true
  /\ Float64.at_least (inject_Z N) (Float64.mul c y).
Proof.
  intros Vc Fc Pc Vy [-> | [Fy Ly]] Pq HN H.
  - destruct (positive_finite c Fc Pc) as (m & e & ->).
    split; [reflexivity | left; reflexivity].
  - pose proof (Float64Facts.mul_rounds c y Vc Vy Fc Fy) as R.
    split; [exact (Float64Facts.rounds_valid _ _ R) |].
    apply (Float64Facts.rounds_at_least _ _ N R HN). nra.
Qed.

(** What [sound_ratio] says of the number. *)
Lemma sound_ratio_val r : sound_ratio r ->
  Float64.valid r = true /\ Float64.finite r = true
  /\ (0 < Float64.val r)%Q /\ (Float64.val r <= 1)%Q.
Proof.
  intros (V & L0 & L1).
  assert (F : Float64.finite r = true).
  { destruct r as [s | [] | | s m e]; try reflexivity; discriminate. }
  split; [exact V |]. split; [exact F |].
  destruct (float64_exact 0 ltac:(reflexivity)) as (V0 & F0 & E0).
  destruct (float64_exact 1 ltac:(reflexivity)) as (V1 & F1 & E1).
  apply (Float64Facts.lt_val _ _ V0 V F0 F) in L0.
  apply (Float64Facts.le_val _ _ V V1 F F1) in L1.
  rewrite E0 in L0. rewrite E1 in L1. split; [exact L0 | exact L1].
Qed.

Lemma Zle_inject a b : a <= b -> (inject_Z a <= inject_Z b)%Q.
Proof. intros H. rewrite <- Zle_Qle. exact H. Qed.

(** The next interval of an increase, before it is capped: at least
    [R + 10 ms] when the interval is at least [R]. *)
Lemma increase_next (recommit R : Z) (r : spec_float) :
  sound_ratio r -> 0 <= R <= recommit -> R <= 2 ^ 52 -> recommit <= 2 ^ 63 ->
  Float64.valid
    (ema (float64 recommit)
       (Float64.add (Float64.div (float64 recommit) r) intervalAdjustBias)) = true
  /\ Float64.at_least (inject_Z (R + 10000000))
       (ema (float64 recommit)
          (Float64.add (Float64.div (float64 recommit) r) intervalAdjustBias)).
Proof.
  intros Hr HR HR52 Hrec.
  assert (P52 : 2 ^ 52 = 4503599627370496) by reflexivity.
  assert (P53 : 2 ^ 53 = 9007199254740992) by reflexivity.
  destruct (sound_ratio_val r Hr) as (Vr & Fr & R0 & R1).
  destruct (float64_finite recommit ltac:(lia)) as [Vp Fp].
  pose proof (float64_ge recommit R ltac:(lia) ltac:(lia) ltac:(lia)) as Lp.
  pose proof (Float64Facts.inject_Z_nonneg R ltac:(lia)) as R0'.
  set (p := float64 recommit) in *.
  unfold ema. fold intervalAdjustRatio. fold one_minus_intervalAdjustRatio.
  (* nine tenths of the interval *)
  pose proof (Float64Facts.mul_rounds p one_minus_intervalAdjustRatio Vp
                eq_refl Fp eq_refl) as Ra.
  pose proof (Float64Facts.rounds_valid _ _ Ra) as Va.
  assert (La : Float64.at_least (inject_Z (9 * R / 10))
                 (Float64.mul p one_minus_intervalAdjustRatio)).
  { apply (Float64Facts.rounds_at_least _ _ _ Ra).
    - pose proof (Z.div_pos (9 * R) 10 ltac:(lia) ltac:(lia)).
      assert (9 * R / 10 <= R) by (apply Z.div_le_upper_bound; lia). lia.
    - rewrite nine_tenths_val.
      assert (T : (inject_Z (9 * R / 10) * 10 <= 9 * inject_Z R)%Q).
      { change 10%Q with (inject_Z 10). change 9%Q with (inject_Z 9).
        rewrite <- !inject_Z_mult, <- Zle_Qle.
        pose proof (Z.mul_div_le (9 * R) 10 ltac:(lia)). lia. }
      lra. }
  (* the target *)
  pose proof (Float64Facts.div_rounds p r Vp Vr Fp Fr ltac:(lra)) as Rt.
  pose proof (Float64Facts.rounds_valid _ _ Rt) as Vt.
  assert (Lt : Float64.at_least (inject_Z R) (Float64.div p r)).
  { apply (Float64Facts.rounds_at_least _ _ _ Rt); [lia |].
    apply Qle_shift_div_l; [exact R0 |]. nra. }
  (* the target and the bias *)
  destruct (add_at_least (Float64.div p r) intervalAdjustBias
              (inject_Z R) (inject_Z 200000000) (R + 200000000) Vt eq_refl Lt)
    as [V2 L2].
  { right. split; [reflexivity |]. rewrite bias_val. apply Qle_refl. }
  { lia. }
  { rewrite inject_Z_plus. apply Qle_refl. }
  (* a tenth of them *)
  destruct (mul_at_least intervalAdjustRatio
              (Float64.add (Float64.div p r) intervalAdjustBias)
              (inject_Z (R + 200000000)) ((R + 200000000) / 10)
              eq_refl eq_refl ltac:(reflexivity) V2 L2) as [Vb Lb].
  { rewrite inject_Z_plus. change (inject_Z 200000000) with 200000000%Q. lra. }
  { pose proof (Z.div_pos (R + 200000000) 10 ltac:(lia) ltac:(lia)).
    assert ((R + 200000000) / 10 <= R + 200000000)
      by (apply Z.div_le_upper_bound; lia). lia. }
  { rewrite tenth_val.
    assert (T : (inject_Z ((R + 200000000) / 10) * 10 <= inject_Z (R + 200000000))%Q).
    { change 10%Q with (inject_Z 10).
      rewrite <- !inject_Z_mult, <- Zle_Qle.
      pose proof (Z.mul_div_le (R + 200000000) 10 ltac:(lia)). lia. }
    assert (0 <= inject_Z (R + 200000000))%Q
      by (apply Float64Facts.inject_Z_nonneg; lia).
    lra. }
  (* the sum *)
  apply (add_at_least _ _ _ _ _ Va Vb La Lb).
  - lia.
  - rewrite <- inject_Z_plus, <- Zle_Qle.
    pose proof (Z.div_mod (9 * R) 10 ltac:(lia)).
    pose proof (Z.mod_pos_bound (9 * R) 10 ltac:(lia)).
    pose proof (Z.div_mod (R + 200000000) 10 ltac:(lia)).
    pose proof (Z.mod_pos_bound (R + 200000000) 10 ltac:(lia)).
    lia.
Qed.

(** Capped at the 15 seconds and converted. *)
Lemma capped_le (next : spec_float) :
  Float64.valid next = true ->
  int64_of_float
    (if Float64.lt (float64 maxRecommitInterval) next
     then float64 maxRecommitInterval else next)
  <= maxRecommitInterval.
Proof.
  intros V. destruct (Float64.lt _ _) eqn:C; [reflexivity |].
  destruct (Float64.finite next) eqn:F.
  - apply Float64Facts.to_int64_le;
      [exact F | unfold maxRecommitInterval, Second; lia |].
    change (inject_Z maxRecommitInterval) with (inject_Z 15000000000).
    rewrite <- max_val. apply Qnot_lt_le. intros L.
    apply (Float64Facts.lt_val (float64 maxRecommitInterval) next eq_refl V eq_refl F) in L.
    rewrite C in L. discriminate.
  - destruct next as [s | [] | | s m e]; try discriminate; reflexivity.
Qed.

Lemma capped_ge (next : spec_float) (N : Z) :
  Float64.valid next = true -> Float64.at_least (inject_Z N) next ->
  - 2 ^ 63 <= N ->
  Z.min N maxRecommitInterval
  <= int64_of_float
       (if Float64.lt (float64 maxRecommitInterval) next
        then float64 maxRecommitInterval else next).
Proof.
  intros V L HN. destruct (Float64.lt _ _) eqn:C.
  - change (int64_of_float (float64 maxRecommitInterval)) with maxRecommitInterval.
    lia.
  - destruct L as [-> | [F L]]; [discriminate |].
    assert (U : (Float64.val next <= inject_Z maxRecommitInterval)%Q).
    { change (inject_Z maxRecommitInterval) with (inject_Z 15000000000).
      rewrite <- max_val. apply Qnot_lt_le. intros L'.
      apply (Float64Facts.lt_val (float64 maxRecommitInterval) next eq_refl V eq_refl F) in L'.
      rewrite C in L'. discriminate. }
    pose proof (Float64Facts.to_int64_bounds next N maxRecommitInterval F HN
                  ltac:(reflexivity) L U).
    unfold int64_of_float. lia.
Qed.

Lemma capped_max (next : spec_float) :
  Float64.valid next = true ->
  Float64.at_least (inject_Z (maxRecommitInterval + 1)) next ->
  int64_of_float
    (if Float64.lt (float64 maxRecommitInterval) next
     then float64 maxRecommitInterval else next)
  = maxRecommitInterval.
Proof.
  intros V L.
  assert (C : Float64.lt (float64 maxRecommitInterval) next = true).
  { destruct L as [-> | [F L]]; [reflexivity |].
    apply (Float64Facts.lt_val (float64 maxRecommitInterval) next eq_refl V eq_refl F).
    rewrite max_val.
    apply Qlt_le_trans with (2 := L). rewrite <- Zlt_Qlt. reflexivity. }
  rewrite C. reflexivity.
Qed.

(** The next interval of a decrease, before it is floored. *)
Lemma decrease_next (minRecommit recommit B : Z) :
  0 <= minRecommit <= B -> 0 <= recommit <= B -> B <= 2 ^ 52 ->
  Float64.valid
    (ema (float64 recommit)
       (Float64.sub (float64 minRecommit) intervalAdjustBias)) = true
  /\ Float64.finite
       (ema (float64 recommit)
          (Float64.sub (float64 minRecommit) intervalAdjustBias)) = true
  /\ (inject_Z (- 200000000)
      <= Float64.val
           (ema (float64 recommit)
              (Float64.sub (float64 minRecommit) intervalAdjustBias)))%Q
  /\ (Float64.val
        (ema (float64 recommit)
           (Float64.sub (float64 minRecommit) intervalAdjustBias))
      <= inject_Z B)%Q.
Proof.
  intros Hm Hr HB.
  assert (P52 : 2 ^ 52 = 4503599627370496) by reflexivity.
  assert (P53 : 2 ^ 53 = 9007199254740992) by reflexivity.
  destruct (float64_exact recommit ltac:(lia)) as (Vp & Fp & Ep).
  destruct (float64_exact minRecommit ltac:(lia)) as (Vm & Fm & Em).
  set (p := float64 recommit) in *. set (fm := float64 minRecommit) in *.
  unfold ema. fold intervalAdjustRatio. fold one_minus_intervalAdjustRatio.
  pose proof (Z.div_mod (9 * recommit) 10 ltac:(lia)) as D1.
  pose proof (Z.mod_pos_bound (9 * recommit) 10 ltac:(lia)) as M1.
  pose proof (Z.div_mod (minRecommit - 200000000) 10 ltac:(lia)) as D2.
  pose proof (Z.mod_pos_bound (minRecommit - 200000000) 10 ltac:(lia)) as M2.
  set (na := 9 * recommit / 10) in *.
  set (nb := (minRecommit - 200000000) / 10) in *.
  (* nine tenths of the interval *)
  pose proof (Float64Facts.mul_rounds p one_minus_intervalAdjustRatio Vp
                eq_refl Fp eq_refl) as Ra.
  destruct (Float64Facts.rounds_between _ _ 0 (na + 1) Ra) as (Va & Fa & La & Ua);
    [reflexivity | lia | | |].
  { rewrite Ep, nine_tenths_val.
    pose proof (Float64Facts.inject_Z_nonneg recommit ltac:(lia)).
    change (inject_Z 0) with 0%Q. lra. }
  { rewrite Ep, nine_tenths_val. unfold Qle, Qmult, inject_Z. cbn [Qnum Qden].
    lia. }
  (* the minimum without the bias *)
  pose proof (Float64Facts.sub_rounds fm intervalAdjustBias Vm eq_refl Fm eq_refl)
    as Rt.
  assert (Et : (Float64.val fm - Float64.val intervalAdjustBias
                == inject_Z (minRecommit - 200000000))%Q).
  { rewrite Em, bias_val. unfold Z.sub. rewrite inject_Z_plus, inject_Z_opp.
    reflexivity. }
  destruct (Float64Facts.rounds_between _ _ (minRecommit - 200000000)
              (minRecommit - 200000000) Rt) as (Vt & Ft & Lt & Ut);
    [lia | lia | rewrite Et; apply Qle_refl | rewrite Et; apply Qle_refl |].
  (* a tenth of it *)
  pose proof (Float64Facts.mul_rounds intervalAdjustRatio _ eq_refl Vt eq_refl Ft)
    as Rb.
  set (t := Float64.sub fm intervalAdjustBias) in *.
  assert (Evt : (Float64.val t == inject_Z (minRecommit - 200000000))%Q)
    by (apply Qle_antisym; assumption).
  destruct (Float64Facts.rounds_between _ _ (- 200000000) (nb + 1) Rb)
    as (Vb & Fb & Lb & Ub); [reflexivity | lia | | |].
  { rewrite Evt, tenth_val. unfold Qle, Qmult, inject_Z. cbn [Qnum Qden]. lia. }
  { rewrite Evt, tenth_val. unfold Qle, Qmult, inject_Z. cbn [Qnum Qden]. lia. }
  (* the sum *)
  pose proof (Float64Facts.add_rounds _ _ Va Vb Fa Fb) as Rn.
  destruct (Float64Facts.rounds_between _ _ (- 200000000) (na + 1 + (nb + 1)) Rn)
    as (Vn & Fn & Ln & Un); [reflexivity | lia | | |].
  { change (inject_Z 0) with 0%Q in La. lra. }
  { rewrite inject_Z_plus. lra. }
  split; [exact Vn |]. split; [exact Fn |]. split; [exact Ln |].
  apply Qle_trans with (1 := Un). apply Zle_inject. lia.
Qed.

(** Floored at the minimum and converted. *)
Lemma floored_range (next : spec_float) (minRecommit B : Z) :
  0 <= minRecommit <= B -> B <= 2 ^ 52 ->
  Float64.valid next = true -> Float64.finite next = true ->
  (Float64.val next <= inject_Z B)%Q ->
  minRecommit
  <= int64_of_float
       (if Float64.lt next (float64 minRecommit) then float64 minRecommit else next)
  <= B.
Proof.
  intros Hm HB V F U.
  assert (P52 : 2 ^ 52 = 4503599627370496) by reflexivity.
  assert (P53 : 2 ^ 53 = 9007199254740992) by reflexivity.
  destruct (float64_exact minRecommit ltac:(lia)) as (Vm & Fm & Em).
  unfold int64_of_float. destruct (Float64.lt _ _) eqn:C.
  - apply Float64Facts.to_int64_bounds; [exact Fm | lia | lia | |].
    + rewrite Em. apply Qle_refl.
    + rewrite Em. apply Zle_inject. lia.
  - apply Float64Facts.to_int64_bounds; [exact F | lia | lia | | exact U].
    rewrite <- Em. apply Qnot_lt_le. intros L.
    apply (Float64Facts.lt_val _ _ V Vm F Fm) in L. rewrite C in L. discriminate.
Qed.

(** [recalcRecommit] is the moving average, capped or floored. *)
Lemma recalcRecommit_increase (minRecommit recommit : Z) (r : spec_float) :
  0 <= minRecommit <= recommit -> recommit <= maxRecommitInterval ->
  sound_ratio r ->
  minRecommit
  <= recalcRecommit minRecommit recommit
       (Float64.div (float64 recommit) r) true
  <= maxRecommitInterval.
Proof.
  intros Hm Hmax Hr.
  assert (M52 : maxRecommitInterval <= 2 ^ 52) by (vm_compute; discriminate).
  destruct (increase_next recommit recommit r Hr) as [V L];
    [lia | lia | lia |].
  change (recalcRecommit minRecommit recommit
            (Float64.div (float64 recommit) r) true)
    with (int64_of_float
            (if Float64.lt (float64 maxRecommitInterval)
                  (ema (float64 recommit)
                     (Float64.add (Float64.div (float64 recommit) r)
                        intervalAdjustBias))
             then float64 maxRecommitInterval
             else ema (float64 recommit)
                    (Float64.add (Float64.div (float64 recommit) r)
                       intervalAdjustBias))).
  split.
  - pose proof (capped_ge _ (recommit + 10000000) V L ltac:(lia)). lia.
  - apply capped_le. exact V.
Qed.

Lemma recalcRecommit_decrease (minRecommit recommit : Z) :
  0 <= minRecommit <= recommit -> recommit <= maxRecommitInterval ->
  minRecommit
  <= recalcRecommit minRecommit recommit (float64 minRecommit) false
  <= maxRecommitInterval.
Proof.
  intros Hm Hmax.
  assert (M52 : maxRecommitInterval <= 2 ^ 52) by (vm_compute; discriminate).
  destruct (decrease_next minRecommit recommit recommit) as (V & F & _ & U);
    [lia | lia | lia |].
  change (recalcRecommit minRecommit recommit (float64 minRecommit) false)
    with (int64_of_float
            (if Float64.lt
                  (ema (float64 recommit)
                     (Float64.sub (float64 minRecommit) intervalAdjustBias))
                  (float64 minRecommit)
             then float64 minRecommit
             else ema (float64 recommit)
                    (Float64.sub (float64 minRecommit) intervalAdjustBias))).
  pose proof (floored_range _ minRecommit recommit ltac:(lia) ltac:(lia) V F U).
  lia.
Qed.


(** The minimum is never below [minRecommitInterval]: [newWorker] and
    the handler of [resubmitIntervalCh] see to it, and the feedback
    leaves the minimum alone. *)
Lemma sanitize_ge r : minRecommitInterval <= sanitize r.
Proof. unfold sanitize. destruct (Z.ltb_spec r minRecommitInterval); lia. Qed.

Lemma newWorkLoop_step_minRecommit {StateDB : Type} (i : nwl_input)
    (ev : nwl_event) (st st' : nwl_state) (m m' : gmap Hash (@task StateDB)) :
  newWorkLoop_step i ev st m = Some (st', m') ->
  minRecommitInterval <= nw_minRecommit st ->
  minRecommitInterval <= nw_minRecommit st'.
Proof.
  intros H Hmin. destruct ev; cbn in H.
  - injection H as <- _. exact Hmin.
  - injection H as <- _. exact Hmin.
  - destruct (in_isRunning i), (in_isIstanbul i), (in_ShouldSeal i);
      injection H as <- _; exact Hmin.
  - injection H as <- _. cbn.
    destruct (Z.ltb_spec interval minRecommitInterval); lia.
  - destruct (inc adjust); injection H as <- _; exact Hmin.
  - discriminate H.
Qed.

(** C7.  A feedback adjustment leaves the minimum alone and sets the
    interval to the moving average, in [float64]: nine tenths of the
    previous interval and a tenth of the target with the bias, capped
    at the 15 seconds for an increase and floored at the minimum for a
    decrease, then cut down to an integer.  The target of an increase
    is the previous interval divided by the ratio, that of a decrease
    the minimum.  When the interval was between the minimum and the 15
    seconds it still is, roundings included; the ratio of an increase
    is one the execution loop sends, a double above 0 and at most 1. *)
Theorem recommit_adjust_in_range {StateDB : Type} (i : nwl_input)
    (st : nwl_state) (m : gmap Hash (@task StateDB)) (adj : intervalAdjust) :
  0 <= nw_minRecommit st ->
  nw_minRecommit st <= nw_recommit st <= maxRecommitInterval ->
  (inc adj = true -> sound_ratio (ratio adj)) ->
  exists st',
    newWorkLoop_step i (EvAdjust adj) st m = Some (st', m)
    /\ nw_minRecommit st' = nw_minRecommit st
    /\ nw_recommit st'
       = int64_of_float
           (if inc adj then
              let next :=
                ema (float64 (nw_recommit st))
                    (Float64.add
                       (Float64.div (float64 (nw_recommit st)) (ratio adj))
                       intervalAdjustBias) in
              if Float64.lt (float64 maxRecommitInterval) next
              then float64 maxRecommitInterval else next
            else
              let next :=
                ema (float64 (nw_recommit st))
                    (Float64.sub (float64 (nw_minRecommit st))
                       intervalAdjustBias) in
              if Float64.lt next (float64 (nw_minRecommit st))
              then float64 (nw_minRecommit st) else next)
    /\ nw_minRecommit st' <= nw_recommit st' <= maxRecommitInterval.
Proof.
  intros Hmin Hrange Hratio. cbn [newWorkLoop_step].
  assert (M52 : maxRecommitInterval <= 2 ^ 52) by (vm_compute; discriminate).
  destruct (inc adj) eqn:Einc.
  - eexists. split; [reflexivity |]. cbn [nw_minRecommit nw_recommit set_recommit].
    split; [reflexivity |]. split; [reflexivity |].
    apply recalcRecommit_increase; [lia | lia | exact (Hratio eq_refl)].
  - eexists. split; [reflexivity |]. cbn [nw_minRecommit nw_recommit set_recommit].
    split; [reflexivity |]. split; [reflexivity |].
    apply recalcRecommit_decrease; lia.
Qed.

(** *** taskLoop *)

Section TaskLoopFacts.

Context {StateDB : Type}.
Variable engine : Engine.
Variable skipSealHook : option (@task StateDB -> bool).
Variable IsProduceEmptyBlock : bool.

Local Abbreviation step := (taskLoop_step engine skipSealHook IsProduceEmptyBlock).

(** After a turn the loop remembers the seal hash of the task it
    just received, whether it skipped the task or not. *)
Lemma taskLoop_step_prev t st m :
  tl_prev (step t st m).1.1 = sealHashOf engine t.
Proof.
  unfold taskLoop_step.
  destruct (N.eqb_spec (sealHashOf engine t) (tl_prev st)) as [E | E].
  - cbn. symmetry. exact E.
  - destruct (match skipSealHook with Some hook => hook t | None => false end);
      reflexivity.
Qed.

Lemma taskLoop_step_duplicate t st m :
  sealHashOf engine t = tl_prev st ->
  step t st m = (st, m, SkippedDuplicate).
Proof.
  intros E. unfold taskLoop_step.
  rewrite (proj2 (N.eqb_eq _ _) E). reflexivity.
Qed.

(** C6.  A task whose seal hash is that of the task received just
    before it is skipped: the loop's variables, the table and the
    list of blocks handed to [Seal] are what they were.  A task that
    is neither such a duplicate nor skipped by the test hook is
    processed: it is handed to [Seal], and the table gets it under
    its seal hash when its block has a transaction or empty blocks
    are produced, and is left alone otherwise. *)
Theorem taskLoop_skip_and_register (before t : @task StateDB)
    (st0 st : tl_state) (m0 m : gmap Hash (@task StateDB)) :
  (* the task before [t] left the loop in [st], the table as [m] *)
  (step before st0 m0).1 = (st, m) ->
  (sealHashOf engine t = sealHashOf engine before ->
   step t st m = (st, m, SkippedDuplicate))
  /\ ((step t st m).2 = Processed
      <-> sealHashOf engine t <> sealHashOf engine before
          /\ (forall hook, skipSealHook = Some hook -> hook t = false))
  /\ ((step t st m).2 = Processed ->
      tl_sealed (step t st m).1.1
      = tl_sealed st ++ [(task_block t, tl_made st)]
      /\ (Block_Transactions (task_block t) <> [] \/ IsProduceEmptyBlock = true ->
          (step t st m).1.2 = <[sealHashOf engine t := t]> m)
      /\ (Block_Transactions (task_block t) = [] /\ IsProduceEmptyBlock = false ->
          (step t st m).1.2 = m)).
Proof.
  intros Hbefore.
  assert (Hprev : tl_prev st = sealHashOf engine before).
  { rewrite <- (taskLoop_step_prev before st0 m0), Hbefore. reflexivity. }
  split; [| split].
  - intros E. apply taskLoop_step_duplicate. congruence.
  - unfold taskLoop_step. rewrite Hprev.
    destruct (N.eqb_spec (sealHashOf engine t) (sealHashOf engine before)) as [E | E].
    + cbn. split; [discriminate | intros [C _]; contradiction].
    + destruct skipSealHook as [hook |].
      * destruct (hook t) eqn:Ek; cbn.
        -- split; [discriminate |]. intros [_ C].
           specialize (C hook eq_refl). congruence.
        -- split; [| reflexivity]. intros _. split; [exact E |].
           intros hook' [= <-]. exact Ek.
      * cbn. split; [| reflexivity]. intros _. split; [exact E |]. discriminate.
  - unfold taskLoop_step.
    destruct (N.eqb (sealHashOf engine t) (tl_prev st)); [discriminate |].
    destruct (match skipSealHook with Some hook => hook t | None => false end);
      [discriminate |].
    intros _. cbn [fst snd tl_sealed]. split; [reflexivity |].
    unfold VM.len.
    destruct (Block_Transactions (task_block t)) as [| x l]; cbn.
    + split.
      * intros [C | ->]; [contradiction | reflexivity].
      * intros [_ ->]. reflexivity.
    + split; [reflexivity |]. intros [C _]. discriminate C.
Qed.

End TaskLoopFacts.

(** *** resultLoop *)

Section ResultLoopFacts.

Context {StateDB Chain : Type}.
Variable HasBlock : Chain -> Hash -> Z -> bool.
Variable WriteBlockWithState :
  Chain -> Block -> list Receipt -> StateDB -> (Chain * WriteStatus) + string.
Variable engine : Engine.

Local Abbreviation step := (resultLoop_step HasBlock WriteBlockWithState engine).


(** Only the block hash of a log changes, and no log is lost. *)
Lemma patch_receipts_same (h : Hash) (rs : list Receipt) :
  length (patch_receipts h rs) = length rs
  /\ forall i r, rs !! i = Some r ->
       exists r', patch_receipts h rs !! i = Some r'
         /\ Receipt_TxHash r' = Receipt_TxHash r
         /\ Receipt_GasUsed r' = Receipt_GasUsed r
         /\ Logs r' = set_BlockHash h <$> Logs r.
Proof.
  unfold patch_receipts. split; [apply length_fmap |].
  intros i r Hi. exists (patch_receipt h r).
  rewrite list_lookup_fmap, Hi. repeat split.
Qed.


End ResultLoopFacts.


(** *** commitNewWork *)

Section NewWorkFacts.

Variable CalcGasLimit : Block -> Z -> Z -> Z.

(** The backend of the Istanbul engine. *)
Variable GetHeader : Hash -> Z -> option Header.
Variable GenerateNonce : N -> N + error.
Variable snapshot_validators : Z -> Hash -> list Address + error.
Variable prepareExtra : Header -> list Address -> list byte + error.
Variable IstanbulDigest : Hash.
Variable BlockPeriod : Z.
Variable clock : Z.
Variable sealHash : Header -> Hash.

Local Abbreviation istanbul :=
  (Istanbul.engine GetHeader GenerateNonce snapshot_validators prepareExtra
     IstanbulDigest BlockPeriod clock sealHash).

(** What the engine's [Prepare] does to the fields the worker set. *)
Lemma Istanbul_Prepare_fields (header h : Header) :
  Prepare istanbul header = inl h ->
  exists parent,
    GetHeader (ParentHash header) (u64 (big_Uint64 (Number header) - 1))
    = Some parent
    /\ ParentHash h = ParentHash header
    /\ Number h = Number header
    /\ GasLimit h = GasLimit header
    /\ Time h = Istanbul.prepare_time BlockPeriod clock (Time parent).
Proof.
  cbn [Prepare Istanbul.engine]. unfold Istanbul.Prepare.
  cbn [ParentHash Number Istanbul.set_consensus_fields].
  destruct (GetHeader _ _) as [parent |]; [| discriminate].
  destruct (GenerateNonce _) as [nonce | e]; [| discriminate].
  cbn [ParentHash Istanbul.set_Nonce Istanbul.set_consensus_fields].
  destruct (snapshot_validators _ _) as [vals | e]; [| discriminate].
  destruct (prepareExtra _ _) as [extra | e]; [| discriminate].
  intros [= <-]. exists parent. repeat split.
Qed.

Lemma prepare_time_ge (parentTime : Z) :
  - 2 ^ 63 < parentTime + u64 BlockPeriod < 2 ^ 63 ->
  parentTime + u64 BlockPeriod
  <= Istanbul.prepare_time BlockPeriod clock parentTime
  /\ Istanbul.prepare_time BlockPeriod clock parentTime
     = Z.max (parentTime + u64 BlockPeriod) clock.
Proof.
  intros H. unfold Istanbul.prepare_time. cbv zeta.
  rewrite big_Int64_small by exact H.
  destruct (Z.ltb_spec (parentTime + u64 BlockPeriod) clock); lia.
Qed.

(** C8, amended.  The header [commitNewWork] builds has the hash of
    the parent, the parent's number plus one and the gas limit of
    [CalcGasLimit].  With an engine that is not Istanbul, and a
    parent timestamp that is an [int64] below the largest, its
    timestamp is the requested one when that is after the parent's
    and the parent's plus one otherwise, hence after the parent's,
    and the worker sleeps exactly when it is more than a second ahead
    of the clock.  With the Istanbul engine the requested timestamp
    is taken as it is and nothing is slept; the engine's [Prepare]
    keeps hash, number and gas limit and sets the timestamp from the
    header [p] the chain returns for the parent hash and number, the
    parent's own header when the chain returns that: when the
    timestamp of [p] plus the block period is an [int64], the later
    of the clock and that sum, which is not before the timestamp of
    [p], and after it when the period is not zero. *)
Theorem candidate_header (w : work_config) (parent : Block) (timestamp now : Z) :
  let c := commitNewWork_header CalcGasLimit w parent timestamp now in
  (ParentHash (cand_built c) = Block_Hash parent
   /\ Number (cand_built c) = Block_Number parent + 1
   /\ GasLimit (cand_built c) = CalcGasLimit parent (w_gasFloor w) (w_gasCeil w))
  /\ (isIstanbul (w_engine w) = false ->
      - 2 ^ 63 < Block_Time parent < 2 ^ 63 - 1 ->
      Time (cand_built c)
      = (if Block_Time parent >=? timestamp then Block_Time parent + 1 else timestamp)
      /\ Time (cand_built c) > Block_Time parent
      /\ (cand_wait c <> None <-> i64 (now + 1) < Time (cand_built c)))
  /\ (isIstanbul (w_engine w) = true ->
      Time (cand_built c) = timestamp /\ cand_wait c = None)
  /\ (w_engine w = istanbul ->
      forall h, cand_prepared c = inl h ->
      exists p,
        GetHeader (Block_Hash parent) (u64 (big_Uint64 (Block_Number parent + 1) - 1))
        = Some p
        /\ ParentHash h = Block_Hash parent
        /\ Number h = Block_Number parent + 1
        /\ GasLimit h = CalcGasLimit parent (w_gasFloor w) (w_gasCeil w)
        /\ Time h = Istanbul.prepare_time BlockPeriod clock (Time p)
        /\ (- 2 ^ 63 < Time p + u64 BlockPeriod < 2 ^ 63 ->
            Time h = Z.max (Time p + u64 BlockPeriod) clock
            /\ Time p <= Time h
            /\ (0 < u64 BlockPeriod -> Time p < Time h))
        /\ (GetHeader (Block_Hash parent)
              (u64 (big_Uint64 (Block_Number parent + 1) - 1))
            = Some (Block_Header parent) ->
            p = Block_Header parent /\ Time p = Block_Time parent)).
Proof.
  intros c. subst c. unfold commitNewWork_header.
  split; [| split; [| split]].
  - destruct (adjust_timestamp _ _ _ _) as [ts wait]. cbn. repeat split.
  - intros Hi Hp. unfold adjust_timestamp. rewrite Hi.
    cbn [cand_built cand_wait build_header Time].
    rewrite big_Int64_small by lia. rewrite i64_small by lia.
    rewrite Z.geb_leb.
    destruct (Z.leb_spec timestamp (Block_Time parent)) as [L | L].
    + split; [reflexivity |]. split; [lia |].
      destruct (Z.ltb_spec (i64 (now + 1)) (Block_Time parent + 1)).
      * split; [intros _; lia | intros _; discriminate].
      * split; [intros C; contradiction | lia].
    + split; [reflexivity |]. split; [lia |].
      destruct (Z.ltb_spec (i64 (now + 1)) timestamp).
      * split; [intros _; lia | intros _; discriminate].
      * split; [intros C; contradiction | lia].
  - intros Hi. unfold adjust_timestamp. rewrite Hi. cbn. split; reflexivity.
  - intros He h. rewrite He. cbn [isIstanbul Istanbul.engine].
    cbn [adjust_timestamp cand_prepared].
    destruct (Prepare istanbul (build_header CalcGasLimit w parent timestamp))
      as [h' | e] eqn:E; [| discriminate].
    intros [= <-].
    apply Istanbul_Prepare_fields in E as (p & Hg & H1 & H2 & H3 & H4).
    exists p. cbn in Hg, H1, H2, H3.
    split; [exact Hg |]. cbn [ParentHash Number GasLimit Time set_Coinbase].
    split; [exact H1 |]. split; [exact H2 |]. split; [exact H3 |].
    split; [exact H4 |]. split.
    + intros Hr. destruct (prepare_time_ge (Time p) Hr) as [G1 G2].
      pose proof (u64_range BlockPeriod).
      rewrite H4. split; [exact G2 |]. split; lia.
    + intros Hc. rewrite Hc in Hg. injection Hg as <-. split; reflexivity.
Qed.

End NewWorkFacts.


(** *** The transaction set *)

Lemma push_head_perm t h : push_head t h ≡ₚ t :: h.
Proof.
  induction h as [| x h IH]; cbn; [reflexivity |].
  destruct (tx_gasPrice x <? tx_gasPrice t); [reflexivity |].
  rewrite IH. apply Permutation_swap.
Qed.

Lemma wf_Pop q : wf_txset q -> wf_txset (Pop q).
Proof.
  intros [Hn Hq]. split; [| exact Hq].
  cbn. destruct (tp_heads q) as [| h rest]; [constructor |].
  cbn in *. apply NoDup_cons in Hn as [_ Hn]. exact Hn.
Qed.

Lemma wf_Shift q : wf_txset q -> wf_txset (Shift q).
Proof.
  intros [Hn Hq]. unfold Shift.
  destruct (tp_heads q) as [| h rest] eqn:Eh; [split; [rewrite Eh |]; assumption |].
  cbn in Hn. apply NoDup_cons in Hn as [Hh Hn].
  destruct (tp_txs q !! tx_from h) as [[| next txs] |] eqn:Et;
    try (split; [exact Hn | exact Hq]).
  split; cbn.
  - rewrite (push_head_perm next rest). cbn.
    rewrite (Hq _ _ next Et) by (apply list_elem_of_here).
    apply NoDup_cons. split; assumption.
  - intros a l t Hl Ht.
    destruct (decide (tx_from h = a)) as [<- | Hne].
    + rewrite lookup_insert_eq in Hl. injection Hl as <-.
      apply (Hq _ _ t Et). apply list_elem_of_further. exact Ht.
    + rewrite lookup_insert_ne in Hl by exact Hne. apply (Hq _ _ t Hl Ht).
Qed.

(** The senders of the heads only get fewer. *)
Lemma Pop_senders q a :
  a ∈ tx_from <$> tp_heads (Pop q) -> a ∈ tx_from <$> tp_heads q.
Proof.
  cbn. destruct (tp_heads q) as [| h rest]; cbn; [intros H; exact H |].
  apply list_elem_of_further.
Qed.

Lemma Shift_senders q a :
  wf_txset q ->
  a ∈ tx_from <$> tp_heads (Shift q) -> a ∈ tx_from <$> tp_heads q.
Proof.
  intros [_ Hq]. unfold Shift.
  destruct (tp_heads q) as [| h rest] eqn:Eh; [rewrite Eh; intros H; exact H |].
  destruct (tp_txs q !! tx_from h) as [[| next txs] |] eqn:Et; cbn;
    try apply list_elem_of_further.
  rewrite (push_head_perm next rest). cbn.
  rewrite (Hq _ _ next Et) by (apply list_elem_of_here). intros H; exact H.
Qed.

(** After [Pop] the account of the head that was removed has no
    head. *)
Lemma Pop_silences q h :
  wf_txset q -> Peek q = Some h ->
  tx_from h ∉ tx_from <$> tp_heads (Pop q).
Proof.
  intros [Hn _]. unfold Peek, Pop. cbn.
  destruct (tp_heads q) as [| h' rest]; [discriminate |].
  cbn. intros [= ->]. cbn in Hn. apply NoDup_cons in Hn as [Hh _]. exact Hh.
Qed.

(** The other heads stay heads. *)
Lemma Pop_heads q h t :
  Peek q = Some h -> t ∈ tp_heads q -> t = h \/ t ∈ tp_heads (Pop q).
Proof.
  unfold Peek, Pop. cbn. destruct (tp_heads q) as [| h' rest]; [discriminate |].
  cbn. intros [= ->] Ht. apply elem_of_cons in Ht. exact Ht.
Qed.

Lemma Shift_heads q h t :
  Peek q = Some h -> t ∈ tp_heads q -> t = h \/ t ∈ tp_heads (Shift q).
Proof.
  unfold Peek, Shift. destruct (tp_heads q) as [| h' rest]; [discriminate |].
  cbn. intros [= ->] Ht. apply elem_of_cons in Ht as [-> | Ht]; [left; reflexivity |].
  right. destruct (tp_txs q !! tx_from h) as [[| next txs] |]; cbn; try exact Ht.
  rewrite (push_head_perm next rest). apply list_elem_of_further. exact Ht.
Qed.

(** [Shift] brings in the next transaction of the account. *)
Lemma Shift_next q h next txs :
  Peek q = Some h -> tp_txs q !! tx_from h = Some (next :: txs) ->
  next ∈ tp_heads (Shift q) /\ queued (tx_from h) (Shift q) = txs.
Proof.
  unfold Peek, Shift, queued. destruct (tp_heads q) as [| h' rest]; [discriminate |].
  cbn. intros [= ->] ->. cbn. split.
  - rewrite (push_head_perm next rest). apply list_elem_of_here.
  - rewrite lookup_insert_eq. reflexivity.
Qed.

(** [Pop] leaves the queue of the account where it is, without a head
    to bring it in. *)
Lemma Pop_queue q a : queued a (Pop q) = queued a q.
Proof. reflexivity. Qed.


Lemma new_heads_senders (l : list (Address * list Transaction)) :
  NoDup l.*1 ->
  (forall a txs t, (a, txs) ∈ l -> t ∈ txs -> tx_from t = a) ->
  NoDup (tx_from <$>
           foldr (fun kv h => match snd kv with t :: _ => push_head t h | [] => h end)
                 [] l)
  /\ forall a,
       a ∈ tx_from <$>
             foldr (fun kv h => match snd kv with t :: _ => push_head t h | [] => h end)
                   [] l ->
       a ∈ l.*1.
Proof.
  induction l as [| [a txs] l IH]; intros Hn Hg.
  - cbn. split; [constructor | intros a H; exact H].
  - cbn in Hn. apply NoDup_cons in Hn as [Ha Hn].
    destruct IH as [IH1 IH2]; [exact Hn | |].
    { intros a' txs' t Hin. apply Hg. apply list_elem_of_further. exact Hin. }
    cbn [foldr snd]. destruct txs as [| t txs].
    + split; [exact IH1 |]. intros a' H. cbn. apply list_elem_of_further.
      apply IH2. exact H.
    + assert (Et : tx_from t = a).
      { apply (Hg a (t :: txs) t); apply list_elem_of_here. }
      split.
      * rewrite (push_head_perm t _). cbn [fmap list_fmap]. rewrite Et.
        apply NoDup_cons. split; [| exact IH1]. intros C. apply Ha, IH2, C.
      * intros a' H. rewrite (push_head_perm t _) in H.
        cbn [fmap list_fmap] in H. rewrite Et in H. cbn.
        apply elem_of_cons in H as [-> | H];
          [apply list_elem_of_here | apply list_elem_of_further, IH2, H].
Qed.

(** The set made of pending transactions that are grouped by sender
    is well formed. *)
Lemma wf_New (pending : gmap Address (list Transaction)) :
  grouped_by_sender pending ->
  wf_txset (NewTransactionsByPriceAndNonce pending).
Proof.
  intros Hg. split.
  - cbn. apply new_heads_senders.
    + apply NoDup_fst_map_to_list.
    + intros a txs t Hin. apply elem_of_map_to_list in Hin. apply (Hg a txs t Hin).
  - cbn. intros a l t Hl Ht. rewrite lookup_fmap in Hl.
    destruct (pending !! a) as [l0 |] eqn:E; [| discriminate].
    cbn in Hl. injection Hl as <-. apply (Hg a l0 t E).
    destruct l0 as [| x l0]; [exact Ht | apply list_elem_of_further, Ht].
Qed.

(** The loop ends: [Pop] and [Shift] take a transaction out. *)
Lemma queue_size_insert (m : gmap Address (list Transaction)) a next txs :
  m !! a = Some (next :: txs) ->
  S (map_fold (fun _ l n => (length l + n)%nat) 0%nat (<[a := txs]> m))
  = map_fold (fun _ l n => (length l + n)%nat) 0%nat m.
Proof.
  intros H.
  rewrite <- (insert_delete_id m a (next :: txs) H) at 2.
  rewrite <- (insert_delete_eq m a txs).
  rewrite !map_fold_insert_L;
    try apply lookup_delete_eq; try (intros; cbn beta; lia).
  cbn. reflexivity.
Qed.

Lemma remaining_Pop q h : Peek q = Some h -> (remaining (Pop q) < remaining q)%nat.
Proof.
  unfold Peek, Pop, remaining. cbn.
  destruct (tp_heads q); [discriminate |]. cbn. lia.
Qed.

Lemma remaining_Shift q h : Peek q = Some h -> (remaining (Shift q) < remaining q)%nat.
Proof.
  unfold Peek, Shift, remaining.
  destruct (tp_heads q) as [| h' rest]; [discriminate |]. intros [= ->].
  destruct (tp_txs q !! tx_from h) as [[| next txs] |] eqn:Et; cbn; try lia.
  rewrite <- (queue_size_insert _ _ _ _ Et).
  rewrite (Permutation_length (push_head_perm next rest)). cbn. lia.
Qed.

(** *** commitTransactionsWithHeader *)

Lemma attempted_app l1 l2 : attempted (l1 ++ l2) = attempted l1 ++ attempted l2.
Proof. unfold attempted. rewrite filter_app, fmap_app. reflexivity. Qed.

Section CycleFacts.

Context {StateDB : Type}.
Variable StateDB_Prepare : Hash -> Hash -> Z -> StateDB -> StateDB.
Variable Snapshot : StateDB -> Z.
Variable RevertToSnapshot : Z -> StateDB -> StateDB.
Variable ApplyTransaction :
  Address -> Z -> StateDB -> Header -> Transaction -> @applied StateDB.
Variable TxGas : Z.
Variable coinbase : Address.

Local Abbreviation lp :=
  (loop StateDB_Prepare Snapshot RevertToSnapshot ApplyTransaction TxGas coinbase).
Local Abbreviation exec :=
  (execute StateDB_Prepare Snapshot RevertToSnapshot ApplyTransaction coinbase).
Local Abbreviation result :=
  (outcome StateDB_Prepare Snapshot RevertToSnapshot ApplyTransaction coinbase).
Local Abbreviation tn :=
  (turn StateDB_Prepare Snapshot RevertToSnapshot ApplyTransaction TxGas coinbase).
Local Abbreviation tns :=
  (turns StateDB_Prepare Snapshot RevertToSnapshot ApplyTransaction TxGas coinbase).

Lemma check_interrupt_keeps interrupt (s s' : @loop_state StateDB) r :
  check_interrupt interrupt s = (s', r) ->
  ls_env s' = ls_env s /\ ls_txs s' = ls_txs s
  /\ ls_extdb s' = ls_extdb s /\ ls_logs s' = ls_logs s.
Proof.
  unfold check_interrupt. destruct interrupt as [flag |].
  - destruct (flag (ls_loads s) =? commitInterruptNone).
    + intros [= <- _]. repeat split.
    + destruct (flag (S (ls_loads s)) =? commitInterruptResubmit);
        intros [= <- _]; repeat split.
  - intros [= <- _]. repeat split.
Qed.

(** What the [switch] does to the transaction set. *)
Lemma execute_txs tx (s : @loop_state StateDB) :
  ls_txs (exec tx s)
  = match result tx s with
    | inr ErrGasLimitReached | inr ErrNonceTooHigh => Pop (ls_txs s)
    | _ => Shift (ls_txs s)
    end.
Proof.
  unfold execute, outcome.
  change (run_tx StateDB_Prepare Snapshot RevertToSnapshot ApplyTransaction
            coinbase tx (MonitorWriteData TransactionExecuteStartTime tx "" s))
    with (run_tx StateDB_Prepare Snapshot RevertToSnapshot ApplyTransaction
            coinbase tx s).
  destruct (run_tx _ _ _ _ _ _ _) as [env [logs | [| | | msg]]]; reflexivity.
Qed.

(** What it writes to the monitor: the start, the end and the status
    of the one transaction. *)
Lemma execute_extdb tx (s : @loop_state StateDB) :
  exists v,
    ls_extdb (exec tx s)
    = ls_extdb s ++ [Monitor TransactionExecuteStartTime tx "";
                     Monitor TransactionExecuteEndTime tx "";
                     Monitor TransactionExecuteStatus tx v].
Proof.
  unfold execute.
  destruct (run_tx _ _ _ _ _ _ _) as [env [logs | [| | | msg]]]; cbn;
    eexists; rewrite <- !app_assoc; reflexivity.
Qed.

Lemma execute_attempted tx (s : @loop_state StateDB) :
  exists new,
    ls_extdb (exec tx s) = ls_extdb s ++ new /\ attempted new = [tx].
Proof.
  destruct (execute_extdb tx s) as [v E]. eexists. split; [exact E |].
  reflexivity.
Qed.

Lemma execute_wf tx (s : @loop_state StateDB) :
  wf_txset (ls_txs s) -> wf_txset (ls_txs (exec tx s)).
Proof.
  intros H. rewrite execute_txs.
  destruct (result tx s) as [logs | [| | | msg]];
    auto using wf_Pop, wf_Shift.
Qed.

Lemma execute_senders tx (s : @loop_state StateDB) a :
  wf_txset (ls_txs s) ->
  a ∈ tx_from <$> tp_heads (ls_txs (exec tx s)) ->
  a ∈ tx_from <$> tp_heads (ls_txs s).
Proof.
  intros H. rewrite execute_txs.
  destruct (result tx s) as [logs | [| | | msg]];
    auto using Pop_senders, Shift_senders.
Qed.

Lemma execute_heads tx (s : @loop_state StateDB) t :
  Peek (ls_txs s) = Some tx -> t ∈ tp_heads (ls_txs s) ->
  t = tx \/ t ∈ tp_heads (ls_txs (exec tx s)).
Proof.
  intros Hp Ht. rewrite execute_txs.
  destruct (result tx s) as [logs | [| | | msg]];
    eauto using Pop_heads, Shift_heads.
Qed.

(** One turn of the loop that goes on to the next. *)
Lemma loop_unfold interrupt fuel (s : @loop_state StateDB) :
  lp interrupt (S fuel) s
  = match check_interrupt interrupt s with
    | (s, Some b) => Some (s, Returned b)
    | (s, None) =>
        if Gas (ls_env s) <? TxGas then Some (s, OutOfGas)
        else match Peek (ls_txs s) with
             | None => Some (s, Drained)
             | Some tx => lp interrupt fuel (exec tx s)
             end
    end.
Proof. reflexivity. Qed.

(** Whatever is attempted from a state on is sent by the sender of
    one of its heads. *)
Lemma loop_attempts interrupt fuel (s s' : @loop_state StateDB) e :
  wf_txset (ls_txs s) ->
  lp interrupt fuel s = Some (s', e) ->
  exists new,
    ls_extdb s' = ls_extdb s ++ new
    /\ forall t, t ∈ attempted new -> tx_from t ∈ tx_from <$> tp_heads (ls_txs s).
Proof.
  revert s. induction fuel as [| fuel IH]; intros s Hwf H; [discriminate |].
  rewrite loop_unfold in H.
  destruct (check_interrupt interrupt s) as [s1 r] eqn:Ec.
  apply check_interrupt_keeps in Ec as (_ & Ht & Hx & _).
  assert (Stop : s' = s1 ->
            exists new, ls_extdb s' = ls_extdb s ++ new
              /\ forall t, t ∈ attempted new ->
                   tx_from t ∈ tx_from <$> tp_heads (ls_txs s)).
  { intros ->. exists []. rewrite app_nil_r. split; [exact Hx |].
    intros t Hin. cbn in Hin. apply elem_of_nil in Hin. contradiction. }
  destruct r as [b |]; [injection H as <- _; auto |].
  destruct (Gas (ls_env s1) <? TxGas); [injection H as <- _; auto |].
  destruct (Peek (ls_txs s1)) as [tx |] eqn:Ep; [| injection H as <- _; auto].
  apply IH in H as (new & Hnew & Hall); [| apply execute_wf; congruence].
  destruct (execute_attempted tx s1) as (ev & Hev & Hatt).
  exists (ev ++ new). split.
  - rewrite Hnew, Hev, Hx, app_assoc. reflexivity.
  - intros t Hin. rewrite attempted_app, Hatt in Hin.
    apply elem_of_app in Hin as [Hin | Hin].
    + apply list_elem_of_singleton in Hin as ->.
      rewrite <- Ht. unfold Peek in Ep.
      destruct (tp_heads (ls_txs s1)) as [| h rest]; [discriminate |].
      injection Ep as ->. apply list_elem_of_here.
    + rewrite <- Ht. apply (execute_senders tx); [congruence |].
      apply Hall. exact Hin.
Qed.

(** When the loop ends because no transaction is left, every head it
    started from was attempted. *)
Lemma loop_drained interrupt fuel (s s' : @loop_state StateDB) :
  lp interrupt fuel s = Some (s', Drained) ->
  exists new,
    ls_extdb s' = ls_extdb s ++ new
    /\ forall t, t ∈ tp_heads (ls_txs s) -> t ∈ attempted new.
Proof.
  revert s. induction fuel as [| fuel IH]; intros s H; [discriminate |].
  rewrite loop_unfold in H.
  destruct (check_interrupt interrupt s) as [s1 r] eqn:Ec.
  apply check_interrupt_keeps in Ec as (_ & Ht & Hx & _).
  destruct r as [b |]; [discriminate |].
  destruct (Gas (ls_env s1) <? TxGas); [discriminate |].
  destruct (Peek (ls_txs s1)) as [tx |] eqn:Ep.
  - apply IH in H as (new & Hnew & Hall).
    destruct (execute_attempted tx s1) as (ev & Hev & Hatt).
    exists (ev ++ new). split.
    + rewrite Hnew, Hev, Hx, app_assoc. reflexivity.
    + intros t Hin. rewrite <- Ht in Hin. rewrite attempted_app, Hatt.
      apply elem_of_app.
      destruct (execute_heads tx s1 t Ep Hin) as [-> | Hin'].
      * left. apply list_elem_of_here.
      * right. apply Hall. exact Hin'.
  - injection H as <-. exists []. rewrite app_nil_r. split; [exact Hx |].
    intros t Hin. rewrite <- Ht in Hin. unfold Peek in Ep.
    destruct (tp_heads (ls_txs s1)); [| discriminate].
    apply elem_of_nil in Hin. contradiction.
Qed.

Lemma execute_remaining tx (s : @loop_state StateDB) :
  Peek (ls_txs s) = Some tx ->
  (remaining (ls_txs (exec tx s)) < remaining (ls_txs s))%nat.
Proof.
  intros Hp. rewrite execute_txs.
  destruct (result tx s) as [logs | [| | | msg]];
    eauto using remaining_Pop, remaining_Shift.
Qed.

(** The loop returns: fuel above the number of transactions in the
    set is enough. *)
Lemma loop_total interrupt fuel (s : @loop_state StateDB) :
  (remaining (ls_txs s) < fuel)%nat -> is_Some (lp interrupt fuel s).
Proof.
  revert s. induction fuel as [| fuel IH]; intros s H; [lia |].
  rewrite loop_unfold.
  destruct (check_interrupt interrupt s) as [s1 r] eqn:Ec.
  apply check_interrupt_keeps in Ec as (_ & Ht & _).
  destruct r as [b |]; [eexists; reflexivity |].
  destruct (Gas (ls_env s1) <? TxGas); [eexists; reflexivity |].
  destruct (Peek (ls_txs s1)) as [tx |] eqn:Ep; [| eexists; reflexivity].
  apply IH. pose proof (execute_remaining tx s1 Ep). rewrite Ht in *. lia.
Qed.

Lemma commitTransactionsWithHeader_total (w : @worker StateDB) hdr txset interrupt :
  is_Some (commitTransactionsWithHeader StateDB_Prepare Snapshot RevertToSnapshot
             ApplyTransaction TxGas w hdr txset coinbase interrupt).
Proof.
  unfold commitTransactionsWithHeader.
  destruct (current w) as [env |]; [| eexists; reflexivity].
  match goal with
  | |- context [loop _ _ _ _ _ _ _ (S (remaining txset)) ?s] =>
      destruct (loop_total interrupt (S (remaining txset)) s) as [[s' e] E];
        [cbn; lia | rewrite E]
  end.
  destruct e; eexists; reflexivity.
Qed.

Lemma resubmit_ratio_spec (env : @environment StateDB) :
  0 <= Gas env <= GasLimit (header env) -> GasLimit (header env) < 2 ^ 64 ->
  resubmit_ratio env
  = floored (Float64.decimal 1 10)
      (consumed_fraction (GasLimit (header env)) (Gas env)).
Proof.
  intros H1 H2. unfold resubmit_ratio, floored, consumed_fraction.
  rewrite u64_small by lia. reflexivity.
Qed.

(** The ratio the loop sends is not below a tenth, whatever the gas
    limit; it is NaN for a gas limit of zero. *)
Lemma resubmit_ratio_floor (env : @environment StateDB) :
  Float64.lt (resubmit_ratio env) (Float64.decimal 1 10) = false.
Proof.
  unfold resubmit_ratio.
  destruct (Float64.lt (Float64.div _ _) _) eqn:C; [reflexivity | exact C].
Qed.

(** From a gas limit that is not zero, and that a double holds
    exactly, the ratio is a used part of it: between a tenth and
    one. *)
Lemma resubmit_ratio_range (env : @environment StateDB) :
  0 <= Gas env <= GasLimit (header env) -> 0 < GasLimit (header env) < 2 ^ 53 ->
  sound_ratio (resubmit_ratio env).
Proof.
  intros H1 H2.
  assert (S0 : sound_ratio (Float64.decimal 1 10)) by (repeat split).
  unfold resubmit_ratio. rewrite u64_small by lia.
  destruct (Float64.lt _ _) eqn:C; [exact S0 |].
  set (l := GasLimit (header env)) in *. set (g := Gas env) in *.
  destruct (float64_exact (l - g) ltac:(lia)) as (Vx & Fx & Ex).
  destruct (float64_exact l ltac:(lia)) as (Vy & Fy & Ey).
  assert (Hl : (0 < inject_Z l)%Q) by (rewrite <- (Zlt_Qlt 0); lia).
  assert (Hu : (inject_Z (l - g) <= inject_Z l)%Q) by (rewrite <- Zle_Qle; lia).
  assert (Hn : (0 <= inject_Z (l - g))%Q)
    by (apply Float64Facts.inject_Z_nonneg; lia).
  pose proof (Float64Facts.div_rounds _ _ Vx Vy Fx Fy ltac:(rewrite Ey; lra)) as R.
  destruct (Float64Facts.rounds_between _ _ 0 1 R) as (V & F & L & U);
    [reflexivity | reflexivity | | |].
  { rewrite Ex, Ey. change (inject_Z 0) with 0%Q.
    apply Qle_shift_div_l; [exact Hl |]. lra. }
  { rewrite Ex, Ey. change (inject_Z 1) with 1%Q.
    apply Qle_shift_div_r; [exact Hl |]. lra. }
  set (r := Float64.div (float64 (l - g)) (float64 l)) in *.
  split; [exact V |].
  destruct (float64_exact 0 ltac:(reflexivity)) as (V0 & F0 & E0).
  destruct (float64_exact 1 ltac:(reflexivity)) as (V1 & F1 & E1).
  assert (T : (Float64.val (Float64.decimal 1 10) <= Float64.val r)%Q).
  { apply Qnot_lt_le. intros A.
    apply (Float64Facts.lt_val r (Float64.decimal 1 10) V eq_refl F eq_refl) in A.
    rewrite C in A. discriminate. }
  split.
  - apply (Float64Facts.lt_val _ _ V0 V F0 F). rewrite E0.
    apply Qlt_le_trans with (2 := T). reflexivity.
  - apply (Float64Facts.le_val _ _ V V1 F F1). rewrite E1. exact U.
Qed.

(** The check that finds the flag set leaves the loop on the spot. *)
Lemma loop_interrupted (flag : nat -> Z) (fuel : nat) (s : @loop_state StateDB) :
  flag (ls_loads s) <> commitInterruptNone ->
  flag (S (ls_loads s)) = flag (ls_loads s) ->
  flag (S (S (ls_loads s))) = flag (ls_loads s) ->
  lp (Some flag) (S fuel) s
  = Some ((with_loads (S (S (S (ls_loads s))))
             (if flag (ls_loads s) =? commitInterruptResubmit
              then send_adjust
                     {| ratio := resubmit_ratio (ls_env s); inc := true |} s
              else s)),
          Returned (flag (ls_loads s) =? commitInterruptNewHead)).
Proof.
  intros Hset H1 H2. rewrite loop_unfold. unfold check_interrupt.
  destruct (Z.eqb_spec (flag (ls_loads s)) commitInterruptNone) as [C | _];
    [contradiction |].
  rewrite H1, H2. reflexivity.
Qed.

Lemma turn_spec interrupt (s s' : @loop_state StateDB) :
  tn interrupt s = Some s' ->
  exists s1 tx,
    check_interrupt interrupt s = (s1, None)
    /\ (Gas (ls_env s1) <? TxGas) = false
    /\ Peek (ls_txs s1) = Some tx /\ s' = exec tx s1.
Proof.
  unfold turn. destruct (check_interrupt interrupt s) as [s1 [b |]];
    [discriminate |].
  destruct (Gas (ls_env s1) <? TxGas) eqn:Eg; [discriminate |].
  destruct (Peek (ls_txs s1)) as [tx |] eqn:Ep; [| discriminate].
  intros [= <-]. exists s1, tx. repeat split; assumption.
Qed.

(** The turns before the check are the loop's. *)
Lemma loop_turns interrupt k fuel (s s' : @loop_state StateDB) :
  tns interrupt k s = Some s' ->
  lp interrupt (k + fuel) s = lp interrupt fuel s'.
Proof.
  revert s. induction k as [| k IH]; intros s H; cbn [turns] in H.
  - injection H as <-. reflexivity.
  - destruct (tn interrupt s) as [s1 |] eqn:Et; [| discriminate].
    destruct (turn_spec _ _ _ Et) as (s0 & tx & Ec & Eg & Ep & ->).
    change (S k + fuel)%nat with (S (k + fuel)).
    rewrite loop_unfold, Ec, Eg, Ep. apply IH. exact H.
Qed.

Lemma turns_remaining interrupt k (s s' : @loop_state StateDB) :
  tns interrupt k s = Some s' ->
  (remaining (ls_txs s') + k <= remaining (ls_txs s))%nat.
Proof.
  revert s. induction k as [| k IH]; intros s H; cbn [turns] in H.
  - injection H as <-. lia.
  - destruct (tn interrupt s) as [s1 |] eqn:Et; [| discriminate].
    destruct (turn_spec _ _ _ Et) as (s0 & tx & Ec & Eg & Ep & ->).
    apply check_interrupt_keeps in Ec as (_ & Ht & _).
    pose proof (execute_remaining tx s0 Ep). specialize (IH _ H).
    rewrite Ht in *. lia.
Qed.

Lemma execute_adjust tx (s : @loop_state StateDB) :
  ls_adjust (exec tx s) = ls_adjust s.
Proof.
  unfold execute.
  destruct (run_tx _ _ _ _ _ _ _) as [env [logs | [| | | msg]]]; reflexivity.
Qed.

(** A turn that goes on sends nothing. *)
Lemma turns_adjust interrupt k (s s' : @loop_state StateDB) :
  tns interrupt k s = Some s' -> ls_adjust s' = ls_adjust s.
Proof.
  revert s. induction k as [| k IH]; intros s H; cbn [turns] in H.
  - injection H as <-. reflexivity.
  - destruct (tn interrupt s) as [s1 |] eqn:Et; [| discriminate].
    destruct (turn_spec _ _ _ Et) as (s0 & tx & Ec & Eg & Ep & ->).
    rewrite (IH _ H), execute_adjust.
    unfold check_interrupt in Ec. destruct interrupt as [flag |].
    + destruct (flag (ls_loads s) =? commitInterruptNone); [| discriminate].
      injection Ec as <-. reflexivity.
    + injection Ec as <-. reflexivity.
Qed.

(** C4.  A call of [commitTransactionsWithHeader] whose loop comes,
    after any number of turns, to a check that finds the flag set
    (and the flag stays what it is over the loads of that check: it
    is stored into once) returns there: no further transaction is
    executed, nothing more is written to the monitor, no pending
    logs are posted, the environment and the transaction set are
    those of the check.  It returns true exactly when the flag is
    the new-head value, hence false for the resubmit value.  For the
    resubmit value, and for no other, it sends one adjustment, and
    nothing else: an increase whose ratio is the part of the header's
    gas limit that has left the pool, floored at a tenth, in
    [float64]; from a gas limit that is not zero this is a number
    between a tenth and one. *)
Theorem interrupt_stops_cycle (flag : nat -> Z) (w : @worker StateDB)
    (env : @environment StateDB) (hdr : Header)
    (txset : TransactionsByPriceAndNonce) (k : nat)
    (s : @loop_state StateDB) :
  current w = Some env ->
  tns (Some flag) k (enter w env txset) = Some s ->
  flag (ls_loads s) <> commitInterruptNone ->
  flag (S (ls_loads s)) = flag (ls_loads s) ->
  flag (S (S (ls_loads s))) = flag (ls_loads s) ->
  commitTransactionsWithHeader StateDB_Prepare Snapshot RevertToSnapshot
    ApplyTransaction TxGas w hdr txset coinbase (Some flag)
  = Some {| cy_worker :=
              {| current := Some (ls_env s); running := running w;
                 resubmitAdjustCh :=
                   resubmitAdjustCh w
                   ++ (if flag (ls_loads s) =? commitInterruptResubmit
                       then [{| ratio := resubmit_ratio (ls_env s);
                                inc := true |}]
                       else []);
                 extdb := ls_extdb s; mux := mux w |};
            cy_txs := ls_txs s;
            cy_exit :=
              Some (Returned (flag (ls_loads s) =? commitInterruptNewHead));
            cy_return := (flag (ls_loads s) =? commitInterruptNewHead) |}
  /\ (0 <= Gas (ls_env s) <= GasLimit (header (ls_env s)) ->
      GasLimit (header (ls_env s)) < 2 ^ 64 ->
      resubmit_ratio (ls_env s)
      = floored (Float64.decimal 1 10)
          (consumed_fraction (GasLimit (header (ls_env s))) (Gas (ls_env s))))
  /\ (0 <= Gas (ls_env s) <= GasLimit (header (ls_env s)) ->
      0 < GasLimit (header (ls_env s)) < 2 ^ 53 ->
      sound_ratio (resubmit_ratio (ls_env s))).
Proof.
  intros Hcur Hk Hset H1 H2.
  split; [| split; [apply resubmit_ratio_spec | apply resubmit_ratio_range]].
  unfold commitTransactionsWithHeader. rewrite Hcur.
  change {| ls_env := match gasPool env with
                      | Some _ => env
                      | None => set_gasPool (Some (u64 (0 + GasLimit (header env)))) env
                      end;
            ls_txs := txset; ls_loads := 0;
            ls_adjust := resubmitAdjustCh w; ls_extdb := extdb w;
            ls_logs := [] |}
    with (enter w env txset).
  pose proof (turns_remaining _ _ _ _ Hk) as Hr. cbn [enter ls_txs] in Hr.
  pose proof (turns_adjust _ _ _ _ Hk) as Ha. cbn [enter ls_adjust] in Ha.
  replace (S (remaining txset))
    with (k + S (remaining txset - k))%nat by lia.
  rewrite (loop_turns _ _ _ _ _ Hk).
  rewrite (loop_interrupted flag _ s Hset H1 H2).
  destruct (flag (ls_loads s) =? commitInterruptResubmit); cbn.
  - rewrite Ha. reflexivity.
  - rewrite Ha, app_nil_r. reflexivity.
Qed.

(** C1, amended.  When the head [t] of the set fails with nonce too
    high it is popped, and whatever the rest of the cycle attempts is
    sent by another account.  When it fails with nonce too low the
    set is shifted: the next transaction the account has queued
    becomes its head, and the rest of the cycle attempts it unless
    the cycle is left before on an interrupt or on a gas pool below
    the gas of a transaction.  The rest of the cycle does end. *)
Theorem nonce_errors_in_cycle interrupt (s : @loop_state StateDB)
    (t : Transaction) :
  wf_txset (ls_txs s) -> Peek (ls_txs s) = Some t ->
  (result t s = inr ErrNonceTooHigh ->
   ls_txs (exec t s) = Pop (ls_txs s)
   /\ forall fuel s' e,
       lp interrupt fuel (exec t s) = Some (s', e) ->
       exists new,
         ls_extdb s' = ls_extdb (exec t s) ++ new
         /\ forall t', t' ∈ attempted new -> tx_from t' <> tx_from t)
  /\ (result t s = inr ErrNonceTooLow ->
      ls_txs (exec t s) = Shift (ls_txs s)
      /\ forall next rest,
          tp_txs (ls_txs s) !! tx_from t = Some (next :: rest) ->
          next ∈ tp_heads (ls_txs (exec t s))
          /\ forall fuel s' e,
              lp interrupt fuel (exec t s) = Some (s', e) ->
              exists new,
                ls_extdb s' = ls_extdb (exec t s) ++ new
                /\ (next ∈ attempted new
                    \/ e = OutOfGas \/ exists b, e = Returned b))
  /\ (forall fuel,
        (remaining (ls_txs (exec t s)) < fuel)%nat ->
        is_Some (lp interrupt fuel (exec t s))).
Proof.
  intros Hwf Hp. split; [| split].
  - intros Hr. pose proof (execute_txs t s) as Ht. rewrite Hr in Ht.
    split; [exact Ht |]. intros fuel s' e Hl.
    apply loop_attempts in Hl as (new & Hnew & Hall); [| apply execute_wf, Hwf].
    exists new. split; [exact Hnew |]. intros t' Hin Heq.
    apply Hall in Hin. rewrite Ht, Heq in Hin.
    exact (Pop_silences _ _ Hwf Hp Hin).
  - intros Hr. pose proof (execute_txs t s) as Ht. rewrite Hr in Ht.
    split; [exact Ht |]. intros next rest Hq.
    destruct (Shift_next _ _ _ _ Hp Hq) as [Hn _].
    split; [rewrite Ht; exact Hn |]. intros fuel s' e Hl.
    destruct e as [b | |].
    + apply loop_attempts in Hl as (new & Hnew & _); [| apply execute_wf, Hwf].
      exists new. split; [exact Hnew |]. right. right. exists b. reflexivity.
    + apply loop_attempts in Hl as (new & Hnew & _); [| apply execute_wf, Hwf].
      exists new. split; [exact Hnew |]. right. left. reflexivity.
    + apply loop_drained in Hl as (new & Hnew & Hall).
      exists new. split; [exact Hnew |]. left. apply Hall.
      rewrite Ht. exact Hn.
  - intros fuel. apply loop_total.
Qed.

(** C2, amended.  When the head [t] of the set fails with gas limit
    reached it is popped without shifting in the next transaction of
    its account: the queue of the account stays in the set as it is,
    and whatever the rest of the cycle attempts is sent by another
    account; the heads of the other accounts are attempted when the
    cycle runs until no transaction is left. *)
Theorem gas_limit_reached_in_cycle interrupt (s : @loop_state StateDB)
    (t : Transaction) :
  wf_txset (ls_txs s) -> Peek (ls_txs s) = Some t ->
  result t s = inr ErrGasLimitReached ->
  ls_txs (exec t s) = Pop (ls_txs s)
  /\ queued (tx_from t) (ls_txs (exec t s)) = queued (tx_from t) (ls_txs s)
  /\ (forall fuel s' e,
        lp interrupt fuel (exec t s) = Some (s', e) ->
        exists new,
          ls_extdb s' = ls_extdb (exec t s) ++ new
          /\ (forall t', t' ∈ attempted new -> tx_from t' <> tx_from t)
          /\ (e = Drained ->
              forall t', t' ∈ tp_heads (ls_txs s) -> t' <> t ->
                         t' ∈ attempted new))
  /\ (forall fuel,
        (remaining (ls_txs (exec t s)) < fuel)%nat ->
        is_Some (lp interrupt fuel (exec t s))).
Proof.
  intros Hwf Hp Hr. pose proof (execute_txs t s) as Ht. rewrite Hr in Ht.
  split; [exact Ht |]. split; [rewrite Ht; apply Pop_queue |].
  split; [| intros fuel; apply loop_total].
  intros fuel s' e Hl.
  pose proof Hl as Hl2.
  apply loop_attempts in Hl as (new & Hnew & Hall); [| apply execute_wf, Hwf].
  exists new. split; [exact Hnew |]. split.
  - intros t' Hin Heq. apply Hall in Hin. rewrite Ht, Heq in Hin.
    exact (Pop_silences _ _ Hwf Hp Hin).
  - intros -> t' Hin Hne.
    apply loop_drained in Hl2 as (new' & Hnew' & Hall').
    rewrite Hnew in Hnew'. apply app_inv_head in Hnew' as <-.
    apply Hall'. rewrite Ht.
    destruct (Pop_heads _ _ _ Hp Hin) as [-> | H]; [contradiction | exact H].
Qed.

End CycleFacts.


(** *** The model at work on concrete nodes *)

Section Runs.

Import Samples.

Example cycle_in_order :
  option_map (fun c => (attempted (extdb (cy_worker c)), cy_exit c))
    (sample_cycle (worker_with nonces_next) (header_at 8 0)
       (NewTransactionsByPriceAndNonce pending) 0%N None)
  = Some ([a1; a2; b1], Some Drained).
Proof. vm_compute. reflexivity. Qed.

Example cycle_nonce_too_low :
  option_map (fun c => (attempted (extdb (cy_worker c)), cy_exit c))
    (sample_cycle (worker_with nonces_low) (header_at 8 0)
       (NewTransactionsByPriceAndNonce pending) 0%N None)
  = Some ([a1; a2; b1], Some Drained).
Proof. vm_compute. reflexivity. Qed.

Example cycle_nonce_too_high :
  option_map (fun c => (attempted (extdb (cy_worker c)), cy_exit c))
    (sample_cycle (worker_with nonces_high) (header_at 8 0)
       (NewTransactionsByPriceAndNonce pending) 0%N None)
  = Some ([a1; b1], Some Drained).
Proof. vm_compute. reflexivity. Qed.

Lemma grouped_two (x y : Address) (lx ly : list Transaction) :
  Forall (fun t => tx_from t = x) lx -> Forall (fun t => tx_from t = y) ly ->
  grouped_by_sender (<[x := lx]> {[ y := ly ]}).
Proof.
  intros Hx Hy a l t Hl Ht.
  apply lookup_insert_Some in Hl as [[<- <-] | [_ Hl]].
  - rewrite Forall_forall in Hx. apply Hx. exact Ht.
  - apply lookup_singleton_Some in Hl as [<- <-].
    rewrite Forall_forall in Hy. apply Hy. exact Ht.
Qed.

Lemma pending_wf : wf_txset (NewTransactionsByPriceAndNonce pending).
Proof. apply wf_New, grouped_two; repeat constructor. Qed.

Lemma pending_big_wf : wf_txset (NewTransactionsByPriceAndNonce pending_big).
Proof. apply wf_New, grouped_two; repeat constructor. Qed.

(** C1, as stated, fails.  The account 1 has queued [a1] and [a2]
    and is at nonce 5, so [a1] fails with nonce too low; the flag is
    none at the first check and resubmit at the second.  The cycle
    attempts [a1] and returns at the second check: [a2], the next
    transaction of the account, is not attempted in this cycle. *)
Lemma nonce_too_low_then_interrupt :
  exists c,
    sample_cycle (worker_with nonces_low) (header_at 8 0)
      (NewTransactionsByPriceAndNonce pending) 0%N (Some resubmit_after_first)
    = Some c
    /\ sample_outcome a1 (state_with nonces_low pending) = inr ErrNonceTooLow
    /\ queued 1%N (NewTransactionsByPriceAndNonce pending) = [a2]
    /\ attempted (extdb (cy_worker c)) = [a1]
    /\ (a2 ∉ attempted (extdb (cy_worker c)))
    /\ cy_exit c = Some (Returned false).
Proof.
  eexists. split; [vm_compute; reflexivity |].
  split; [vm_compute; reflexivity |].
  split; [vm_compute; reflexivity |].
  split; [vm_compute; reflexivity |].
  split; [| vm_compute; reflexivity].
  cbn [cy_worker extdb]. vm_compute attempted.
  intros H. apply list_elem_of_singleton in H. discriminate H.
Qed.

(** The account at nonce 3 and at nonce 5, with [a1] of nonce 4 at the
    head. *)
Lemma nonce_errors_in_cycle_witness :
  ls_txs (sample_execute a1 (state_with nonces_high pending))
  = Pop (ls_txs (state_with nonces_high pending))
  /\ ls_txs (sample_execute a1 (state_with nonces_low pending))
     = Shift (ls_txs (state_with nonces_low pending))
  /\ a2 ∈ tp_heads (ls_txs (sample_execute a1 (state_with nonces_low pending))).
Proof.
  assert (Hp : forall n, Peek (ls_txs (state_with n pending)) = Some a1)
    by (intros n; vm_compute; reflexivity).
  assert (Hh : sample_outcome a1 (state_with nonces_high pending) = inr ErrNonceTooHigh)
    by (vm_compute; reflexivity).
  assert (Hl : sample_outcome a1 (state_with nonces_low pending) = inr ErrNonceTooLow)
    by (vm_compute; reflexivity).
  assert (Hq : tp_txs (ls_txs (state_with nonces_low pending)) !! tx_from a1
               = Some [a2])
    by (vm_compute; reflexivity).
  pose proof (nonce_errors_in_cycle sample_Prepare sample_Snapshot sample_Revert sample_apply 21000 0%N None
                (state_with nonces_high pending) a1 pending_wf (Hp _)) as (H1 & _ & _).
  pose proof (nonce_errors_in_cycle sample_Prepare sample_Snapshot sample_Revert sample_apply 21000 0%N None
                (state_with nonces_low pending) a1 pending_wf (Hp _)) as (_ & H2 & _).
  split; [exact (proj1 (H1 Hh)) |].
  split; [exact (proj1 (H2 Hl)) |].
  exact (proj1 (proj2 (H2 Hl) a2 [] Hq)).
Defined.

(** C2, as stated, fails.  The account 1 has queued [a1_big] and
    [a2]; [a1_big] asks for more gas than the pool holds and fails
    with gas limit reached.  The cycle runs until no transaction is
    left, attempts [a1_big] and the transaction of account 2, and
    never [a2], which stays in the queue of account 1. *)
Lemma gas_limit_reached_then_nothing :
  exists c,
    sample_cycle (worker_with nonces_next) (header_at 8 0)
      (NewTransactionsByPriceAndNonce pending_big) 0%N None
    = Some c
    /\ sample_outcome a1_big (state_with nonces_next pending_big)
       = inr ErrGasLimitReached
    /\ queued 1%N (NewTransactionsByPriceAndNonce pending_big) = [a2]
    /\ cy_exit c = Some Drained
    /\ attempted (extdb (cy_worker c)) = [a1_big; b1]
    /\ (a2 ∉ attempted (extdb (cy_worker c)))
    /\ queued 1%N (cy_txs c) = [a2].
Proof.
  eexists. split; [vm_compute; reflexivity |].
  split; [vm_compute; reflexivity |].
  split; [vm_compute; reflexivity |].
  split; [vm_compute; reflexivity |].
  split; [vm_compute; reflexivity |].
  split; [| vm_compute; reflexivity].
  cbn [cy_worker extdb]. vm_compute attempted.
  intros H. apply elem_of_cons in H as [H | H]; [discriminate H |].
  apply list_elem_of_singleton in H. discriminate H.
Qed.

(** The head that asks for more gas than the pool holds. *)
Lemma gas_limit_reached_in_cycle_witness :
  ls_txs (sample_execute a1_big (state_with nonces_next pending_big))
  = Pop (ls_txs (state_with nonces_next pending_big))
  /\ queued (tx_from a1_big)
       (ls_txs (sample_execute a1_big (state_with nonces_next pending_big)))
     = queued (tx_from a1_big) (ls_txs (state_with nonces_next pending_big)).
Proof.
  assert (Hp : Peek (ls_txs (state_with nonces_next pending_big)) = Some a1_big)
    by (vm_compute; reflexivity).
  assert (Hr : sample_outcome a1_big (state_with nonces_next pending_big)
               = inr ErrGasLimitReached)
    by (vm_compute; reflexivity).
  pose proof (gas_limit_reached_in_cycle sample_Prepare sample_Snapshot sample_Revert sample_apply 21000 0%N None
                (state_with nonces_next pending_big) a1_big pending_big_wf Hp Hr)
    as (H1 & H2 & _).
  split; [exact H1 | exact H2].
Defined.

(** The task at block 95 with the head at 100. *)
Lemma clearPending_spec_witness :
  NumberU64 (task_block (task_at 95)) <= 2 ^ 64 - 8
  /\ table !! 1%N = Some (task_at 95)
  /\ (clearPending 100 table !! 1%N = Some (task_at 95)
      <-> NumberU64 (task_block (task_at 95)) + 7 > 100).
Proof.
  assert (H1 : NumberU64 (task_block (task_at 95)) <= 2 ^ 64 - 8)
    by (vm_compute; discriminate).
  assert (H2 : table !! 1%N = Some (task_at 95)) by (vm_compute; reflexivity).
  split; [exact H1 |]. split; [exact H2 |].
  exact (proj2 (proj2 (clearPending_spec
                         (mkInput 0 100 true true true) parent7
                         (newWorkLoop_init Second) 100 table 1%N (task_at 95)))
           H1 H2).
Defined.

Example clearPending_keeps_fresh :
  map_to_list (clearPending 100 table) = [(1%N, task_at 95)].
Proof. vm_compute. reflexivity. Qed.

Example clearPending_purges_at_boundary :
  clearPending 102 table = ∅ /\ clearPending 101 table !! 1%N = Some (task_at 95).
Proof. split; vm_compute; reflexivity. Qed.

(** A worker that has a quarter of the gas limit left in the pool,
    and a flag that is resubmit from the first load on: the call
    returns false at its first check and sends an increase with the
    ratio 0.75. *)
Lemma interrupt_stops_cycle_witness :
  option_map
    (fun c => (cy_return c, resubmitAdjustCh (cy_worker c),
               attempted (extdb (cy_worker c))))
    (sample_cycle
       {| current := Some (set_gasPool (Some 250000) (env_with nonces_next));
          running := true; resubmitAdjustCh := []; extdb := []; mux := [] |}
       (header_at 8 0) (NewTransactionsByPriceAndNonce pending) 0%N
       (Some (always commitInterruptResubmit)))
  = Some (false, [{| ratio := Float64.decimal 3 4; inc := true |}], []).
Proof.
  destruct (interrupt_stops_cycle sample_Prepare sample_Snapshot
              sample_Revert sample_apply 21000 0%N
              (always commitInterruptResubmit)
              {| current := Some (set_gasPool (Some 250000) (env_with nonces_next));
                 running := true; resubmitAdjustCh := []; extdb := []; mux := [] |}
              (set_gasPool (Some 250000) (env_with nonces_next))
              (header_at 8 0) (NewTransactionsByPriceAndNonce pending) 0
              (enter
                 {| current := Some (set_gasPool (Some 250000) (env_with nonces_next));
                    running := true; resubmitAdjustCh := []; extdb := [];
                    mux := [] |}
                 (set_gasPool (Some 250000) (env_with nonces_next))
                 (NewTransactionsByPriceAndNonce pending))
              eq_refl eq_refl ltac:(discriminate) eq_refl eq_refl)
    as (E & _ & _).
  unfold sample_cycle. rewrite E. vm_compute. reflexivity.
Defined.

(** The flag is none at the first check and resubmit at the second:
    the call executes [a1] and returns false at the second check,
    with an increase whose ratio is floored at a tenth. *)
Example interrupt_after_a_turn :
  option_map
    (fun c => (cy_return c, resubmitAdjustCh (cy_worker c),
               attempted (extdb (cy_worker c))))
    (sample_cycle (worker_with nonces_next) (header_at 8 0)
       (NewTransactionsByPriceAndNonce pending) 0%N
       (Some resubmit_after_first))
  = Some (false, [{| ratio := Float64.decimal 1 10; inc := true |}], [a1]).
Proof. vm_compute. reflexivity. Qed.

Example interrupt_new_head :
  option_map snd
    (sample_loop (Some (always commitInterruptNewHead)) 1
       (state_with nonces_next pending))
  = Some (Returned true).
Proof. vm_compute. reflexivity. Qed.


Example resultLoop_drops :
  resultLoop_step sample_HasBlock sample_Write other_engine None result_state
  = result_state
  /\ resultLoop_step sample_HasBlock sample_Write other_engine (Some parent7)
       result_state
     = result_state
  /\ resultLoop_step sample_HasBlock sample_Write other_engine
       (Some (block_at 9 0 99%N)) result_state
     = result_state.
Proof. repeat split. Qed.

(** The same task twice in a row. *)
Lemma taskLoop_skip_and_register_witness :
  taskLoop_step other_engine None false task_with_tx
    (taskLoop_step other_engine None false task_with_tx taskLoop_init ∅).1.1
    (taskLoop_step other_engine None false task_with_tx taskLoop_init ∅).1.2
  = ((taskLoop_step other_engine None false task_with_tx taskLoop_init ∅).1,
     SkippedDuplicate).
Proof.
  refine (proj1 (taskLoop_skip_and_register other_engine None false
                   task_with_tx task_with_tx taskLoop_init _ ∅ _ _) eq_refl).
  apply surjective_pairing.
Defined.

Example taskLoop_registers :
  (taskLoop_step other_engine None false task_with_tx taskLoop_init ∅).1.2
  = {[ 9%N := task_with_tx ]}
  /\ (taskLoop_step other_engine None false (task_at 95) taskLoop_init ∅).1.2 = ∅
  /\ (taskLoop_step other_engine None true (task_at 95) taskLoop_init ∅).1.2
     = {[ 95%N := task_at 95 ]}.
Proof. repeat split; vm_compute; reflexivity. Qed.

(** An increase by a ratio of one half, from three seconds. *)
Lemma recommit_adjust_in_range_witness :
  exists st',
    newWorkLoop_step (mkInput 0 100 true true true)
      (EvAdjust {| ratio := Float64.decimal 1 2; inc := true |})
      (newWorkLoop_init (3 * Second)) table
    = Some (st', table)
    /\ nw_minRecommit st' <= nw_recommit st' <= maxRecommitInterval.
Proof.
  destruct (recommit_adjust_in_range (mkInput 0 100 true true true)
              (newWorkLoop_init (3 * Second)) table
              {| ratio := Float64.decimal 1 2; inc := true |})
    as (st' & Hs & _ & _ & Hr).
  - vm_compute. discriminate.
  - split; vm_compute; discriminate.
  - intros _. repeat split.
  - exists st'. split; [exact Hs | exact Hr].
Defined.

Example recommit_increase :
  recalcRecommit (3 * Second) (3 * Second)
    (Float64.div (float64 (3 * Second)) (Float64.decimal 1 2)) true
  = 3320000000.
Proof. vm_compute. reflexivity. Qed.

Example recommit_decrease :
  recalcRecommit (3 * Second) 3320000000 (float64 (3 * Second)) false
  = 3268000000.
Proof. vm_compute. reflexivity. Qed.

(** Where the rounding of the doubles shows: the exact average is
    [10385056859.04...], the doubles give one more. *)
Example recommit_increase_rounded :
  recalcRecommit Second 10131437069
    (Float64.div (float64 10131437069) (Float64.decimal 812619 1000000)) true
  = 10385056860.
Proof. vm_compute. reflexivity. Qed.

(** A minimum that no double holds: the decrease ends below it. *)
Example recommit_decrease_below_minimum :
  recalcRecommit (2 ^ 53 + 1) (2 ^ 53 + 1) (float64 (2 ^ 53 + 1)) false
  = 2 ^ 53.
Proof. vm_compute. reflexivity. Qed.

(** C8, as stated, fails.  With the Istanbul engine the header is
    built with the requested timestamp, 500, though the parent's is
    1000; the engine's [Prepare], with a block period of 0 and the
    clock at 900, then sets it to 1000, the parent's timestamp and
    not a later one. *)
Lemma istanbul_header_not_after_parent :
  Block_Time parent7 = 1000
  /\ Time (cand_built (commitNewWork_header sample_CalcGasLimit
                         (config_with (istanbul_engine 0)) parent7 500 0))
     = 500
  /\ exists h,
       cand_prepared (commitNewWork_header sample_CalcGasLimit
                        (config_with (istanbul_engine 0)) parent7 500 0)
       = inl h
       /\ Time h = 1000.
Proof.
  split; [reflexivity |]. split; [reflexivity |].
  eexists. split; [vm_compute; reflexivity | reflexivity].
Qed.

(** A request for time 500 on a parent of time 1000, with another
    engine and with the Istanbul engine. *)
Lemma candidate_header_witness :
  Time (cand_built (commitNewWork_header sample_CalcGasLimit
                      (config_with other_engine) parent7 500 0))
  > Block_Time parent7
  /\ Time (cand_built (commitNewWork_header sample_CalcGasLimit
                         (config_with (istanbul_engine 1000)) parent7 500 0))
     = 500.
Proof.
  split.
  - refine (proj1 (proj2 (proj1 (proj2 (candidate_header sample_CalcGasLimit
              (fun _ _ => None) (fun n => inl n) (fun _ _ => inl [])
              (fun h _ => inl (Extra h)) 0%N 0 0 sample_sealHash
              (config_with other_engine) parent7 500 0)) eq_refl _))).
    vm_compute. split; reflexivity.
  - exact (proj1 (proj1 (proj2 (proj2 (candidate_header sample_CalcGasLimit
              (fun _ _ => None) (fun n => inl n) (fun _ _ => inl [])
              (fun h _ => inl (Extra h)) 0%N 0 0 sample_sealHash
              (config_with (istanbul_engine 1000)) parent7 500 0))) eq_refl)).
Defined.

Example istanbul_prepared_after_parent :
  (fun r => match r with inl h => Some (Time h) | inr _ => None end)
    (cand_prepared (commitNewWork_header sample_CalcGasLimit
                      (config_with (istanbul_engine 1000)) parent7 500 0))
  = Some 2000.
Proof. vm_compute. reflexivity. Qed.

End Runs.

End WorkerFacts.

(** ** eth/peer.go: known hashes and the queries of the set *)

Module PeerFacts.
Import PeerSet Peer PeerSamples.

(** *** The loops that append are filters *)

Lemma fold_append_filter {A B : Type} (keep : A -> bool) (f : A -> B) l acc :
  fold_left (fun list x => if keep x then list ++ [f x] else list) l acc
  = acc ++ (f <$> filter (fun x => keep x = true) l).
Proof.
  revert acc; induction l as [|a l IH]; intros acc; simpl.
  - by rewrite app_nil_r.
  - rewrite IH. rewrite filter_cons. destruct (keep a) eqn:E.
    + rewrite decide_True by done. by rewrite <- app_assoc.
    + rewrite decide_False by done. done.
Qed.

Lemma range_append_filter keep (m : gmap string peer) :
  range_append keep m
  = snd <$> filter (fun kv => keep kv.1 kv.2 = true) (map_to_list m).
Proof.
  unfold range_append.
  rewrite (fold_append_filter (fun kv => keep kv.1 kv.2) snd). done.
Qed.

Lemma elem_of_range_append keep (m : gmap string peer) p :
  p ∈ range_append keep m <-> exists i, m !! i = Some p /\ keep i p = true.
Proof.
  rewrite range_append_filter, list_elem_of_fmap. split.
  - intros [[i q] [-> H]]. apply list_elem_of_filter in H as [H1 H2].
    apply elem_of_map_to_list in H2. by exists i.
  - intros (i & H1 & H2). exists (i, p). split; [done|].
    apply list_elem_of_filter. split; [done|]. by apply elem_of_map_to_list.
Qed.

(** *** The set is keyed by the peers' ids *)

Lemma keyed_new : keyed newPeerSet.
Proof. intros i p H. simpl in H. by rewrite lookup_empty in H. Qed.

Lemma keyed_do_call ps c : keyed ps -> keyed (do_call ps c).
Proof.
  intros K. destruct c as [p|i|]; simpl.
  - unfold Register. destruct (closed ps); [done|].
    destruct (peers ps !! id p) eqn:E; [done|]. simpl.
    intros j q; simpl. rewrite lookup_insert_Some. intros [[<- <-]|[_ H]]; [done|eauto].
  - unfold Register, Unregister. destruct (peers ps !! i) eqn:E; [|done]. simpl.
    intros j q H; simpl in H. apply lookup_delete_Some in H as [_ H]. eauto.
  - done.
Qed.

Lemma keyed_calls cs ps : keyed ps -> keyed (calls cs ps).
Proof.
  revert ps; induction cs as [|c cs IH]; intros ps K; [done|].
  apply IH, keyed_do_call, K.
Qed.

Lemma range_append_NoDup keep ps :
  keyed ps -> NoDup (range_append keep (peers ps)).
Proof.
  intros K. rewrite range_append_filter.
  apply NoDup_fmap_2_strong.
  - intros [i p] [j q] H1 H2 E. simpl in E. subst q.
    apply list_elem_of_filter in H1 as [_ H1], H2 as [_ H2].
    apply elem_of_map_to_list in H1, H2.
    apply K in H1, H2. congruence.
  - apply NoDup_filter, NoDup_map_to_list.
Qed.

(** X1: however the set was driven, a peer found under an id has that id. *)
Theorem Peer_has_the_id cs i p :
  Peer i (calls cs newPeerSet) = Some p -> id p = i.
Proof. apply (keyed_calls cs newPeerSet keyed_new). Qed.

Lemma Peer_has_the_id_witness :
  Peer (id Samples.alice) (calls [CallRegister Samples.alice] newPeerSet)
  = Some Samples.alice
  /\ id Samples.alice = id Samples.alice.
Proof.
  split; [reflexivity|].
  apply (Peer_has_the_id [CallRegister Samples.alice] _ Samples.alice).
  reflexivity.
Defined.


(** X2: registering a peer on an open set that does not hold its id, and
    unregistering that id again, gives the set back: the broadcast loop
    that was started is the one told to stop. *)
Theorem Register_then_Unregister p ps :
  closed ps = false ->
  peers ps !! id p = None ->
  Register p ps = ((Register p ps).1.1, [GoBroadcast (id p)], None)
  /\ Unregister (id p) (Register p ps).1.1 = (ps, [ClosePeer (id p)], None).
Proof.
  intros Hc Hn. unfold Register. rewrite Hc, Hn. simpl. split; [done|].
  unfold Unregister. simpl. rewrite lookup_insert_eq.
  rewrite delete_insert_id by done. destruct ps; simpl in *. by subst.
Qed.

Lemma Register_then_Unregister_witness :
  closed Samples.with_alice = false
  /\ peers Samples.with_alice !! id Samples.bob = None
  /\ Unregister (id Samples.bob) (Register Samples.bob Samples.with_alice).1.1
     = (Samples.with_alice, [ClosePeer (id Samples.bob)], None).
Proof.
  split; [reflexivity|]. split; [reflexivity|].
  apply (Register_then_Unregister Samples.bob Samples.with_alice); reflexivity.
Defined.

(** X3: [Len] moves by one exactly when the call reports no error, and
    [Close] leaves it alone. *)
Theorem Len_counts_successes p i ps :
  Len (Register p ps).1.1
  = Len ps + match (Register p ps).2 with None => 1 | Some _ => 0 end
  /\ Len (Unregister i ps).1.1
     = Len ps - match (Unregister i ps).2 with None => 1 | Some _ => 0 end
  /\ Len (Close ps).1 = Len ps.
Proof.
  unfold Len. split; [|split].
  - unfold Register. destruct (closed ps); simpl; [lia|].
    destruct (peers ps !! id p) eqn:E; simpl; [lia|].
    rewrite map_size_insert_None by done. lia.
  - unfold Unregister. destruct (peers ps !! i) eqn:E; simpl; [|lia].
    rewrite map_size_delete, E. simpl.
    assert (size (peers ps) <> 0%nat); [|lia].
    intros H0. apply map_size_empty_inv in H0. rewrite H0 in E.
    by rewrite lookup_empty in E.
  - done.
Qed.

Lemma calls_closed cs ps :
  closed ps = true ->
  closed (calls cs ps) = true /\ peers (calls cs ps) ⊆ peers ps.
Proof.
  revert ps; induction cs as [|c cs IH]; intros ps Hc; [done|].
  unfold calls; simpl. fold (calls cs (do_call ps c)).
  assert (closed (do_call ps c) = true /\ peers (do_call ps c) ⊆ peers ps)
    as [H1 H2].
  { destruct c as [p|i|]; simpl.
    - unfold Register. by rewrite Hc.
    - unfold Unregister. destruct (peers ps !! i); simpl; [|done].
      split; [done|]. apply delete_subseteq.
    - done. }
  destruct (IH _ H1) as [H3 H4]. split; [done|]. by etrans.
Qed.

(** X4: after [Close], no sequence of calls brings a peer into the set:
    the set stays closed and only loses peers. *)
Theorem nothing_registered_after_Close cs ps :
  closed (calls cs (Close ps).1) = true
  /\ peers (calls cs (Close ps).1) ⊆ peers ps.
Proof. apply (calls_closed cs (Close ps).1). done. Qed.

(** X5: [Peers] hands out a map with exactly the registered peers. *)
Theorem Peers_is_the_registered ps i :
  Peers ps !! i = Peer i ps.
Proof.
  unfold Peers, Peer.
  apply (map_fold_weak_ind
           (fun (r : gmap string peer) m => r !! i = m !! i)); [done|].
  intros j q m r Hj IH. destruct (decide (i = j)) as [->|Hne].
  - by rewrite !lookup_insert_eq.
  - by rewrite !lookup_insert_ne.
Qed.

Section QueryFacts.

Variable st : peer -> state.

(** X6: the three filters list exactly the registered peers that pass
    their test. *)
Theorem filters_list_exactly ps hash p :
  (p ∈ PeersWithoutBlock st hash ps
   <-> (exists i, Peer i ps = Some p) /\ hash ∉ knownBlocks (st p))
  /\ (p ∈ PeersWithoutTx st hash ps
      <-> (exists i, Peer i ps = Some p) /\ hash ∉ knownTxs (st p))
  /\ (p ∈ ConsensusPeers ps
      <-> (exists i, Peer i ps = Some p) /\ types p = 1).
Proof.
  unfold PeersWithoutBlock, PeersWithoutTx, ConsensusPeers, Peer.
  rewrite !elem_of_range_append. split; [|split].
  - split.
    + intros (i & H1 & H2). split; [eauto|].
      apply negb_true_iff, bool_decide_eq_false in H2. done.
    + intros [[i H1] H2]. exists i. split; [done|].
      by apply negb_true_iff, bool_decide_eq_false.
  - split.
    + intros (i & H1 & H2). split; [eauto|].
      apply negb_true_iff, bool_decide_eq_false in H2. done.
    + intros [[i H1] H2]. exists i. split; [done|].
      by apply negb_true_iff, bool_decide_eq_false.
  - unfold IsConsensus. split.
    + intros (i & H1 & H2). split; [eauto|]. lia.
    + intros [[i H1] H2]. exists i. split; [done|]. lia.
Qed.

(** X7: on a set driven from the empty one, no peer is listed twice. *)
Theorem filters_list_once cs hash :
  let ps := calls cs newPeerSet in
  NoDup (PeersWithoutBlock st hash ps)
  /\ NoDup (PeersWithoutTx st hash ps)
  /\ NoDup (ConsensusPeers ps).
Proof.
  intros ps. pose proof (keyed_calls cs newPeerSet keyed_new) as K.
  split; [|split]; apply range_append_NoDup, K.
Qed.

Lemma ConsensusPeersWithoutTx_fold hash ps csPeers acc :
  fold_left
    (fun list p =>
       match peers ps !! id p with
       | Some _ =>
           if negb (bool_decide (hash ∈ knownTxs (st p)))
           then list ++ [p] else list
       | None => list
       end)
    csPeers acc
  = acc ++ filter (fun p => is_Some (peers ps !! id p)
                            /\ hash ∉ knownTxs (st p)) csPeers.
Proof.
  revert acc; induction csPeers as [|p l IH]; intros acc; simpl.
  - by rewrite app_nil_r.
  - rewrite IH, filter_cons. destruct (peers ps !! id p) eqn:E.
    + destruct (bool_decide (hash ∈ knownTxs (st p))) eqn:B; simpl.
      * apply bool_decide_eq_true in B.
        rewrite decide_False; [done|]. intros [_ H]. done.
      * apply bool_decide_eq_false in B.
        rewrite decide_True by (split; [eauto|done]).
        by rewrite <- app_assoc.
    + rewrite decide_False; [done|]. intros [[? H] _]. done.
Qed.

Lemma ConsensusPeersWithoutTx_filter csPeers hash ps :
  ConsensusPeersWithoutTx st csPeers hash ps
  = filter (fun p => is_Some (peers ps !! id p) /\ hash ∉ knownTxs (st p))
           csPeers.
Proof. apply (ConsensusPeersWithoutTx_fold hash ps csPeers []). Qed.

(** X8: [ConsensusPeersWithoutTx] keeps, in their order, the given
    peers whose id is still registered and who do not know the
    transaction; a peer unregistered since the list was taken is
    left out. *)
Theorem ConsensusPeersWithoutTx_keeps csPeers hash ps :
  sublist (ConsensusPeersWithoutTx st csPeers hash ps) csPeers
  /\ forall p,
       p ∈ ConsensusPeersWithoutTx st csPeers hash ps
       <-> p ∈ csPeers /\ is_Some (Peer (id p) ps)
           /\ hash ∉ knownTxs (st p).
Proof.
  rewrite ConsensusPeersWithoutTx_filter. split.
  - apply sublist_filter.
  - intros p. rewrite list_elem_of_filter. unfold Peer. tauto.
Qed.

(** X9: on a set driven from the empty one, filtering its own consensus
    peers gives the consensus peers among [PeersWithoutTx]. *)
Theorem consensus_filters_agree cs hash p :
  let ps := calls cs newPeerSet in
  p ∈ ConsensusPeersWithoutTx st (ConsensusPeers ps) hash ps
  <-> p ∈ PeersWithoutTx st hash ps /\ IsConsensus p = true.
Proof.
  intros ps. pose proof (keyed_calls cs newPeerSet keyed_new) as K.
  fold ps in K.
  rewrite ConsensusPeersWithoutTx_filter, list_elem_of_filter.
  unfold ConsensusPeers, PeersWithoutTx. rewrite !elem_of_range_append.
  split.
  - intros [[_ H1] (i & H2 & H3)]. split; [|done]. exists i. split; [done|].
    by apply negb_true_iff, bool_decide_eq_false.
  - intros [(i & H1 & H2) H3].
    apply negb_true_iff, bool_decide_eq_false in H2.
    split; [|by exists i]. split; [|done].
    rewrite (K _ _ H1). eauto.
Qed.

Lemma best_fold l2 l1 best :
  best_ok st l1 best -> best_ok st (l1 ++ l2) (fold_left (best_step st) l2 best).
Proof.
  revert l1 best; induction l2 as [|[i p] l2 IH]; intros l1 best H.
  - by rewrite app_nil_r.
  - simpl. replace (l1 ++ (i, p) :: l2) with ((l1 ++ [(i, p)]) ++ l2)
      by (by rewrite <- app_assoc).
    apply IH. unfold best_step, Head; simpl.
    destruct best as [[q n]|]; simpl in *.
    + destruct H as (Hn & [j Hj] & Hmax).
      destruct (bn (st p) >? n) eqn:E.
      * split; [done|]. split.
        { exists i. apply elem_of_app. right. apply list_elem_of_singleton. done. }
        intros k r Hk. apply elem_of_app in Hk as [Hk|Hk].
        -- apply Hmax in Hk. lia.
        -- apply list_elem_of_singleton in Hk. injection Hk as -> ->. lia.
      * split; [done|]. split.
        { exists j. apply elem_of_app. by left. }
        intros k r Hk. apply elem_of_app in Hk as [Hk|Hk].
        -- by apply Hmax in Hk.
        -- apply list_elem_of_singleton in Hk. injection Hk as -> ->. lia.
    + subst l1. simpl. split; [done|]. split.
      * exists i. apply list_elem_of_singleton. done.
      * intros k r Hk. apply list_elem_of_singleton in Hk.
        injection Hk as -> ->. lia.
Qed.

(** X10: [BestPeer] is nil only on an empty set, and otherwise a
    registered peer whose block number no registered peer exceeds. *)
Theorem BestPeer_is_highest ps :
  (BestPeer st ps = None <-> Len ps = 0)
  /\ forall p,
       BestPeer st ps = Some p ->
       (exists i, Peer i ps = Some p)
       /\ forall j q, Peer j ps = Some q -> bn (st q) <= bn (st p).
Proof.
  unfold BestPeer, Peer, Len.
  pose proof (best_fold (map_to_list (peers ps)) [] None eq_refl) as H.
  simpl in H.
  destruct (fold_left (best_step st) (map_to_list (peers ps)) None)
    as [[b n]|] eqn:E; simpl in *.
  - destruct H as (Hn & [i Hi] & Hmax). split.
    + split; [done|]. intros H0.
      assert (size (peers ps) = 0%nat) as H1 by lia.
      apply map_size_empty_inv in H1.
      apply elem_of_map_to_list in Hi. rewrite H1 in Hi.
      by rewrite lookup_empty in Hi.
    + intros p [= <-]. split.
      * exists i. by apply elem_of_map_to_list.
      * intros j q Hq. apply elem_of_map_to_list in Hq.
        apply Hmax in Hq. lia.
  - split; [|done]. split; [|done]. intros _.
    apply map_to_list_empty_iff in H. rewrite H. by rewrite map_size_empty.
Qed.

(** X11: whatever the engine, [PeersWithConsensus] is empty and
    [PeersWithoutConsensus] lists every registered peer. *)
Theorem consensus_split_ignores_engine {Engine : Type} (engine : Engine) ps :
  PeersWithConsensus engine ps = []
  /\ Z.of_nat (length (PeersWithoutConsensus engine ps)) = Len ps
  /\ forall p,
       p ∈ PeersWithoutConsensus engine ps <-> exists i, Peer i ps = Some p.
Proof.
  split; [done|]. unfold PeersWithoutConsensus, Peer, Len. split.
  - rewrite range_append_filter, length_fmap. f_equal.
    rewrite <- length_map_to_list. f_equal.
    induction (map_to_list (peers ps)) as [|kv l IH]; [done|].
    rewrite filter_cons, decide_True by (by rewrite lookup_empty).
    simpl. by rewrite IH.
  - intros p. rewrite elem_of_range_append. split.
    + intros (i & H & _). eauto.
    + intros [i H]. exists i. split; [done|]. by rewrite lookup_empty.
Qed.

End QueryFacts.

(** *** The sets of known hashes *)

Section KnownFacts.

Variable Pop : gset N -> gset N.

Hypothesis Pop_removes_one :
  forall s, s <> ∅ -> exists x, x ∈ s /\ Pop s = s ∖ {[x]}.

Lemma Cardinality_Pop s :
  s <> ∅ -> Cardinality (Pop s) = Cardinality s - 1 /\ Pop s ⊆ s.
Proof.
  intros H. destruct (Pop_removes_one s H) as (x & Hx & ->).
  unfold Cardinality.
  split; [|intros y Hy; by apply elem_of_difference in Hy as [Hy _]].
  rewrite size_difference by set_solver. rewrite size_singleton.
  assert (size s <> 0%nat); [|lia].
  intros H0. apply H, leibniz_equiv, size_empty_inv, H0.
Qed.

Lemma drain_subseteq full fuel s :
  full 0 = false -> drain Pop full fuel s ⊆ s.
Proof.
  intros F0. revert s; induction fuel as [|fuel IH]; intros s; simpl; [done|].
  destruct (full (Cardinality s)) eqn:E; [|done].
  assert (s <> ∅) as Hne.
  { intros ->. unfold Cardinality in E. rewrite size_empty in E.
    change (Z.of_nat 0) with 0 in E. congruence. }
  etrans; [apply IH|]. by apply Cardinality_Pop.
Qed.

(** With as much fuel as the set has elements the loop comes to its
    exit. *)
Lemma drain_exit full fuel s :
  full 0 = false ->
  (size s <= fuel)%nat ->
  full (Cardinality (drain Pop full fuel s)) = false.
Proof.
  intros F0. revert s; induction fuel as [|fuel IH]; intros s Hs; simpl.
  - unfold Cardinality. by replace (size s) with 0%nat by lia.
  - destruct (full (Cardinality s)) eqn:E; [|done].
    assert (s <> ∅) as Hne.
    { intros ->. unfold Cardinality in E. rewrite size_empty in E.
      change (Z.of_nat 0) with 0 in E. congruence. }
    apply IH. destruct (Cardinality_Pop s Hne) as [H _].
    unfold Cardinality in H. lia.
Qed.

Lemma drain_idle full fuel s :
  full (Cardinality s) = false -> drain Pop full fuel s = s.
Proof. intros H. destruct fuel; simpl; [done|]. by rewrite H. Qed.

Lemma Cardinality_Add hash s :
  Cardinality (Add hash s) <= Cardinality s + 1.
Proof.
  unfold Cardinality, Add. rewrite size_union_alt.
  assert (size ({[hash]} ∖ s) <= 1)%nat; [|lia].
  rewrite <- (size_singleton (C := gset N) hash).
  apply subseteq_size.
  intros y Hy. by apply elem_of_difference in Hy as [Hy _].
Qed.

Lemma AddAll_spec hashes s x :
  x ∈ AddAll hashes s <-> x ∈ s \/ x ∈ hashes.
Proof.
  unfold AddAll. revert s; induction hashes as [|h l IH]; intros s; simpl.
  - rewrite elem_of_nil. tauto.
  - rewrite IH. unfold Add.
    rewrite elem_of_union, elem_of_singleton, elem_of_cons. tauto.
Qed.

Lemma Cardinality_AddAll hashes s :
  Cardinality (AddAll hashes s) <= Cardinality s + Z.of_nat (length hashes).
Proof.
  unfold AddAll. revert s; induction hashes as [|h l IH]; intros s; simpl.
  - lia.
  - etrans; [apply IH|]. pose proof (Cardinality_Add h s). lia.
Qed.

(** X12: after [MarkBlock] the block is known, at most 1024
    blocks are, none of them new but the marked one; below the
    allowance nothing is forgotten. *)
Theorem MarkBlock_within_allowance hash s :
  let s' := MarkBlock Pop hash s in
  hash ∈ knownBlocks s'
  /\ Cardinality (knownBlocks s') <= maxKnownBlocks
  /\ knownBlocks s' ⊆ knownBlocks s ∪ {[hash]}
  /\ (Cardinality (knownBlocks s) < maxKnownBlocks ->
      knownBlocks s' = knownBlocks s ∪ {[hash]})
  /\ knownTxs s' = knownTxs s /\ Head s' = Head s.
Proof.
  simpl. set (full := fun c => c >=? maxKnownBlocks).
  assert (full 0 = false) as F0 by done.
  split; [unfold Add; set_solver|]. split.
  - pose proof (drain_exit full (size (knownBlocks s)) (knownBlocks s) F0
                  (le_n _)) as H.
    etrans; [apply Cardinality_Add|]. unfold full in *; cbv beta in H. lia.
  - split.
    + pose proof (drain_subseteq full (size (knownBlocks s)) (knownBlocks s) F0).
      unfold Add. by apply union_mono_r.
    + split; [|done]. intros Hlt. rewrite drain_idle; [done|].
      unfold full. lia.
Qed.

(** X13: the same for [MarkTransaction], with an allowance of 32768. *)
Theorem MarkTransaction_within_allowance hash s :
  let s' := MarkTransaction Pop hash s in
  hash ∈ knownTxs s'
  /\ Cardinality (knownTxs s') <= maxKnownTxs
  /\ knownTxs s' ⊆ knownTxs s ∪ {[hash]}
  /\ (Cardinality (knownTxs s) < maxKnownTxs ->
      knownTxs s' = knownTxs s ∪ {[hash]})
  /\ knownBlocks s' = knownBlocks s /\ Head s' = Head s.
Proof.
  simpl. set (full := fun c => c >=? maxKnownTxs).
  assert (full 0 = false) as F0 by done.
  split; [unfold Add; set_solver|]. split.
  - pose proof (drain_exit full (size (knownTxs s)) (knownTxs s) F0
                  (le_n _)) as H.
    etrans; [apply Cardinality_Add|]. unfold full in *; cbv beta in H. lia.
  - split.
    + pose proof (drain_subseteq full (size (knownTxs s)) (knownTxs s) F0).
      unfold Add. by apply union_mono_r.
    + split; [|done]. intros Hlt. rewrite drain_idle; [done|].
      unfold full. lia.
Qed.

(** X14: [SendPooledTransactionsRLP] marks every hash it is given and
    sends the transactions as they are; the known set stays within
    32768 when no more hashes than that are given, and within
    their number otherwise. *)
Theorem SendPooledTransactionsRLP_within_allowance hashes txs s :
  let r := SendPooledTransactionsRLP Pop hashes txs s in
  r.2 = PooledTxMsg txs
  /\ (forall h, h ∈ hashes -> h ∈ knownTxs r.1)
  /\ (forall h, h ∈ knownTxs r.1 -> h ∈ knownTxs s \/ h ∈ hashes)
  /\ Cardinality (knownTxs r.1)
     <= Z.max maxKnownTxs (Z.of_nat (length hashes)).
Proof.
  simpl. set (limit := max 0 (maxKnownTxs - Z.of_nat (length hashes))).
  set (full := fun c => c >? limit).
  assert (0 <= limit /\ maxKnownTxs - Z.of_nat (length hashes) <= limit
          /\ (limit = 0 \/ limit = maxKnownTxs - Z.of_nat (length hashes)))
    as (L0 & L1 & L2).
  { unfold limit, max.
    destruct (0 >? maxKnownTxs - Z.of_nat (length hashes)) eqn:E; lia. }
  assert (full 0 = false) as F0 by (unfold full; lia).
  split; [done|]. split; [|split].
  - intros h Hh. apply AddAll_spec. by right.
  - intros h Hh. apply AddAll_spec in Hh as [Hh|Hh]; [left|by right].
    by apply (drain_subseteq full (size (knownTxs s)) (knownTxs s) F0).
  - pose proof (drain_exit full (size (knownTxs s)) (knownTxs s) F0
                  (le_n _)) as H.
    etrans; [apply Cardinality_AddAll|]. unfold full in *; cbv beta in H. lia.
Qed.

End KnownFacts.

Lemma sample_Pop_removes_one s :
  s <> ∅ -> exists x, x ∈ s /\ sample_Pop s = s ∖ {[x]}.
Proof.
  intros H. unfold sample_Pop. destruct (elements s) as [|x l] eqn:E.
  - apply elements_empty_inv in E. destruct H. by apply leibniz_equiv.
  - exists x. split; [|done]. apply elem_of_elements. rewrite E. left.
Qed.

Lemma MarkBlock_within_allowance_witness :
  (forall s, s <> ∅ -> exists x, x ∈ s /\ sample_Pop s = s ∖ {[x]})
  /\ Cardinality (knownBlocks (MarkBlock sample_Pop 5%N (knows [] [3%N] 9)))
     <= maxKnownBlocks.
Proof.
  split; [exact sample_Pop_removes_one|].
  pose proof (MarkBlock_within_allowance sample_Pop sample_Pop_removes_one
                5%N (knows [] [3%N] 9)) as (_ & H & _).
  exact H.
Defined.

Lemma MarkTransaction_within_allowance_witness :
  (forall s, s <> ∅ -> exists x, x ∈ s /\ sample_Pop s = s ∖ {[x]})
  /\ Cardinality (knownTxs (MarkTransaction sample_Pop 5%N (knows [7%N] [] 9)))
     <= maxKnownTxs.
Proof.
  split; [exact sample_Pop_removes_one|].
  pose proof (MarkTransaction_within_allowance sample_Pop sample_Pop_removes_one
                5%N (knows [7%N] [] 9)) as (_ & H & _).
  exact H.
Defined.

Lemma SendPooledTransactionsRLP_within_allowance_witness :
  (forall s, s <> ∅ -> exists x, x ∈ s /\ sample_Pop s = s ∖ {[x]})
  /\ Cardinality
       (knownTxs (SendPooledTransactionsRLP sample_Pop [5%N; 6%N] []
                    (knows [7%N] [] 9)).1)
     <= Z.max maxKnownTxs (Z.of_nat (length [5%N; 6%N])).
Proof.
  split; [exact sample_Pop_removes_one|].
  pose proof (SendPooledTransactionsRLP_within_allowance sample_Pop
                sample_Pop_removes_one [5%N; 6%N] [] (knows [7%N] [] 9))
    as (_ & _ & _ & H).
  exact H.
Defined.

(** X15: once a block is marked for a peer, [PeersWithoutBlock] leaves
    that peer out, and lists the others as before. *)
Theorem marked_peer_is_left_out Pop st p hash ps q :
  let st' := update st p (MarkBlock Pop hash (st p)) in
  (p ∉ PeersWithoutBlock st' hash ps)
  /\ (q <> p ->
      q ∈ PeersWithoutBlock st' hash ps <-> q ∈ PeersWithoutBlock st hash ps).
Proof.
  intros st'. unfold PeersWithoutBlock. rewrite !elem_of_range_append. split.
  - intros (i & _ & H). apply negb_true_iff, bool_decide_eq_false in H.
    apply H. unfold st', update. rewrite decide_True by done.
    simpl. unfold Add. apply elem_of_union_r. by apply elem_of_singleton.
  - intros Hne. unfold st', update. rewrite decide_False by done. done.
Qed.

End PeerFacts.

(** ** miner/worker.go: the loops over whole runs *)

Module RunFacts.
Import Types Consensus Worker Runs WorkerFacts.

(** *** The table of pending tasks *)

(** X16: clearing the table for one block number and then for another
    clears it for the larger of the two; clearing only removes. *)
Theorem clearPending_twice {StateDB : Type} (n1 n2 : Z)
    (m : gmap Hash (@task StateDB)) :
  clearPending n2 (clearPending n1 m) = clearPending (Z.max n1 n2) m
  /\ clearPending n1 m ⊆ m.
Proof.
  split.
  - apply map_eq. intros k. rewrite !clearPending_lookup.
    destruct (m !! k) as [t|]; [|done]. unfold stale.
    destruct (Z.leb_spec (u64 (NumberU64 (task_block t) + staleThreshold)) n1),
             (Z.leb_spec (u64 (NumberU64 (task_block t) + staleThreshold)) n2),
             (Z.leb_spec (u64 (NumberU64 (task_block t) + staleThreshold))
                         (Z.max n1 n2)); try done; lia.
  - apply map_subseteq_spec. intros k t. rewrite clearPending_lookup.
    destruct (m !! k) as [t'|]; [|done]. by destruct (stale n1 t').
Qed.

(** *** newWorkLoop *)

Lemma nwl_commit_one_in_flight s b st :
  s <> commitInterruptNone ->
  one_in_flight st -> one_in_flight (nwl_commit s b st).
Proof.
  intros Hs (Hreq & Hsize & Hint & Hflags). unfold one_in_flight, nwl_commit.
  cbn [nw_newWorkCh nw_flags nw_interrupt].
  set (n := length (nw_newWorkCh st)) in *.
  set (flags := match nw_interrupt st with
                | Some p => <[p := s]> (nw_flags st)
                | None => nw_flags st
                end).
  assert (size flags = n) as Hsz.
  { unfold flags. rewrite Hint. destruct n as [|k]; [done|].
    specialize (Hflags k). destruct (nw_flags st !! k) as [v|] eqn:E; [|lia].
    rewrite map_size_insert_Some by (by rewrite E). done. }
  assert (forall p,
            match flags !! p with
            | Some v => (p < n)%nat /\ v <> commitInterruptNone
            | None => (n <= p)%nat
            end) as Hold.
  { intros p. unfold flags. rewrite Hint. destruct n as [|k].
    - specialize (Hflags p). destruct (nw_flags st !! p); [lia|done].
    - destruct (decide (p = k)) as [->|Hne].
      + rewrite lookup_insert_eq. split; [lia|done].
      + rewrite lookup_insert_ne by done. specialize (Hflags p).
        destruct (nw_flags st !! p) as [v|]; [|done].
        destruct Hflags as [H1 H2]. split; [done|]. intros Hv.
        apply H2 in Hv. lia. }
  rewrite Hsz, length_app, fmap_app, Hreq. cbn [length fmap list_fmap req_interrupt].
  fold n. replace (n + 1)%nat with (S n) by lia. split; [|split; [|split]].
  - by rewrite seq_S.
  - rewrite map_size_insert_None, Hsz; [done|].
    specialize (Hold n). destruct (flags !! n); [lia|done].
  - done.
  - intros p. destruct (decide (p = n)) as [->|Hne].
    + rewrite lookup_insert_eq. split; [lia|done].
    + rewrite lookup_insert_ne by done. specialize (Hold p).
      destruct (flags !! p) as [v|]; [|lia].
      destruct Hold as [H1 H2]. split; [lia|]. split; [done|lia].
Qed.

Lemma newWorkLoop_step_one_in_flight {StateDB : Type} i ev st st'
    (m m' : gmap Hash (@task StateDB)) :
  newWorkLoop_step i ev st m = Some (st', m') ->
  one_in_flight st -> one_in_flight st'.
Proof.
  intros H Hinv. destruct ev; cbn in H.
  - injection H as <- _. by apply nwl_commit_one_in_flight.
  - injection H as <- _. exact Hinv.
  - destruct (in_isRunning i), (in_isIstanbul i), (in_ShouldSeal i);
      injection H as <- _; try exact Hinv.
    by apply (nwl_commit_one_in_flight commitInterruptResubmit None st).
  - injection H as <- _. exact Hinv.
  - destruct (inc adjust); injection H as <- _; exact Hinv.
  - discriminate H.
Qed.

Lemma newWorkLoop_run_ind {StateDB : Type} (P : nwl_state -> Prop)
    (ok : nwl_input * nwl_event -> Prop) evs st
    (m : gmap Hash (@task StateDB)) :
  (forall i ev st st' (m m' : gmap Hash (@task StateDB)),
     ok (i, ev) -> newWorkLoop_step i ev st m = Some (st', m') ->
     P st -> P st') ->
  Forall ok evs -> P st -> P (newWorkLoop_run evs st m).1.
Proof.
  intros Hstep Hok. revert st m.
  induction Hok as [|[i ev] evs Hx Hok IH]; intros st m HP; [done|].
  simpl. destruct (newWorkLoop_step i ev st m) as [[st' m']|] eqn:E; [|done].
  apply IH. by apply (Hstep i ev st st' m m').
Qed.

(** X17: however the loop is driven, the work requests it has sent carry
    the flags 0, 1, 2, ... in order; the flag of the last request is
    the one the loop holds and is unset, and the flag of every earlier
    request has been set: one request at most is not interrupted. *)
Theorem newWorkLoop_one_request_in_flight {StateDB : Type} recommit evs
    (m : gmap Hash (@task StateDB)) :
  let st := (newWorkLoop recommit evs m).1 in
  let n := length (nw_newWorkCh st) in
  req_interrupt <$> nw_newWorkCh st = seq 0 n
  /\ nw_interrupt st = match n with O => None | S k => Some k end
  /\ forall p, (p < n)%nat ->
       exists v, nw_flags st !! p = Some v
                 /\ (v = commitInterruptNone <-> S p = n).
Proof.
  intros st n.
  assert (one_in_flight st) as (H1 & H2 & H3 & H4).
  { unfold st, newWorkLoop.
    apply (newWorkLoop_run_ind one_in_flight (fun _ => True)).
    - intros i ev s s' m0 m' _. apply newWorkLoop_step_one_in_flight.
    - by apply Forall_true.
    - unfold one_in_flight; cbn. split; [done|]. split; [done|].
      split; [done|]. intros p. rewrite lookup_empty. lia. }
  split; [done|]. split; [done|]. intros p Hp. specialize (H4 p).
  fold n in H4. destruct (nw_flags st !! p) as [v|]; [|lia].
  exists v. split; [done|]. apply H4.
Qed.

(** X18: an increase never takes the interval above the 15 seconds,
    whatever the interval and the target were; a decrease towards a
    minimum of at most [2^52] nanoseconds, which a double holds, never
    takes an interval of at most [2^52] nanoseconds below that
    minimum; an interval at or above the 15 seconds is set to them by
    an increase with a ratio in (0, 1], roundings included. *)
Theorem recalcRecommit_caps (minRecommit recommit : Z) (target r : spec_float) :
  (Float64.valid target = true ->
   recalcRecommit minRecommit recommit target true <= maxRecommitInterval)
  /\ (0 <= minRecommit <= 2 ^ 52 -> 0 <= recommit <= 2 ^ 52 ->
      minRecommit
      <= recalcRecommit minRecommit recommit (float64 minRecommit) false)
  /\ (maxRecommitInterval <= recommit <= 2 ^ 63 -> sound_ratio r ->
      recalcRecommit minRecommit recommit
        (Float64.div (float64 recommit) r) true
      = maxRecommitInterval).
Proof.
  split; [| split].
  - intros V. unfold recalcRecommit. apply capped_le.
    apply Float64Facts.add_valid.
    + apply Float64Facts.mul_valid; [apply Float64Facts.of_int_valid | reflexivity].
    + apply Float64Facts.mul_valid; [reflexivity |].
      apply Float64Facts.add_valid; [exact V | reflexivity].
  - intros Hm Hr.
    destruct (decrease_next minRecommit recommit (2 ^ 52)) as (V & F & _ & U);
      [lia | lia | lia |].
    exact (proj1 (floored_range _ minRecommit (2 ^ 52) Hm ltac:(lia) V F U)).
  - intros Hrec Hr.
    destruct (increase_next recommit maxRecommitInterval r Hr) as [V L];
      [unfold maxRecommitInterval, Second in *; lia
      | vm_compute; discriminate | lia |].
    apply (capped_max _ V).
    apply Float64Facts.at_least_weaken with (2 := L).
    rewrite <- Zle_Qle. vm_compute. discriminate.
Qed.

Lemma recalcRecommit_caps_witness :
  maxRecommitInterval <= 20 * Second <= 2 ^ 63
  /\ sound_ratio (Float64.decimal 1 2)
  /\ recalcRecommit (20 * Second) (20 * Second)
       (Float64.div (float64 (20 * Second)) (Float64.decimal 1 2)) true
     = maxRecommitInterval.
Proof.
  assert (H1 : maxRecommitInterval <= 20 * Second <= 2 ^ 63)
    by (split; vm_compute; discriminate).
  assert (H2 : sound_ratio (Float64.decimal 1 2)) by (repeat split).
  split; [exact H1 |]. split; [exact H2 |].
  exact (proj2 (proj2 (recalcRecommit_caps (20 * Second) (20 * Second)
                         (float64 0) (Float64.decimal 1 2))) H1 H2).
Defined.

(** What a turn of the loop keeps of the two intervals. *)
Lemma newWorkLoop_step_intervals {StateDB : Type} i ev st st'
    (m m' : gmap Hash (@task StateDB)) :
  sound_event (i, ev) ->
  newWorkLoop_step i ev st m = Some (st', m') ->
  minRecommitInterval <= nw_minRecommit st <= 2 ^ 52
  /\ minRecommitInterval <= nw_recommit st <= 2 ^ 52 ->
  minRecommitInterval <= nw_minRecommit st' <= 2 ^ 52
  /\ minRecommitInterval <= nw_recommit st' <= 2 ^ 52.
Proof.
  intros Hev H [Hmin Hrec].
  assert (M : minRecommitInterval = 1000000000) by reflexivity.
  assert (X : maxRecommitInterval = 15000000000) by reflexivity.
  assert (P52 : 2 ^ 52 = 4503599627370496) by reflexivity.
  destruct ev; cbn in H.
  - by injection H as <- _.
  - by injection H as <- _.
  - destruct (in_isRunning i), (in_isIstanbul i), (in_ShouldSeal i);
      by injection H as <- _.
  - injection H as <- _. cbn. unfold sound_event in Hev. cbn in Hev.
    destruct (Z.ltb_spec interval minRecommitInterval); lia.
  - unfold sound_event in Hev. cbn in Hev.
    destruct (inc adjust) eqn:Einc; injection H as <- _; cbn; (split; [done |]).
    + destruct (increase_next (nw_recommit st) minRecommitInterval (ratio adjust)
                  (Hev eq_refl)) as [V L]; [lia | lia | lia |].
      pose proof (capped_le _ V) as U.
      pose proof (capped_ge _ _ V L ltac:(lia)) as G.
      unfold recalcRecommit. fold intervalAdjustRatio in *.
      change (ema (float64 (nw_recommit st))
                (Float64.add (Float64.div (float64 (nw_recommit st)) (ratio adjust))
                   intervalAdjustBias))
        with (Float64.add
                (Float64.mul (float64 (nw_recommit st)) one_minus_intervalAdjustRatio)
                (Float64.mul intervalAdjustRatio
                   (Float64.add
                      (Float64.div (float64 (nw_recommit st)) (ratio adjust))
                      intervalAdjustBias))) in U, G.
      lia.
    + destruct (decrease_next (nw_minRecommit st) (nw_recommit st) (2 ^ 52))
        as (V & F & _ & U); [lia | lia | lia |].
      pose proof (floored_range _ (nw_minRecommit st) (2 ^ 52) ltac:(lia)
                    ltac:(lia) V F U) as G.
      unfold recalcRecommit.
      change (ema (float64 (nw_recommit st))
                (Float64.sub (float64 (nw_minRecommit st)) intervalAdjustBias))
        with (Float64.add
                (Float64.mul (float64 (nw_recommit st)) one_minus_intervalAdjustRatio)
                (Float64.mul intervalAdjustRatio
                   (Float64.sub (float64 (nw_minRecommit st)) intervalAdjustBias)))
        in G.
      lia.
  - discriminate H.
Qed.

(** X19: started by [newWorker] with an interval of at most [2^52]
    nanoseconds and fed its events, with increases whose ratio is a
    double in (0, 1] and with user intervals of at most [2^52]
    nanoseconds, the loop keeps the minimum and the interval at a
    second or more, and never arms the timer with less than 50
    milliseconds. *)
Theorem newWorkLoop_intervals {StateDB : Type} recommit evs
    (m : gmap Hash (@task StateDB)) :
  recommit <= 2 ^ 52 ->
  Forall sound_event evs ->
  let st := (newWorkLoop recommit evs m).1 in
  minRecommitInterval <= nw_minRecommit st
  /\ minRecommitInterval <= nw_recommit st
  /\ forall d, nw_timer st = Some d -> 50 * Millisecond <= d.
Proof.
  intros Hrec Hev st. unfold st, newWorkLoop.
  assert (G : let st := (newWorkLoop_run evs (newWorkLoop_init (sanitize recommit)) m).1 in
              (minRecommitInterval <= nw_minRecommit st <= 2 ^ 52
               /\ minRecommitInterval <= nw_recommit st <= 2 ^ 52)
              /\ forall d, nw_timer st = Some d -> 50 * Millisecond <= d).
  { apply (newWorkLoop_run_ind
             (fun st => (minRecommitInterval <= nw_minRecommit st <= 2 ^ 52
                         /\ minRecommitInterval <= nw_recommit st <= 2 ^ 52)
                        /\ forall d, nw_timer st = Some d -> 50 * Millisecond <= d)
             sound_event); [| exact Hev |].
    - clear. intros i ev st st' m m' Hok H (H12 & H3).
      pose proof (newWorkLoop_step_intervals i ev st st' m m' Hok H H12) as H45.
      split; [exact H45 |].
      assert (forall d, Some (nw_recommit st) = Some d -> 50 * Millisecond <= d)
        as Hrec.
      { intros d [= <-]. unfold minRecommitInterval, Second, Millisecond in *. lia. }
      destruct ev; cbn in H.
      + injection H as <- _. exact Hrec.
      + injection H as <- _. exact H3.
      + destruct (in_isRunning i), (in_isIstanbul i), (in_ShouldSeal i);
          injection H as <- _; cbn; try exact H3;
          intros d [= <-]; unfold Millisecond; lia.
      + injection H as <- _. exact H3.
      + destruct (inc adjust); injection H as <- _; exact H3.
      + discriminate H.
    - cbn. pose proof (sanitize_ge recommit).
      assert (sanitize recommit <= 2 ^ 52).
      { unfold sanitize. destruct (Z.ltb_spec recommit minRecommitInterval);
          [vm_compute; discriminate | exact Hrec]. }
      split; [split; split; assumption |].
      intros d Hd. discriminate Hd. }
  destruct G as ((G1 & G2) & G3).
  split; [exact (proj1 G1) |]. split; [exact (proj1 G2) | exact G3].
Qed.

Lemma newWorkLoop_intervals_witness :
  5 <= 2 ^ 52
  /\ Forall sound_event
       [({| in_now := 0; in_currentNumber := 0; in_isRunning := true;
            in_isIstanbul := true; in_ShouldSeal := true |},
         EvAdjust {| ratio := Float64.decimal 1 2; inc := true |})]
  /\ minRecommitInterval
     <= nw_recommit
          (newWorkLoop (StateDB := unit) 5
             [({| in_now := 0; in_currentNumber := 0; in_isRunning := true;
                  in_isIstanbul := true; in_ShouldSeal := true |},
               EvAdjust {| ratio := Float64.decimal 1 2; inc := true |})] ∅).1.
Proof.
  assert (5 <= 2 ^ 52) as H0 by (vm_compute; discriminate).
  assert (Forall sound_event
            [({| in_now := 0; in_currentNumber := 0; in_isRunning := true;
                 in_isIstanbul := true; in_ShouldSeal := true |},
              EvAdjust {| ratio := Float64.decimal 1 2; inc := true |})]) as H.
  { constructor; [| constructor]. intros _. repeat split. }
  split; [exact H0 |]. split; [exact H |].
  exact (proj1 (proj2 (newWorkLoop_intervals (StateDB := unit) 5 _ ∅ H0 H))).
Defined.

(** *** taskLoop *)

Section TaskRunFacts.

Context {StateDB : Type}.
Variable engine : Engine.
Variable skipSealHook : option (@task StateDB -> bool).
Variable IsProduceEmptyBlock : bool.

Lemma taskLoop_step_channels t st (m : gmap Hash (@task StateDB)) :
  channels_ok st ->
  channels_ok (taskLoop_step engine skipSealHook IsProduceEmptyBlock t st m).1.1.
Proof.
  intros (Hc & Hs & Hlt & Hcur & Hsealed). unfold taskLoop_step.
  destruct (N.eqb _ _); [done|].
  set (closed := match tl_stopCh st with
                 | Some c => tl_closed st ++ [c]
                 | None => tl_closed st
                 end).
  assert (NoDup closed) as Hc'.
  { unfold closed. destruct (tl_stopCh st) as [c|]; [|done].
    apply NoDup_app. split; [done|]. split; [|apply NoDup_singleton].
    intros x Hx Hx'. apply list_elem_of_singleton in Hx' as ->.
    by apply (Hcur c). }
  assert (forall c, c ∈ closed -> (c < tl_made st)%nat) as Hlt'.
  { unfold closed. intros c Hin. destruct (tl_stopCh st) as [c'|]; [|auto].
    apply elem_of_app in Hin as [Hin|Hin]; [auto|].
    apply list_elem_of_singleton in Hin as ->. by apply Hcur. }
  assert (forall b c, (b, c) ∈ tl_sealed st ->
                      (c < tl_made st)%nat /\ c ∈ closed) as Hsealed'.
  { intros b c Hin. destruct (Hsealed b c Hin) as [H1 [H2|H2]].
    - split; [done|]. unfold closed. destruct (tl_stopCh st); [|done].
      apply elem_of_app. by left.
    - split; [done|]. unfold closed. rewrite H2.
      apply elem_of_app. right. by apply list_elem_of_singleton. }
  assert (tl_made st ∉ closed) as Hfresh.
  { intros Hin. apply Hlt' in Hin. lia. }
  destruct (match skipSealHook with Some hook => hook t | None => false end);
    cbn [fst snd].
  - split; [done|]. split; [done|]. split; [intros c Hin; apply Hlt' in Hin; cbn; lia|].
    split.
    + intros c [= <-]. cbn. split; [lia|done].
    + intros b c Hin. cbn in *. destruct (Hsealed' b c Hin). split; [lia|by left].
  - split; [done|]. split.
    + cbn. rewrite fmap_app. apply NoDup_app. split; [done|].
      split; [|apply NoDup_singleton].
      intros x Hx Hx'. cbn in Hx'. apply list_elem_of_singleton in Hx' as ->.
      apply list_elem_of_fmap in Hx as [[b c] [E Hin]].
      destruct (Hsealed' b c Hin). cbn in E. lia.
    + split; [intros c Hin; apply Hlt' in Hin; cbn; lia|]. split.
      * intros c [= <-]. cbn. split; [lia|done].
      * intros b c Hin. cbn in *. apply elem_of_app in Hin as [Hin|Hin].
        -- destruct (Hsealed' b c Hin). split; [lia|by left].
        -- apply list_elem_of_singleton in Hin. injection Hin as -> ->.
           split; [lia|by right].
Qed.

Lemma taskLoop_run_channels ts st (m : gmap Hash (@task StateDB)) :
  channels_ok st ->
  channels_ok (taskLoop_run engine skipSealHook IsProduceEmptyBlock ts st m).1.
Proof.
  revert st m; induction ts as [|t ts IH]; intros st m H; [done|].
  simpl.
  pose proof (taskLoop_step_channels t st m H) as H'.
  destruct (taskLoop_step engine skipSealHook IsProduceEmptyBlock t st m)
    as [[st' m'] o].
  by apply IH.
Qed.

(** X20: whatever tasks arrive, no cancellation channel is closed
    twice, every block handed to [Seal] got a channel of its own, the
    channel of the seal in flight is open and every earlier seal has
    been cancelled; when the loop exits, every seal has. *)
Theorem taskLoop_cancels_all_but_last ts (m : gmap Hash (@task StateDB)) :
  let st := (taskLoop_run engine skipSealHook IsProduceEmptyBlock ts
               taskLoop_init m).1 in
  NoDup (tl_closed st)
  /\ NoDup (snd <$> tl_sealed st)
  /\ (forall c, tl_stopCh st = Some c -> c ∉ tl_closed st)
  /\ (forall b c, (b, c) ∈ tl_sealed st ->
                  c ∈ tl_closed st \/ tl_stopCh st = Some c)
  /\ NoDup (tl_closed (taskLoop_exit st))
  /\ forall b c, (b, c) ∈ tl_sealed (taskLoop_exit st) ->
                 c ∈ tl_closed (taskLoop_exit st).
Proof.
  intros st.
  assert (channels_ok st) as (Hc & Hs & Hlt & Hcur & Hsealed).
  { apply taskLoop_run_channels. unfold channels_ok; cbn.
    split; [constructor|]. split; [constructor|].
    split; [intros c Hin; by apply elem_of_nil in Hin|].
    split; [done|]. intros b c Hin. by apply elem_of_nil in Hin. }
  split; [done|]. split; [done|].
  split; [intros c Hc'; by apply Hcur|].
  split; [intros b c Hin; by apply (Hsealed b c)|].
  unfold taskLoop_exit. destruct (tl_stopCh st) as [c0|] eqn:E; cbn.
  - split.
    + apply NoDup_app. split; [done|]. split; [|apply NoDup_singleton].
      intros x Hx Hx'. apply list_elem_of_singleton in Hx' as ->.
      by apply (Hcur c0).
    + intros b c Hin. destruct (Hsealed b c Hin) as [_ [H|H]].
      * apply elem_of_app. by left.
      * injection H as ->. apply elem_of_app. right.
        by apply list_elem_of_singleton.
  - split; [done|]. intros b c Hin.
    by destruct (Hsealed b c Hin) as [_ [H|H]].
Qed.

End TaskRunFacts.

(** *** resultLoop *)

Section ResultRunFacts.

Context {StateDB Chain : Type}.
Variable HasBlock : Chain -> Hash -> Z -> bool.
Variable WriteBlockWithState :
  Chain -> Block -> list Receipt -> StateDB -> (Chain * WriteStatus) + string.
Variable engine : Engine.

Local Abbreviation rstep :=
  (resultLoop_step HasBlock WriteBlockWithState engine).

Lemma patch_receipts_twice h1 h2 rs :
  patch_receipts h2 (patch_receipts h1 rs) = patch_receipts h2 rs.
Proof.
  unfold patch_receipts. rewrite <- list_fmap_compose.
  apply list_fmap_ext. intros _ r _. unfold patch_receipt; cbn. f_equal.
  rewrite <- list_fmap_compose. by apply list_fmap_ext.
Qed.

Lemma resultLoop_step_ok m st0 st b :
  run_ok engine m st0 st -> run_ok engine m st0 (rstep b st).
Proof.
  intros (Htab & new & mined & Hw & Hm & Hsub & Hcalls).
  unfold resultLoop_step.
  destruct b as [block|]; [|by split; [|exists new, mined]].
  destruct (HasBlock _ _ _); [by split; [|exists new, mined]|].
  set (k := SealHash engine (Block_Header block)).
  destruct (rl_pendingTasks st !! k) as [t'|] eqn:E;
    [|by split; [|exists new, mined]].
  assert (exists t, m !! k = Some t /\ task_state t' = task_state t
                    /\ task_block t' = task_block t
                    /\ createdAt t' = createdAt t
                    /\ patch_receipts (Block_Hash block) (task_receipts t')
                       = patch_receipts (Block_Hash block) (task_receipts t))
    as (t & Hk & Hst & Hbl & Hcr & Hrc).
  { specialize (Htab k). rewrite E in Htab.
    destruct (m !! k) as [t|]; [|done]. exists t.
    destruct Htab as (H1 & H2 & H3 & [H4|[h H4]]); rewrite H4;
      rewrite ?patch_receipts_twice; done. }
  assert (patched_table m
            (<[k := set_receipts
                      (patch_receipts (Block_Hash block) (task_receipts t')) t']>
               (rl_pendingTasks st))) as Htab'.
  { intros j. destruct (decide (j = k)) as [->|Hne].
    - rewrite lookup_insert_eq, Hk. cbn. split; [done|]. split; [done|].
      split; [done|]. right. by exists (Block_Hash block).
    - rewrite lookup_insert_ne by done. apply Htab. }
  assert (forall call,
            call ∈ new ++ [{| wr_block := block;
                              wr_receipts :=
                                patch_receipts (Block_Hash block) (task_receipts t');
                              wr_state := task_state t' |}] ->
            exists t,
              m !! SealHash engine (Block_Header (wr_block call)) = Some t
              /\ wr_state call = task_state t
              /\ wr_receipts call
                 = patch_receipts (Block_Hash (wr_block call)) (task_receipts t))
    as Hcalls'.
  { intros call Hin. apply elem_of_app in Hin as [Hin|Hin]; [auto|].
    apply list_elem_of_singleton in Hin as ->. cbn. by exists t. }
  destruct (WriteBlockWithState _ _ _ _) as [[chain stat]|err]; cbn.
  - split; [done|]. eexists _, (mined ++ [block]).
    split; [by rewrite Hw, <- app_assoc|].
    split; [by rewrite Hm, <- app_assoc|]. split; [|done].
    rewrite fmap_app. by apply sublist_app.
  - split; [done|]. eexists _, mined.
    split; [by rewrite Hw, <- app_assoc|]. split; [done|]. split; [|done].
    rewrite fmap_app. by apply sublist_inserts_r.
Qed.

Lemma resultLoop_run_ok m st0 bs cur :
  run_ok engine m st0 cur ->
  run_ok engine m st0 (resultLoop_run HasBlock WriteBlockWithState engine bs cur).
Proof.
  revert cur; induction bs as [|b bs IH]; intros cur Hcur; [done|].
  simpl. apply IH. by apply resultLoop_step_ok.
Qed.

(** X21: over any run of results the table keeps its keys, and under
    each the task it held, with its state and block; every call of
    [WriteBlockWithState] is for a block whose seal hash has a task in
    the table, with that task's state and its receipts patched with
    the block's hash; and a block is announced as mined only after it
    was written. *)
Theorem resultLoop_writes_registered_tasks bs (st : @rl_state StateDB Chain) :
  let st' := resultLoop_run HasBlock WriteBlockWithState engine bs st in
  (forall k, is_Some (rl_pendingTasks st' !! k)
             <-> is_Some (rl_pendingTasks st !! k))
  /\ (forall k t', rl_pendingTasks st' !! k = Some t' ->
        exists t, rl_pendingTasks st !! k = Some t
                  /\ task_state t' = task_state t
                  /\ task_block t' = task_block t)
  /\ exists new mined,
       rl_writes st' = rl_writes st ++ new
       /\ rl_mined st' = rl_mined st ++ mined
       /\ sublist mined (wr_block <$> new)
       /\ forall call, call ∈ new ->
            exists t,
              rl_pendingTasks st
                !! SealHash engine (Block_Header (wr_block call)) = Some t
              /\ wr_state call = task_state t
              /\ wr_receipts call
                 = patch_receipts (Block_Hash (wr_block call)) (task_receipts t).
Proof.
  intros st'.
  assert (run_ok engine (rl_pendingTasks st) st st') as [Htab Hrest].
  { unfold st'.
    assert (run_ok engine (rl_pendingTasks st) st st) as H0.
    { split.
      - intros k. destruct (rl_pendingTasks st !! k); [|done].
        split; [done|]. split; [done|]. split; [done|]. by left.
      - exists [], []. rewrite !app_nil_r. split; [done|]. split; [done|].
        split; [constructor|]. intros call Hin. by apply elem_of_nil in Hin. }
    by apply resultLoop_run_ok. }
  split; [|split; [|done]].
  - intros k. specialize (Htab k).
    destruct (rl_pendingTasks st !! k), (rl_pendingTasks st' !! k);
      try done; split; intros [? ?]; done || eauto.
  - intros k t' Hk. specialize (Htab k). rewrite Hk in Htab.
    destruct (rl_pendingTasks st !! k) as [t|]; [|done].
    exists t. destruct Htab as (H1 & H2 & _). done.
Qed.

Variable skipSealHook : option (@task StateDB -> bool).
Variable IsProduceEmptyBlock : bool.

(** X22: a task that [taskLoop] processes and registers is what
    [resultLoop] writes when the sealed block, not yet in the chain,
    comes back with the task's seal hash: the block goes to
    [WriteBlockWithState] with the task's state and its receipts,
    patched with the block's hash.  A processed task that is not
    registered (an empty block, while none are produced) and has no
    entry from before has its sealed block dropped. *)
Theorem sealed_task_is_written t tl (m : gmap Hash (@task StateDB)) block
    (st : @rl_state StateDB Chain) :
  let turn := taskLoop_step engine skipSealHook IsProduceEmptyBlock t tl m in
  turn.2 = Processed ->
  rl_pendingTasks st = turn.1.2 ->
  SealHash engine (Block_Header block) = sealHashOf engine t ->
  HasBlock (rl_chain st) (Block_Hash block) (NumberU64 block) = false ->
  (Block_Transactions (task_block t) <> [] \/ IsProduceEmptyBlock = true ->
   rl_writes (rstep (Some block) st)
   = rl_writes st
     ++ [{| wr_block := block;
            wr_receipts := patch_receipts (Block_Hash block) (task_receipts t);
            wr_state := task_state t |}])
  /\ (Block_Transactions (task_block t) = [] -> IsProduceEmptyBlock = false ->
      m !! sealHashOf engine t = None ->
      rstep (Some block) st = st).
Proof.
  intros turn Hp Htab Hseal Hhas.
  assert (turn.1.2
          = if negb (VM.len (Block_Transactions (task_block t)) =? 0)
               || IsProduceEmptyBlock
            then <[sealHashOf engine t := t]> m else m) as Hm.
  { unfold turn, taskLoop_step in *.
    destruct (N.eqb _ _); [discriminate Hp|].
    destruct (match skipSealHook with Some hook => hook t | None => false end);
      [discriminate Hp|]. done. }
  rewrite Hm in Htab. unfold resultLoop_step. rewrite Hhas, Hseal, Htab.
  unfold VM.len. split.
  - intros Hreg.
    assert (negb (Z.of_nat (length (Block_Transactions (task_block t))) =? 0)
            || IsProduceEmptyBlock = true) as ->.
    { destruct Hreg as [Hne| ->]; [|by rewrite orb_true_r].
      destruct (Block_Transactions (task_block t)); done. }
    rewrite lookup_insert_eq.
    by destruct (WriteBlockWithState _ _ _ _) as [[chain stat]|err].
  - intros -> -> Hnone. cbn. unfold sealHashOf in *.
    replace (negb (Z.of_nat 0 =? 0) || false) with false by done.
    by rewrite Hnone.
Qed.

End ResultRunFacts.

Lemma sealed_task_is_written_witness :
  rl_writes
    (resultLoop_step Samples.sample_HasBlock Samples.sample_Write
       Samples.other_engine (Some (Samples.block_at 9 0 99%N))
       {| rl_chain := [Samples.parent7];
          rl_pendingTasks :=
            (taskLoop_step Samples.other_engine None false Samples.task_with_tx
               taskLoop_init ∅).1.2;
          rl_writes := []; rl_mined := []; rl_events := [] |})
  = [] ++ [{| wr_block := Samples.block_at 9 0 99%N;
              wr_receipts :=
                patch_receipts 99%N (task_receipts Samples.task_with_tx);
              wr_state := tt |}].
Proof.
  refine (proj1 (sealed_task_is_written Samples.sample_HasBlock
                   Samples.sample_Write Samples.other_engine None false
                   Samples.task_with_tx taskLoop_init ∅
                   (Samples.block_at 9 0 99%N)
                   {| rl_chain := [Samples.parent7];
                      rl_pendingTasks :=
                        (taskLoop_step Samples.other_engine None false
                           Samples.task_with_tx taskLoop_init ∅).1.2;
                      rl_writes := []; rl_mined := []; rl_events := [] |}
                   _ _ _ _) _).
  - reflexivity.
  - reflexivity.
  - reflexivity.
  - reflexivity.
  - left. discriminate.
Defined.

End RunFacts.

(** ** miner/worker.go: the execution cycle and commitNewWork *)

Module SealingFacts.
Import Types Consensus Worker Sealing WorkerFacts.

Lemma succeeded_app l1 l2 : succeeded (l1 ++ l2) = succeeded l1 ++ succeeded l2.
Proof. unfold succeeded. by rewrite filter_app, fmap_app. Qed.

(** *** The split of the pending transactions *)

Lemma split_step_ok pending seen x r :
  split_ok seen pending r -> split_ok (seen ++ [x]) pending (split_step r x).
Proof.
  intros H. destruct r as [l rm]. intros a. pose proof (H a) as Ha.
  pose proof (H x) as Hx. unfold split_step. cbn in *.
  destruct (pending !! a) as [txs|] eqn:E.
  - destruct (decide (a = x)) as [->|Hne].
    + rewrite E in Hx.
      destruct (bool_decide (x ∈ seen /\ txs <> [])) eqn:B.
      * apply bool_decide_eq_true in B as [B1 B2].
        rewrite bool_decide_eq_true_2
          by (split; [apply elem_of_app; by left | done]).
        destruct Hx as [Hx1 Hx2]. by rewrite Hx2.
      * apply bool_decide_eq_false in B.
        destruct Hx as [Hx1 Hx2]. rewrite Hx2. unfold VM.len.
        destruct txs as [|t txs]; cbn.
        -- rewrite bool_decide_eq_false_2 by (by intros [_ ?]).
           split; [exact Hx1 | reflexivity || exact Hx2].
        -- rewrite bool_decide_eq_true_2
             by (split; [apply elem_of_app; right; by left | done]).
           replace (0 <? Z.of_nat (S (length txs))) with true by (symmetry; apply Z.ltb_lt; lia).
           cbn. by rewrite lookup_insert_eq, lookup_delete_eq.
    + assert (bool_decide (a ∈ seen ++ [x] /\ txs <> [])
              = bool_decide (a ∈ seen /\ txs <> [])) as ->.
      { apply bool_decide_ext. rewrite elem_of_app, list_elem_of_singleton.
        tauto. }
      destruct (rm !! x) as [tx'|]; [|done].
      destruct (0 <? VM.len tx'); [|done]. cbn.
      by rewrite lookup_insert_ne, lookup_delete_ne.
  - destruct (rm !! x) as [tx'|] eqn:Ex; [|done].
    destruct (0 <? VM.len tx'); [|done]. cbn.
    destruct (decide (a = x)) as [->|Hne].
    + destruct Ha as [_ Ha]. congruence.
    + by rewrite lookup_insert_ne, lookup_delete_ne.
Qed.

Lemma split_fold_ok pending locals seen r :
  split_ok seen pending r ->
  split_ok (seen ++ locals) pending (fold_left split_step locals r).
Proof.
  revert seen r; induction locals as [|x locals IH]; intros seen r H.
  - by rewrite app_nil_r.
  - simpl. replace (seen ++ x :: locals) with ((seen ++ [x]) ++ locals)
      by (by rewrite <- app_assoc).
    by apply IH, split_step_ok.
Qed.

Lemma split_pending_ok locals pending :
  split_ok locals pending (split_pending locals pending).
Proof.
  apply (split_fold_ok pending locals [] (∅, pending)).
  intros a. destruct (pending !! a) as [txs|] eqn:E; cbn; [|by rewrite E].
  rewrite bool_decide_eq_false_2.
  - by rewrite lookup_empty, E.
  - intros [H _]. by apply elem_of_nil in H.
Qed.

(** X23: the split is a partition of the pending transactions: no
    account is in both parts, together the parts are the pending
    transactions, and the locals are exactly the accounts the pool
    names as local that have a transaction. *)
Theorem split_pending_partition locals pending :
  let '(localTxs, remoteTxs) := split_pending locals pending in
  localTxs ##ₘ remoteTxs
  /\ localTxs ∪ remoteTxs = pending
  /\ forall a txs,
       localTxs !! a = Some txs
       <-> pending !! a = Some txs /\ a ∈ locals /\ txs <> [].
Proof.
  pose proof (split_pending_ok locals pending) as H.
  destruct (split_pending locals pending) as [l r]. cbn in H.
  split; [|split].
  - apply map_disjoint_spec. intros a x y Hx Hy. specialize (H a); cbn in H.
    destruct (pending !! a) as [txs|].
    + destruct (bool_decide _); destruct H; congruence.
    + destruct H; congruence.
  - apply map_eq. intros a. specialize (H a); cbn in H. rewrite lookup_union.
    destruct (pending !! a) as [txs|].
    + destruct (bool_decide _); destruct H as [-> ->]; done.
    + by destruct H as [-> ->].
  - intros a txs. specialize (H a); cbn in H. destruct (pending !! a) as [txs'|].
    + destruct (bool_decide (a ∈ locals /\ txs' <> [])) eqn:B.
      * apply bool_decide_eq_true in B as [B1 B2]. destruct H as [-> _].
        split; [intros [= <-]; done | intros [[= <-] _]; done].
      * apply bool_decide_eq_false in B. destruct H as [-> _].
        split; [done|]. intros [[= <-] [H1 H2]]. by destruct B.
    + destruct H as [-> _]. split; [done | by intros [? _]].
Qed.


(** *** The execution cycle *)

Section CycleMore.

Context {StateDB : Type}.
Variable StateDB_Prepare : Hash -> Hash -> Z -> StateDB -> StateDB.
Variable Snapshot : StateDB -> Z.
Variable RevertToSnapshot : Z -> StateDB -> StateDB.
Variable ApplyTransaction :
  Address -> Z -> StateDB -> Header -> Transaction -> @applied StateDB.
Variable TxGas : Z.
Variable coinbase : Address.

Local Abbreviation lp :=
  (loop StateDB_Prepare Snapshot RevertToSnapshot ApplyTransaction TxGas coinbase).
Local Abbreviation exec :=
  (execute StateDB_Prepare Snapshot RevertToSnapshot ApplyTransaction coinbase).
Local Abbreviation cycle_of :=
  (commitTransactionsWithHeader StateDB_Prepare Snapshot RevertToSnapshot
     ApplyTransaction TxGas).

Lemma set_GasUsed_twice g1 g2 h :
  set_GasUsed g2 (set_GasUsed g1 h) = set_GasUsed g2 h.
Proof. done. Qed.

Lemma set_GasUsed_same h : h = set_GasUsed (GasUsed h) h.
Proof. by destruct h. Qed.

Lemma execute_grown tx (s : @loop_state StateDB) :
  grown 1 (ls_env s) (ls_env (exec tx s)) (ls_extdb s) (ls_extdb (exec tx s))
  /\ ls_adjust (exec tx s) = ls_adjust s.
Proof.
  assert (forall v,
            attempted [Monitor TransactionExecuteStartTime tx "";
                       Monitor TransactionExecuteEndTime tx "";
                       Monitor TransactionExecuteStatus tx v] = [tx])
    as Hatt by done.
  assert (succeeded [Monitor TransactionExecuteStartTime tx "";
                     Monitor TransactionExecuteEndTime tx "";
                     Monitor TransactionExecuteStatus tx "true"] = [tx])
    as Htrue by done.
  assert (succeeded [Monitor TransactionExecuteStartTime tx "";
                     Monitor TransactionExecuteEndTime tx "";
                     Monitor TransactionExecuteStatus tx "false"] = [])
    as Hfalse by done.
  unfold execute, run_tx, commitTransaction. cbn.
  destruct (ap_result _) as [receipt | [| | | msg]]; cbn;
    (split; [|done]).
  - exists [Monitor TransactionExecuteStartTime tx "";
            Monitor TransactionExecuteEndTime tx "";
            Monitor TransactionExecuteStatus tx "true"].
    rewrite Htrue, Hatt. cbn. rewrite length_app. cbn.
    split; [by rewrite <- !app_assoc|]. do 4 (split; [done|]). done.
  - exists [Monitor TransactionExecuteStartTime tx "";
            Monitor TransactionExecuteEndTime tx "";
            Monitor TransactionExecuteStatus tx "false"].
    rewrite Hfalse, Hatt, app_nil_r. cbn.
    split; [by rewrite <- !app_assoc|]. split; [done|]. split; [lia|].
    split; [apply sublist_nil_l|]. done.
  - exists [Monitor TransactionExecuteStartTime tx "";
            Monitor TransactionExecuteEndTime tx "";
            Monitor TransactionExecuteStatus tx "false"].
    rewrite Hfalse, Hatt, app_nil_r. cbn.
    split; [by rewrite <- !app_assoc|]. split; [done|]. split; [lia|].
    split; [apply sublist_nil_l|]. done.
  - exists [Monitor TransactionExecuteStartTime tx "";
            Monitor TransactionExecuteEndTime tx "";
            Monitor TransactionExecuteStatus tx "false"].
    rewrite Hfalse, Hatt, app_nil_r. cbn.
    split; [by rewrite <- !app_assoc|]. split; [done|]. split; [lia|].
    split; [apply sublist_nil_l|]. done.
  - exists [Monitor TransactionExecuteStartTime tx "";
            Monitor TransactionExecuteEndTime tx "";
            Monitor TransactionExecuteStatus tx "false"].
    rewrite Hfalse, Hatt, app_nil_r. cbn.
    split; [by rewrite <- !app_assoc|]. split; [done|]. split; [lia|].
    split; [apply sublist_nil_l|]. done.
Qed.

Lemma grown_refl n (env : @environment StateDB) log : grown n env env log log.
Proof.
  exists []. rewrite !app_nil_r. cbn. split; [done|]. split; [done|].
  split; [lia|]. split; [constructor|]. split; [lia|]. apply set_GasUsed_same.
Qed.

Lemma grown_trans n1 n2 (e1 e2 e3 : @environment StateDB) l1 l2 l3 :
  grown n1 e1 e2 l1 l2 -> grown n2 e2 e3 l2 l3 -> grown (n1 + n2) e1 e3 l1 l3.
Proof.
  intros (a & Ha1 & Ha2 & Ha3 & Ha4 & Ha5 & Ha6)
         (b & Hb1 & Hb2 & Hb3 & Hb4 & Hb5 & Hb6).
  exists (a ++ b). rewrite succeeded_app, attempted_app, !length_app.
  split; [by rewrite Hb1, Ha1, app_assoc|].
  split; [by rewrite Hb2, Ha2, app_assoc|].
  split; [lia|]. split; [by apply sublist_app|]. split; [lia|].
  rewrite Hb6, Ha6. done.
Qed.

Lemma loop_grown interrupt fuel (s s' : @loop_state StateDB) e :
  lp interrupt fuel s = Some (s', e) ->
  grown (remaining (ls_txs s)) (ls_env s) (ls_env s') (ls_extdb s) (ls_extdb s').
Proof.
  revert s. induction fuel as [|fuel IH]; intros s H; [discriminate|].
  rewrite loop_unfold in H.
  destruct (check_interrupt interrupt s) as [s1 r] eqn:Ec.
  apply check_interrupt_keeps in Ec as (He & Ht & Hx & _).
  assert (s' = s1 -> grown (remaining (ls_txs s)) (ls_env s) (ls_env s')
                       (ls_extdb s) (ls_extdb s')) as Stop.
  { intros ->. rewrite He, Hx. apply grown_refl. }
  destruct r as [b|]; [injection H as <- _; auto|].
  destruct (Gas (ls_env s1) <? TxGas); [injection H as <- _; auto|].
  destruct (Peek (ls_txs s1)) as [tx|] eqn:Ep; [|injection H as <- _; auto].
  apply IH in H. destruct (execute_grown tx s1) as [G _].
  pose proof (execute_remaining StateDB_Prepare Snapshot RevertToSnapshot
                ApplyTransaction coinbase tx s1 Ep) as Hrem.
  pose proof (grown_trans _ _ _ _ _ _ _ _ G H) as G'.
  rewrite He, Hx in G'. rewrite Ht in Hrem.
  destruct G' as (new & H1 & H2 & H3 & H4 & H5 & H6).
  exists new. do 4 (split; [done|]). split; [lia|done].
Qed.

Lemma cycle_grown (w : @worker StateDB) hdr txset interrupt env :
  current w = Some env ->
  exists c env',
    cycle_of w hdr txset coinbase interrupt = Some c
    /\ current (cy_worker c) = Some env'
    /\ running (cy_worker c) = running w
    /\ grown (remaining txset) env env' (extdb w) (extdb (cy_worker c)).
Proof.
  intros Hcur. unfold commitTransactionsWithHeader. rewrite Hcur.
  match goal with
  | |- context [loop _ _ _ _ _ _ _ (S (remaining txset)) ?s] =>
      destruct (loop_total StateDB_Prepare Snapshot RevertToSnapshot
                  ApplyTransaction TxGas coinbase interrupt
                  (S (remaining txset)) s) as [[s' e] E];
        [cbn; lia | rewrite E; apply loop_grown in E]
  end.
  cbn in E.
  assert (grown (remaining txset) env (ls_env s') (extdb w) (ls_extdb s')) as G.
  { destruct E as (new & H1 & H2 & H3 & H4 & H5 & H6).
    exists new. destruct (gasPool env); cbn in *; done. }
  destruct e; eexists _, (ls_env s'); (split; [reflexivity|]); cbn; done.
Qed.

(** X24: a call of [commitTransactionsWithHeader] comes to an end.
    Without an environment it changes nothing and answers true.
    Otherwise the environment's transactions grow by the
    transactions the monitor records as executed with success, in
    that order, its receipts by as many; these are among the
    transactions whose execution was started, which are no more than
    the set held; and of the header only [GasUsed] changes. *)
Theorem cycle_includes_the_successes (w : @worker StateDB) hdr txset interrupt :
  exists c,
    cycle_of w hdr txset coinbase interrupt = Some c
    /\ match current w with
       | None => c = {| cy_worker := w; cy_txs := txset; cy_exit := None;
                        cy_return := true |}
       | Some env =>
           exists env' new,
             current (cy_worker c) = Some env'
             /\ extdb (cy_worker c) = extdb w ++ new
             /\ txs env' = txs env ++ succeeded new
             /\ length (receipts env')
                = (length (receipts env) + length (succeeded new))%nat
             /\ sublist (succeeded new) (attempted new)
             /\ (length (attempted new) <= remaining txset)%nat
             /\ Worker.header env'
                = set_GasUsed (GasUsed (Worker.header env')) (Worker.header env)
       end.
Proof.
  destruct (current w) as [env|] eqn:Hcur.
  - destruct (cycle_grown w hdr txset interrupt env Hcur)
      as (c & env' & H1 & H2 & _ & new & H3).
    exists c. split; [done|]. by exists env', new.
  - unfold commitTransactionsWithHeader. rewrite Hcur. by eexists.
Qed.

Lemma cycle_attempts (w : @worker StateDB) hdr txset interrupt env :
  current w = Some env ->
  wf_txset txset ->
  exists c env' new,
    cycle_of w hdr txset coinbase interrupt = Some c
    /\ current (cy_worker c) = Some env'
    /\ extdb (cy_worker c) = extdb w ++ new
    /\ forall t, t ∈ attempted new -> tx_from t ∈ tx_from <$> tp_heads txset.
Proof.
  intros Hcur Hwf. unfold commitTransactionsWithHeader. rewrite Hcur.
  match goal with
  | |- context [loop _ _ _ _ _ _ _ (S (remaining txset)) ?s] =>
      destruct (loop_total StateDB_Prepare Snapshot RevertToSnapshot
                  ApplyTransaction TxGas coinbase interrupt
                  (S (remaining txset)) s) as [[s' e] E];
        [cbn; lia | rewrite E; apply loop_attempts in E; [|exact Hwf]]
  end.
  destruct E as (new & Hnew & Hall). cbn in Hnew, Hall.
  destruct e; eexists _, (ls_env s'), new; (split; [reflexivity|]); cbn; done.
Qed.

Lemma loop_adjust interrupt fuel (s s' : @loop_state StateDB) e :
  lp interrupt fuel s = Some (s', e) ->
  match e with
  | Returned b =>
      interrupt <> None
      /\ (ls_adjust s' = ls_adjust s
          \/ exists r, ls_adjust s' = ls_adjust s ++ [{| ratio := r; inc := true |}]
                       /\ Float64.lt r (Float64.decimal 1 10) = false)
  | _ => ls_adjust s' = ls_adjust s
  end.
Proof.
  revert s. induction fuel as [|fuel IH]; intros s H; [discriminate|].
  rewrite loop_unfold in H.
  destruct (check_interrupt interrupt s) as [s1 r] eqn:Ec.
  assert (match r with
          | Some _ =>
              interrupt <> None
              /\ (ls_adjust s1 = ls_adjust s
                  \/ exists r, ls_adjust s1
                               = ls_adjust s ++ [{| ratio := r; inc := true |}]
                               /\ Float64.lt r (Float64.decimal 1 10) = false)
          | None => ls_adjust s1 = ls_adjust s
          end) as Hc.
  { unfold check_interrupt in Ec. destruct interrupt as [flag|].
    - destruct (flag (ls_loads s) =? commitInterruptNone).
      + by injection Ec as <- <-.
      + injection Ec as <- <-. split; [done|].
        destruct (flag (S (ls_loads s)) =? commitInterruptResubmit); cbn.
        * right. eexists. split; [done|]. apply resubmit_ratio_floor.
        * by left.
    - by injection Ec as <- <-. }
  destruct r as [b|]; [by injection H as <- <-|].
  destruct (Gas (ls_env s1) <? TxGas); [by injection H as <- <-|].
  destruct (Peek (ls_txs s1)) as [tx|] eqn:Ep; [|by injection H as <- <-].
  apply IH in H. destruct (execute_grown tx s1) as [_ Ha].
  rewrite Ha, Hc in H. done.
Qed.

(** X25: what a call sends on [resubmitAdjustCh].  Left at the
    interrupt check, which needs a flag, it sends nothing or one
    increase with a ratio that is not below a tenth (a tenth or
    more, or the NaN of a gas limit of zero); left at the end of the
    loop it answers false and sends one decrease when it was given a
    flag and nothing when it was not. *)
Theorem one_adjustment_per_call (w : @worker StateDB) hdr txset interrupt :
  exists c,
    cycle_of w hdr txset coinbase interrupt = Some c
    /\ match cy_exit c with
       | None => current w = None
                 /\ resubmitAdjustCh (cy_worker c) = resubmitAdjustCh w
       | Some (Returned b) =>
           interrupt <> None /\ cy_return c = b
           /\ (resubmitAdjustCh (cy_worker c) = resubmitAdjustCh w
               \/ exists r,
                    resubmitAdjustCh (cy_worker c)
                    = resubmitAdjustCh w ++ [{| ratio := r; inc := true |}]
                    /\ Float64.lt r (Float64.decimal 1 10) = false)
       | Some _ =>
           cy_return c = false
           /\ resubmitAdjustCh (cy_worker c)
              = resubmitAdjustCh w
                ++ match interrupt with
                   | Some _ => [{| ratio := S754_zero false; inc := false |}]
                   | None => []
                   end
       end.
Proof.
  unfold commitTransactionsWithHeader.
  destruct (current w) as [env|] eqn:Hcur; [|by eexists].
  match goal with
  | |- context [loop _ _ _ _ _ _ _ (S (remaining txset)) ?s] =>
      destruct (loop_total StateDB_Prepare Snapshot RevertToSnapshot
                  ApplyTransaction TxGas coinbase interrupt
                  (S (remaining txset)) s) as [[s' e] E];
        [cbn; lia | rewrite E; apply loop_adjust in E]
  end.
  cbn in E.
  destruct e; eexists; (split; [reflexivity|]); cbn.
  - destruct E as [E1 E2]. done.
  - split; [done|]. rewrite E. destruct interrupt; [done|by rewrite app_nil_r].
  - split; [done|]. rewrite E. destruct interrupt; [done|by rewrite app_nil_r].
Qed.

End CycleMore.


(** *** commitNewWork *)

Section CommitNewWorkFacts.

Context {StateDB : Type}.
Variable StateDB_Prepare : Hash -> Hash -> Z -> StateDB -> StateDB.
Variable Snapshot : StateDB -> Z.
Variable RevertToSnapshot : Z -> StateDB -> StateDB.
Variable ApplyTransaction :
  Address -> Z -> StateDB -> Header -> Transaction -> @applied StateDB.
Variable TxGas : Z.
Variable StateDB_Copy : StateDB -> StateDB.
Variable NewBlock : Header -> list Transaction -> list Receipt -> Block.
Variable CalcGasLimit : Block -> Z -> Z -> Z.
Variable StateAt : Block -> StateDB + string.
Variable Finalize :
  Header -> StateDB -> list Transaction -> list Receipt
  -> (Block + string) * StateDB.

Local Abbreviation batch_of :=
  (batch StateDB_Prepare Snapshot RevertToSnapshot ApplyTransaction TxGas).
Local Abbreviation commit_of := (commit StateDB_Copy NewBlock Finalize).
Local Abbreviation commitNewWork_of :=
  (commitNewWork StateDB_Prepare Snapshot RevertToSnapshot ApplyTransaction
     TxGas StateDB_Copy NewBlock CalcGasLimit StateAt Finalize).

Lemma batch_grown header coinbase accounts intr (m : @miner StateDB) env :
  current (m_worker m) = Some env ->
  exists m2 ok env2 n,
    batch_of header coinbase accounts intr m = Some (m2, ok)
    /\ current (m_worker m2) = Some env2
    /\ running (m_worker m2) = running (m_worker m)
    /\ grown n env env2 (extdb (m_worker m)) (extdb (m_worker m2))
    /\ snapshotBlock m2 = snapshotBlock m
    /\ snapshotState m2 = snapshotState m
    /\ taskCh m2 = taskCh m.
Proof.
  intros Hcur. unfold batch. destruct (0 <? Z.of_nat (size accounts)).
  - destruct (cycle_grown StateDB_Prepare Snapshot RevertToSnapshot
                ApplyTransaction TxGas coinbase (m_worker m) header
                (NewTransactionsByPriceAndNonce accounts) intr env Hcur)
      as (c & env2 & H1 & H2 & H3 & H4).
    rewrite H1. by eexists _, _, env2, _.
  - exists m, false, env, 0%nat. do 3 (split; [done|]).
    split; [apply grown_refl|done].
Qed.

Lemma commit_spec now sent (m : @miner StateDB) env :
  current (m_worker m) = Some env ->
  exists m' err,
    commit_of true now sent m = Some (m', err)
    /\ running (m_worker m') = running (m_worker m)
    /\ extdb (m_worker m') = extdb (m_worker m)
    /\ match Finalize (Worker.header env) (env_state env) (txs env) (receipts env) with
       | (inr e, s) => err = Some e /\ taskCh m' = taskCh m
       | (inl block, s) =>
           err = None
           /\ snapshotBlock m' = Some block
           /\ snapshotState m' = Some (StateDB_Copy s)
           /\ taskCh m'
              = taskCh m
                ++ (if running (m_worker m) && sent
                    then [{| task_receipts := receipts env; task_state := s;
                             task_block := block; createdAt := now |}]
                    else [])
       end.
Proof.
  intros Hcur. unfold commit. rewrite Hcur.
  destruct (Finalize _ _ _ _) as [[block|e] s]; cbn.
  - destruct (running (m_worker m) && sent); cbn; eexists _, _;
      (split; [reflexivity|]); cbn; rewrite ?app_nil_r; done.
  - by eexists _, _.
Qed.

(** X26: [commitNewWork] comes to an end and leaves [running] alone.
    It sends at most one task, and only while the worker runs: the
    block of the task is what [Finalize] made of the prepared header
    (with the gas used), of the transactions this call executed with
    success, in their order, and of a receipt for each; the task
    carries those receipts and the state [Finalize] left, and the
    snapshot becomes that block with a copy of that state. *)
Theorem commitNewWork_sends_what_it_executed cfg parent timestamp now pool
    locals interrupt sendTime sent (m : @miner StateDB) :
  exists m',
    commitNewWork_of cfg parent timestamp now pool locals interrupt
      sendTime sent m = Some m'
    /\ running (m_worker m') = running (m_worker m)
    /\ (taskCh m' = taskCh m
        \/ exists header env new block s,
             running (m_worker m) = true /\ sent = true
             /\ cand_prepared
                  (commitNewWork_header CalcGasLimit cfg parent timestamp now)
                = inl header
             /\ extdb (m_worker m') = extdb (m_worker m) ++ new
             /\ Worker.header env
                = set_GasUsed (GasUsed (Worker.header env)) header
             /\ txs env = succeeded new
             /\ length (receipts env) = length (txs env)
             /\ Finalize (Worker.header env) (env_state env) (txs env)
                  (receipts env) = (inl block, s)
             /\ taskCh m'
                = taskCh m ++ [{| task_receipts := receipts env;
                                  task_state := s; task_block := block;
                                  createdAt := sendTime |}]
             /\ snapshotBlock m' = Some block
             /\ snapshotState m' = Some (StateDB_Copy s)).
Proof.
  unfold commitNewWork.
  destruct (cand_prepared _) as [header|e] eqn:Hprep; [|by exists m; auto].
  unfold makeCurrent. destruct (StateAt parent) as [state|e]; [|by exists m; auto].
  set (env0 := {| env_state := state; tcount := 0; gasPool := None;
                  Worker.header := header; txs := []; receipts := [] |}).
  set (m1 := set_worker (set_current (Some env0) (m_worker m)) m).
  assert (current (m_worker m1) = Some env0) as Hcur1 by done.
  assert (running (m_worker m1) = running (m_worker m)) as Hrun1 by done.
  assert (taskCh m1 = taskCh m) as Htask1 by done.
  destruct pool as [pending|e]; [|by exists m1; auto].
  (* what a final [commit] gives, from an environment grown from [env0] *)
  assert (forall mk envk n,
            current (m_worker mk) = Some envk ->
            running (m_worker mk) = running (m_worker m) ->
            taskCh mk = taskCh m ->
            grown n env0 envk (extdb (m_worker m)) (extdb (m_worker mk)) ->
            exists m',
              fst <$> commit_of true sendTime sent mk = Some m'
              /\ running (m_worker m') = running (m_worker m)
              /\ (taskCh m' = taskCh m
                  \/ exists header' env new block s,
                       running (m_worker m) = true /\ sent = true
                       /\ @inl Header Consensus.error header = inl header'
                       /\ extdb (m_worker m') = extdb (m_worker m) ++ new
                       /\ Worker.header env
                          = set_GasUsed (GasUsed (Worker.header env)) header'
                       /\ txs env = succeeded new
                       /\ length (receipts env) = length (txs env)
                       /\ Finalize (Worker.header env) (env_state env) (txs env)
                            (receipts env) = (inl block, s)
                       /\ taskCh m'
                          = taskCh m ++ [{| task_receipts := receipts env;
                                            task_state := s; task_block := block;
                                            createdAt := sendTime |}]
                       /\ snapshotBlock m' = Some block
                       /\ snapshotState m' = Some (StateDB_Copy s)))
    as Hcommit.
  { intros mk envk n Hk Hrun Htask (new & G1 & G2 & G3 & G4 & G5 & G6).
    destruct (commit_spec sendTime sent mk envk Hk)
      as (m' & err & C1 & C2 & C3 & C4).
    exists m'. rewrite C1. split; [done|]. split; [congruence|].
    destruct (Finalize _ _ _ _) as [[block|e] s] eqn:EF.
    - destruct C4 as (-> & S1 & S2 & T).
      destruct (running (m_worker mk) && sent) eqn:Erun.
      + right. apply andb_true_iff in Erun as [R1 R2].
        exists header, envk, new, block, s.
        split; [congruence|]. split; [done|]. split; [done|].
        split; [congruence|]. split; [exact G6|]. split; [exact G2|].
        split; [rewrite G2, G3; cbn; lia|]. split; [done|].
        split; [by rewrite T, Htask|]. done.
      + left. rewrite T, app_nil_r. done.
    - left. destruct C4 as [_ T]. congruence. }
  destruct (Z.of_nat (size pending) =? 0).
  - destruct (isIstanbul (w_engine cfg)).
    + apply (Hcommit m1 env0 0%nat); [done..|]. apply grown_refl.
    + unfold updateSnapshot. rewrite Hcur1. eexists. split; [done|]. auto.
  - destruct (split_pending locals pending) as [localTxs remoteTxs].
    destruct (batch_grown header (w_coinbase cfg) localTxs (fst <$> interrupt)
                m1 env0 Hcur1)
      as (m2 & ok2 & env2 & n2 & B1 & B2 & B3 & B4 & B5 & B6 & B7).
    rewrite B1. destruct ok2.
  { exists m2. split; [done|]. split; [congruence|]. left. congruence. }
    destruct (batch_grown header (w_coinbase cfg) remoteTxs (snd <$> interrupt)
                m2 env2 B2)
      as (m3 & ok3 & env3 & n3 & D1 & D2 & D3 & D4 & D5 & D6 & D7).
    rewrite D1. destruct ok3.
    + exists m3. split; [done|]. split; [congruence|]. left. congruence.
    + apply (Hcommit m3 env3 (n2 + n3)%nat); [done|congruence|congruence|].
      by apply (grown_trans _ _ _ _ _ _ _ _ B4 D4).
Qed.

Lemma heads_are_accounts (accounts : gmap Address (list Transaction)) a :
  grouped_by_sender accounts ->
  a ∈ tx_from <$> tp_heads (NewTransactionsByPriceAndNonce accounts) ->
  is_Some (accounts !! a).
Proof.
  intros Hg Ha. cbn in Ha.
  apply (new_heads_senders (map_to_list accounts)) in Ha.
  - apply list_elem_of_fmap in Ha as [[b txs] [-> Hin]].
    apply elem_of_map_to_list in Hin. by exists txs.
  - apply NoDup_fst_map_to_list.
  - intros b txs t Hin. apply elem_of_map_to_list in Hin. by apply Hg.
Qed.

Lemma filter_all {A} (P : A -> Prop) `{!forall x, Decision (P x)} (l : list A) :
  (forall x, x ∈ l -> P x) -> filter P l = l.
Proof.
  induction l as [| x l IH]; intros Hl; [done |].
  rewrite filter_cons, decide_True by (apply Hl, list_elem_of_here).
  f_equal. apply IH. intros y Hy. by apply Hl, list_elem_of_further.
Qed.

Lemma filter_none {A} (P : A -> Prop) `{!forall x, Decision (P x)} (l : list A) :
  (forall x, x ∈ l -> ~ P x) -> filter P l = [].
Proof.
  induction l as [| x l IH]; intros Hl; [done |].
  rewrite filter_cons, decide_False by (apply Hl, list_elem_of_here).
  apply IH. intros y Hy. by apply Hl, list_elem_of_further.
Qed.

(** An account with a head has a transaction. *)
Lemma new_heads_nonempty (l : list (Address * list Transaction)) a :
  (forall b txs t, (b, txs) ∈ l -> t ∈ txs -> tx_from t = b) ->
  a ∈ tx_from <$>
        foldr (fun kv h => match snd kv with t :: _ => push_head t h | [] => h end)
              [] l ->
  exists t txs, (a, t :: txs) ∈ l.
Proof.
  induction l as [| [b txs] l IH]; intros Hg Ha.
  - by apply elem_of_nil in Ha.
  - assert (forall b' txs' t, (b', txs') ∈ l -> t ∈ txs' -> tx_from t = b') as Hg'.
    { intros b' txs' t Hin. apply Hg. by apply list_elem_of_further. }
    cbn [foldr snd] in Ha. destruct txs as [| t txs].
    + destruct (IH Hg' Ha) as (t' & txs' & Hin).
      exists t', txs'. by apply list_elem_of_further.
    + rewrite (push_head_perm t _) in Ha. cbn [fmap list_fmap] in Ha.
      apply elem_of_cons in Ha as [-> | Ha].
      * exists t, txs.
        rewrite (Hg b (t :: txs) t); [apply list_elem_of_here | apply list_elem_of_here
                                      | apply list_elem_of_here].
      * destruct (IH Hg' Ha) as (t' & txs' & Hin).
        exists t', txs'. by apply list_elem_of_further.
Qed.

Lemma heads_have_transactions (accounts : gmap Address (list Transaction)) a :
  grouped_by_sender accounts ->
  a ∈ tx_from <$> tp_heads (NewTransactionsByPriceAndNonce accounts) ->
  exists t txs, accounts !! a = Some (t :: txs).
Proof.
  intros Hg Ha. cbn in Ha.
  apply (new_heads_nonempty (map_to_list accounts)) in Ha.
  - destruct Ha as (t & txs & Hin). apply elem_of_map_to_list in Hin.
    by exists t, txs.
  - intros b txs t Hin. apply elem_of_map_to_list in Hin. by apply Hg.
Qed.

Lemma batch_senders header coinbase accounts intr (m : @miner StateDB) env :
  current (m_worker m) = Some env ->
  grouped_by_sender accounts ->
  exists m2 ok env2 new,
    batch_of header coinbase accounts intr m = Some (m2, ok)
    /\ current (m_worker m2) = Some env2
    /\ extdb (m_worker m2) = extdb (m_worker m) ++ new
    /\ forall t, t ∈ attempted new ->
                 exists t0 txs, accounts !! tx_from t = Some (t0 :: txs).
Proof.
  intros Hcur Hg. unfold batch. destruct (0 <? Z.of_nat (size accounts)).
  - destruct (cycle_attempts StateDB_Prepare Snapshot RevertToSnapshot
                ApplyTransaction TxGas coinbase (m_worker m) header
                (NewTransactionsByPriceAndNonce accounts) intr env Hcur
                (wf_New accounts Hg))
      as (c & env2 & new & H1 & H2 & H3 & H4).
    rewrite H1. exists (set_worker (cy_worker c) m), (cy_return c), env2, new.
    do 3 (split; [done|]). intros t Ht. by apply heads_have_transactions, H4.
  - exists m, false, env, []. rewrite app_nil_r. do 3 (split; [done|]).
    intros t Ht. by apply elem_of_nil in Ht.
Qed.

Lemma commit_extdb now sent (m : @miner StateDB) env :
  current (m_worker m) = Some env ->
  exists m' err,
    commit_of true now sent m = Some (m', err)
    /\ extdb (m_worker m') = extdb (m_worker m).
Proof.
  intros Hcur.
  destruct (commit_spec now sent m env Hcur) as (m' & err & H1 & _ & H2 & _).
  by exists m', err.
Qed.

(** X30: of transactions grouped by sender, [commitNewWork] executes
    those of the accounts the pool names as local first: what it
    writes to the monitor is a first batch, in which every
    transaction started is sent by a local account, followed by a
    second batch, in which none is; all are sent by accounts with
    pending transactions.  No transaction of an account that is not
    local is started before one of a local account. *)
Theorem locals_are_executed_first cfg parent timestamp now pending locals
    interrupt sendTime sent (m : @miner StateDB) :
  grouped_by_sender pending ->
  exists m' new1 new2,
    commitNewWork_of cfg parent timestamp now (inl pending) locals interrupt
      sendTime sent m = Some m'
    /\ extdb (m_worker m') = extdb (m_worker m) ++ new1 ++ new2
    /\ (forall t, t ∈ attempted new1 ->
          tx_from t ∈ locals /\ is_Some (pending !! tx_from t))
    /\ (forall t, t ∈ attempted new2 ->
          (tx_from t ∉ locals) /\ is_Some (pending !! tx_from t))
    /\ attempted (extdb (m_worker m'))
       = attempted (extdb (m_worker m))
         ++ filter (fun t => tx_from t ∈ locals) (attempted (new1 ++ new2))
         ++ filter (fun t => tx_from t ∉ locals) (attempted (new1 ++ new2)).
Proof.
  intros Hg.
  assert (forall (m' : @miner StateDB) new1 new2,
            extdb (m_worker m') = extdb (m_worker m) ++ new1 ++ new2 ->
            (forall t, t ∈ attempted new1 ->
               tx_from t ∈ locals /\ is_Some (pending !! tx_from t)) ->
            (forall t, t ∈ attempted new2 ->
               (tx_from t ∉ locals) /\ is_Some (pending !! tx_from t)) ->
            attempted (extdb (m_worker m'))
            = attempted (extdb (m_worker m))
              ++ filter (fun t => tx_from t ∈ locals) (attempted (new1 ++ new2))
              ++ filter (fun t => tx_from t ∉ locals) (attempted (new1 ++ new2)))
    as Horder.
  { intros m' new1 new2 Hx H1 H2. rewrite Hx, !attempted_app, !filter_app.
    rewrite (filter_all (fun t => tx_from t ∈ locals) (attempted new1))
      by (intros t Ht; by apply H1).
    rewrite (filter_none (fun t => tx_from t ∈ locals) (attempted new2))
      by (intros t Ht; by apply H2).
    rewrite (filter_none (fun t => tx_from t ∉ locals) (attempted new1))
      by (intros t Ht C; apply C; by apply H1).
    rewrite (filter_all (fun t => tx_from t ∉ locals) (attempted new2))
      by (intros t Ht; by apply H2).
    by rewrite app_nil_r, app_nil_l. }
  assert (forall (m0 : @miner StateDB) new1 new2,
            extdb (m_worker m0) = extdb (m_worker m) ++ new1 ++ new2 ->
            (forall t, t ∈ attempted new1 ->
               tx_from t ∈ locals /\ is_Some (pending !! tx_from t)) ->
            (forall t, t ∈ attempted new2 ->
               (tx_from t ∉ locals) /\ is_Some (pending !! tx_from t)) ->
            exists m' new1 new2,
              Some m0 = Some m'
              /\ extdb (m_worker m') = extdb (m_worker m) ++ new1 ++ new2
              /\ (forall t, t ∈ attempted new1 ->
                    tx_from t ∈ locals /\ is_Some (pending !! tx_from t))
              /\ (forall t, t ∈ attempted new2 ->
                    (tx_from t ∉ locals) /\ is_Some (pending !! tx_from t))
              /\ attempted (extdb (m_worker m'))
                 = attempted (extdb (m_worker m))
                   ++ filter (fun t => tx_from t ∈ locals)
                        (attempted (new1 ++ new2))
                   ++ filter (fun t => tx_from t ∉ locals)
                        (attempted (new1 ++ new2))) as Hdone.
  { intros m0 new1 new2 Hx H1 H2. exists m0, new1, new2.
    do 4 (split; [done|]). by apply Horder. }
  assert (forall m0 : @miner StateDB,
            extdb (m_worker m0) = extdb (m_worker m) ->
            exists m' new1 new2,
              Some m0 = Some m'
              /\ extdb (m_worker m') = extdb (m_worker m) ++ new1 ++ new2
              /\ (forall t, t ∈ attempted new1 ->
                    tx_from t ∈ locals /\ is_Some (pending !! tx_from t))
              /\ (forall t, t ∈ attempted new2 ->
                    (tx_from t ∉ locals) /\ is_Some (pending !! tx_from t))
              /\ attempted (extdb (m_worker m'))
                 = attempted (extdb (m_worker m))
                   ++ filter (fun t => tx_from t ∈ locals)
                        (attempted (new1 ++ new2))
                   ++ filter (fun t => tx_from t ∉ locals)
                        (attempted (new1 ++ new2))) as Hnothing.
  { intros m0 Hx. apply (Hdone m0 [] []); [by rewrite !app_nil_r | |];
      intros t Ht; by apply elem_of_nil in Ht. }
  unfold commitNewWork.
  destruct (cand_prepared _) as [header|e]; [|by apply Hnothing].
  unfold makeCurrent. destruct (StateAt parent) as [state|e];
    [|by apply Hnothing].
  set (env0 := {| env_state := state; tcount := 0; gasPool := None;
                  Worker.header := header; txs := []; receipts := [] |}).
  set (m1 := set_worker (set_current (Some env0) (m_worker m)) m).
  assert (current (m_worker m1) = Some env0) as Hcur1 by done.
  assert (extdb (m_worker m1) = extdb (m_worker m)) as Hx1 by done.
  destruct (Z.of_nat (size pending) =? 0).
  - destruct (isIstanbul (w_engine cfg)).
    + destruct (commit_extdb sendTime sent m1 env0 Hcur1)
        as (m' & err & C1 & C2).
      rewrite C1. apply Hnothing. cbn. congruence.
    + unfold updateSnapshot. rewrite Hcur1. by apply Hnothing.
  - pose proof (split_pending_ok locals pending) as Hsplit.
    destruct (split_pending locals pending) as [localTxs remoteTxs].
    assert (forall a txs, localTxs !! a = Some txs ->
              pending !! a = Some txs /\ a ∈ locals) as Hlocal.
    { intros a txs Ha. specialize (Hsplit a); cbn in Hsplit.
      destruct (pending !! a) as [txs'|].
      - destruct (bool_decide (a ∈ locals /\ txs' <> [])) eqn:B.
        + apply bool_decide_eq_true in B as [B _].
          destruct Hsplit as [Hs _]. split; [congruence|done].
        + destruct Hsplit as [Hs _]. congruence.
      - destruct Hsplit as [Hs _]. congruence. }
    assert (forall a t0 txs, remoteTxs !! a = Some (t0 :: txs) ->
              pending !! a = Some (t0 :: txs) /\ (a ∉ locals)) as Hremote.
    { intros a t0 txs Ha. specialize (Hsplit a); cbn in Hsplit.
      destruct (pending !! a) as [txs'|].
      - destruct (bool_decide (a ∈ locals /\ txs' <> [])) eqn:B;
          destruct Hsplit as [Hs1 Hs2]; [congruence |].
        split; [congruence |]. intros Hin.
        apply bool_decide_eq_false in B. apply B. split; [done |]. congruence.
      - destruct Hsplit as [Hs1 Hs2]. congruence. }
    assert (forall a txs, remoteTxs !! a = Some txs -> pending !! a = Some txs)
      as Hremote'.
    { intros a txs Ha. specialize (Hsplit a); cbn in Hsplit.
      destruct (pending !! a) as [txs'|].
      - destruct (bool_decide (a ∈ locals /\ txs' <> []));
          destruct Hsplit as [Hs1 Hs2]; congruence.
      - destruct Hsplit as [Hs1 Hs2]. congruence. }
    assert (grouped_by_sender localTxs) as Hgl.
    { intros a l t Ha. apply Hlocal in Ha as [Ha _]. by apply (Hg a l t). }
    assert (grouped_by_sender remoteTxs) as Hgr.
    { intros a l t Ha. apply Hremote' in Ha. by apply (Hg a l t). }
    destruct (batch_senders header (w_coinbase cfg) localTxs
                (fst <$> interrupt) m1 env0 Hcur1 Hgl)
      as (m2 & ok2 & env2 & new1 & B1 & B2 & B3 & B4).
    rewrite B1.
    assert (forall t, t ∈ attempted new1 ->
              tx_from t ∈ locals /\ is_Some (pending !! tx_from t)) as H1.
    { intros t Ht. apply B4 in Ht as (t0 & txs & Ht).
      apply Hlocal in Ht as [Ht ?]. split; [done|]. by eexists. }
    destruct ok2.
    { apply (Hdone m2 new1 []); [| done |].
      - rewrite app_nil_r. congruence.
      - intros t Ht. by apply elem_of_nil in Ht. }
    destruct (batch_senders header (w_coinbase cfg) remoteTxs
                (snd <$> interrupt) m2 env2 B2 Hgr)
      as (m3 & ok3 & env3 & new2 & D1 & D2 & D3 & D4).
    rewrite D1.
    assert (forall t, t ∈ attempted new2 ->
              (tx_from t ∉ locals) /\ is_Some (pending !! tx_from t)) as H2.
    { intros t Ht. apply D4 in Ht as (t0 & txs & Ht).
      apply Hremote in Ht as [Ht Hnl]. split; [done |]. by eexists. }
    assert (extdb (m_worker m3) = extdb (m_worker m) ++ new1 ++ new2) as Hx3.
    { rewrite D3, B3, Hx1. by rewrite app_assoc. }
    destruct ok3; [by apply (Hdone m3 new1 new2) |].
    destruct (commit_extdb sendTime sent m3 env3 D2) as (m' & err & C1 & C2).
    rewrite C1. apply (Hdone m' new1 new2); [| done | done].
    cbn. congruence.
Qed.

End CommitNewWorkFacts.

(** Account 2 is local, account 1 is not: [b1] is started before
    [a1] and [a2]. *)
Lemma locals_are_executed_first_witness :
  grouped_by_sender Samples.pending
  /\ exists m' new1 new2,
       SealingSamples.sample_commitNewWork (Samples.config_with Samples.other_engine)
         Samples.parent7 2000 1 (inl Samples.pending) [2%N] None 0 true
         SealingSamples.idle = Some m'
       /\ extdb (m_worker m') = extdb (m_worker SealingSamples.idle) ++ new1 ++ new2
       /\ (forall t, t ∈ attempted new1 ->
             tx_from t ∈ [2%N] /\ is_Some (Samples.pending !! tx_from t))
       /\ (forall t, t ∈ attempted new2 ->
             (tx_from t ∉ [2%N]) /\ is_Some (Samples.pending !! tx_from t))
       /\ attempted (extdb (m_worker m'))
          = attempted (extdb (m_worker SealingSamples.idle))
            ++ filter (fun t => tx_from t ∈ [2%N]) (attempted (new1 ++ new2))
            ++ filter (fun t => tx_from t ∉ [2%N]) (attempted (new1 ++ new2)).
Proof.
  assert (grouped_by_sender Samples.pending) as H
    by (apply grouped_two; repeat constructor).
  split; [exact H|].
  exact (locals_are_executed_first Samples.sample_Prepare Samples.sample_Snapshot
           Samples.sample_Revert Samples.sample_apply 21000 (fun s => s)
           SealingSamples.sample_NewBlock Samples.sample_CalcGasLimit
           SealingSamples.sample_StateAt SealingSamples.sample_Finalize
           (Samples.config_with Samples.other_engine) Samples.parent7 2000 1
           Samples.pending [2%N] None 0 true SealingSamples.idle H).
Defined.

Example locals_first_on_the_sample :
  option_map (fun m' => attempted (extdb (m_worker m')))
    (SealingSamples.sample_commitNewWork (Samples.config_with Samples.other_engine)
       Samples.parent7 2000 1 (inl Samples.pending) [2%N] None 0 true
       SealingSamples.idle)
  = Some [Samples.b1; Samples.a1; Samples.a2].
Proof. vm_compute. reflexivity. Qed.

End SealingFacts.

(** ** consensus/istanbul/backend/engine.go: verifying a header *)

Module IstanbulVerifyFacts.
Import Types IstanbulVerify EngineSamples.

Section VerifyFacts.

Context {ValSet : Type}.
Variable Copy : ValSet -> ValSet.
Variable GetByAddress : Address -> ValSet -> bool.
Variable RemoveValidator : Address -> ValSet -> ValSet * bool.
Variable Size : ValSet -> Z.
Variable F : ValSet -> Z.
Variable GetHeader : Hash -> Z -> option Header.
Variable Header_Hash : Header -> Hash.
Variable snapshot : Z -> Hash -> list Header -> ValSet + Consensus.error.
Variable CommittedSeal : Header -> list (list byte) + Consensus.error.
Variable PrepareCommittedSeal : Hash -> list byte.
Variable GetSignatureAddress : list byte -> list byte -> option Address.
Variable ecrecover : Header -> Address + Consensus.error.
Variable VerifyVrf : Header -> Header -> option Consensus.error.
Variable BlockPeriod : Z.
Variable ElectionEpoch : Z.

Local Abbreviation seals_ok :=
  (verifyCommittedSeals Copy RemoveValidator Size F Header_Hash snapshot
     CommittedSeal PrepareCommittedSeal GetSignatureAddress).
Local Abbreviation signer_ok :=
  (verifySigner GetByAddress snapshot ecrecover).
Local Abbreviation vrf_ok := (verifyVRF GetHeader VerifyVrf).
Local Abbreviation cascading :=
  (verifyCascadingFields Copy GetByAddress RemoveValidator Size F GetHeader
     Header_Hash snapshot CommittedSeal PrepareCommittedSeal
     GetSignatureAddress ecrecover VerifyVrf BlockPeriod ElectionEpoch).

Lemma count_seals_signers members proposal seals v n r :
  validator_sets Copy GetByAddress RemoveValidator members ->
  count_seals RemoveValidator GetSignatureAddress proposal seals v n = inl r ->
  exists signers,
    Forall2 (fun seal a => GetSignatureAddress proposal seal = Some a)
            seals signers
    /\ NoDup signers
    /\ (forall a, a ∈ signers -> a ∈ members v)
    /\ r = n + Z.of_nat (length seals).
Proof.
  intros (_ & _ & Hrem & Hleft).
  revert v n; induction seals as [|seal seals IH]; intros v n H; simpl in H.
  - injection H as <-. exists []. split; [constructor|]. split; [constructor|].
    split; [|simpl; lia]. intros a Ha. by apply elem_of_nil in Ha.
  - destruct (GetSignatureAddress proposal seal) as [addr|] eqn:Esig;
      [|discriminate].
    pose proof (Hrem v addr) as Hok. pose proof (Hleft v addr) as Hrest.
    destruct (RemoveValidator addr v) as [v' ok]. simpl in *.
    destruct ok; [|discriminate].
    apply IH in H as (signers & H1 & H2 & H3 & H4).
    exists (addr :: signers). split; [by constructor|]. split.
    + constructor; [|done]. intros Hin. apply H3, Hrest in Hin. by destruct Hin.
    + split; [|lia]. intros a Ha. apply elem_of_cons in Ha as [->|Ha].
      * by apply Hok.
      * by apply H3, Hrest in Ha as [Ha _].
Qed.

(** X27: a header above the genesis whose committed seals are
    accepted carries at least one seal; every seal recovers to an
    address, the addresses are pairwise different validators of the
    parent's snapshot, and they are no fewer than the size of the
    validator set less the faulty ones it tolerates. *)
Theorem committed_seals_are_a_quorum members header parents :
  validator_sets Copy GetByAddress RemoveValidator members ->
  big_Uint64 (Number header) <> 0 ->
  seals_ok header parents = None ->
  exists valset seals signers,
    snapshot (u64 (big_Uint64 (Number header) - 1)) (ParentHash header) parents
    = inl valset
    /\ CommittedSeal header = inl seals
    /\ seals <> []
    /\ Forall2 (fun seal a =>
                  GetSignatureAddress
                    (PrepareCommittedSeal (Header_Hash header)) seal = Some a)
               seals signers
    /\ NoDup signers
    /\ (forall a, a ∈ signers -> a ∈ members valset)
    /\ Size valset - F valset <= Z.of_nat (length signers).
Proof.
  intros Hsets Hnum H. unfold verifyCommittedSeals in H.
  destruct (Z.eqb_spec (big_Uint64 (Number header)) 0) as [|_]; [done|].
  destruct (snapshot _ _ _) as [valset|e]; [|discriminate].
  destruct (CommittedSeal header) as [seals|e]; [|discriminate].
  destruct (Z.eqb_spec (VM.len seals) 0) as [|Hlen]; [discriminate|].
  destruct (count_seals _ _ _ _ _ _) as [validSeal|e] eqn:Ecount;
    [|discriminate].
  destruct (Z.ltb_spec validSeal (Size valset - F valset)) as [|Hq];
    [discriminate|].
  destruct (count_seals_signers members _ _ _ _ _ Hsets Ecount)
    as (signers & H1 & H2 & H3 & H4).
  exists valset, seals, signers. do 2 (split; [done|]).
  split; [by intros ->|]. split; [done|]. split; [done|]. split.
  - intros a Ha. apply H3 in Ha. exact (proj1 (proj1 Hsets valset a) Ha).
  - rewrite <- (Forall2_length _ _ _ H1). lia.
Qed.

(** No step after the comparison of the timestamps answers
    [errInvalidTimestamp]. *)
Lemma count_seals_error proposal seals v n e :
  count_seals RemoveValidator GetSignatureAddress proposal seals v n = inr e ->
  e = errInvalidSignature \/ e = errInvalidCommittedSeals.
Proof.
  revert v n; induction seals as [|seal seals IH]; intros v n H; simpl in H;
    [discriminate|].
  destruct (GetSignatureAddress proposal seal) as [addr|];
    [|injection H as <-; by left].
  destruct (RemoveValidator addr v) as [v' [|]]; [by apply IH in H|].
  injection H as <-. by right.
Qed.

Lemma seals_ok_error header parents :
  seals_ok header parents <> Some errInvalidTimestamp.
Proof.
  unfold verifyCommittedSeals.
  destruct (_ =? 0); [done|]. destruct (snapshot _ _ _); [|done].
  destruct (CommittedSeal header); [|done]. destruct (_ =? 0); [done|].
  destruct (count_seals _ _ _ _ _ _) as [r|e] eqn:E.
  - by destruct (_ <? _).
  - apply count_seals_error in E as [-> | ->]; done.
Qed.

Lemma signer_ok_error header parents :
  signer_ok header parents <> Some errInvalidTimestamp.
Proof.
  unfold verifySigner. destruct (_ =? 0); [done|].
  destruct (snapshot _ _ _); [|done]. destruct (ecrecover header); [|done].
  by destruct (GetByAddress _ _).
Qed.

Lemma vrf_ok_error header : vrf_ok header <> Some errInvalidTimestamp.
Proof.
  unfold verifyVRF. destruct (_ =? 0); [done|].
  destruct (GetHeader _ _); [|done]. by destruct (VerifyVrf _ _).
Qed.

(** X28: a header above the genesis that [verifyCascadingFields]
    accepts has a parent, the last of the given parents or else the
    chain's, of the number before its own and of the hash it names; its
    time is the parent's and the block period later, or more; its
    signer is found in the validator set of the parent's snapshot; and
    its committed seals are accepted. *)
Theorem accepted_header_follows_its_parent header parents :
  big_Uint64 (Number header) <> 0 ->
  cascading header parents = None ->
  exists parent valset signer,
    (if 0 <? VM.len parents then last parents
     else GetHeader (ParentHash header) (u64 (big_Uint64 (Number header) - 1)))
    = Some parent
    /\ big_Uint64 (Number parent) = u64 (big_Uint64 (Number header) - 1)
    /\ Header_Hash parent = ParentHash header
    /\ u64 (big_Uint64 (Time parent) + u64 BlockPeriod)
       <= big_Uint64 (Time header)
    /\ snapshot (u64 (big_Uint64 (Number header) - 1)) (ParentHash header)
         parents = inl valset
    /\ ecrecover header = inl signer
    /\ GetByAddress signer valset = true
    /\ seals_ok header parents = None.
Proof.
  intros Hnum H. unfold verifyCascadingFields in H.
  destruct (Z.eqb_spec (big_Uint64 (Number header)) 0) as [|_]; [done|].
  destruct (if 0 <? VM.len parents then _ else _) as [parent|]; [|discriminate].
  destruct (Z.eqb_spec (big_Uint64 (Number parent))
              (u64 (big_Uint64 (Number header) - 1))) as [Hn|]; [|discriminate].
  destruct (N.eqb_spec (Header_Hash parent) (ParentHash header)) as [Hh|];
    [|discriminate].
  simpl in H.
  destruct (Z.gtb_spec (u64 (big_Uint64 (Time parent) + u64 BlockPeriod))
              (big_Uint64 (Time header))) as [|Ht]; [discriminate|].
  destruct (snapshot _ _ _) as [valset|e] eqn:Esnap; [|discriminate].
  destruct (signer_ok header parents) as [e|] eqn:Esig; [discriminate|].
  destruct (if negb (ElectionEpoch =? 0) then _ else _) as [e|];
    [discriminate|].
  unfold verifySigner in Esig. rewrite Esnap in Esig.
  destruct (Z.eqb_spec (big_Uint64 (Number header)) 0) as [|_]; [done|].
  destruct (ecrecover header) as [signer|e]; [|discriminate].
  destruct (GetByAddress signer valset) eqn:Eget; [|discriminate].
  by exists parent, valset, signer.
Qed.

(** X29: a header that the backend's [Prepare] has filled in is not
    turned down for its timestamp when it is verified against the same
    chain with the same block period, as long as the times are below
    2^63 milliseconds: [Prepare] puts it at the parent's time and the
    block period later, or at the clock if that is later still. *)
Theorem prepared_header_is_in_time GenerateNonce snapshot_validators
    prepareExtra IstanbulDigest clock header prepared parent :
  Istanbul.Prepare GetHeader GenerateNonce snapshot_validators prepareExtra
    IstanbulDigest BlockPeriod clock header = inl prepared ->
  GetHeader (ParentHash header) (u64 (big_Uint64 (Number header) - 1))
  = Some parent ->
  0 <= Time parent -> Time parent + u64 BlockPeriod < 2 ^ 63 ->
  0 <= clock < 2 ^ 63 ->
  Time prepared = Z.max (Time parent + u64 BlockPeriod) clock
  /\ cascading prepared [] <> Some errInvalidTimestamp.
Proof.
  intros Hprep Hparent Hp Hsum Hclock. unfold Istanbul.Prepare in Hprep.
  cbn [ParentHash Number Istanbul.set_consensus_fields] in Hprep.
  rewrite Hparent in Hprep.
  destruct (GenerateNonce _) as [nonce|]; [|discriminate].
  destruct (snapshot_validators _ _) as [vals|]; [|discriminate].
  destruct (prepareExtra _ _) as [extra|]; [|discriminate].
  injection Hprep as <-.
  assert (0 <= u64 BlockPeriod) as Hperiod by apply u64_range.
  assert (Istanbul.prepare_time BlockPeriod clock (Time parent)
          = Z.max (Time parent + u64 BlockPeriod) clock) as Htime.
  { unfold Istanbul.prepare_time. rewrite big_Int64_small by lia.
    destruct (Z.ltb_spec (Time parent + u64 BlockPeriod) clock); lia. }
  split; [exact Htime|].
  unfold verifyCascadingFields. cbn. rewrite Hparent.
  destruct (big_Uint64 (Number header) =? 0); [done|].
  change (0 <? VM.len (@nil Header)) with false. cbv iota.
  destruct (negb _ || negb _); [done|].
  rewrite Htime.
  assert ((u64 (big_Uint64 (Time parent) + u64 BlockPeriod)
           >? big_Uint64 (Z.max (Time parent + u64 BlockPeriod) clock)) = false)
    as ->.
  { unfold big_Uint64. rewrite !Z.abs_eq by lia.
    rewrite (Z.mod_small (Time parent)) by lia.
    rewrite (Z.mod_small (Z.max _ _)) by lia.
    rewrite u64_small by lia. lia. }
  destruct (snapshot _ _ _); [|done].
  match goal with
  | |- context [verifySigner ?a ?b ?c ?h ?p] =>
      pose proof (signer_ok_error h p) as Hs;
      destruct (verifySigner a b c h p) as [e|]; [congruence|]
  end.
  match goal with
  | |- context [verifyVRF ?a ?b ?h] =>
      pose proof (vrf_ok_error h) as Hv;
      destruct (if negb (ElectionEpoch =? 0) then verifyVRF a b h else None)
        as [e|] eqn:Ev
  end.
  - destruct (negb (ElectionEpoch =? 0)); congruence.
  - apply seals_ok_error.
Qed.

End VerifyFacts.

Lemma list_validator_sets :
  validator_sets (fun v => v) list_Get list_Remove (fun v => v).
Proof.
  unfold validator_sets, list_Get, list_Remove. cbn.
  split; [done|]. split; [intros v a; apply bool_decide_eq_true|].
  split; [intros v a; apply bool_decide_eq_true|].
  intros v a b. rewrite list_elem_of_filter. tauto.
Qed.

Lemma committed_seals_are_a_quorum_witness :
  big_Uint64 (Number header8) <> 0
  /\ sample_verifyCommittedSeals header8 [] = None
  /\ exists valset seals signers,
       sample_snapshot (u64 (big_Uint64 (Number header8) - 1))
         (ParentHash header8) [] = inl valset
       /\ sample_seals header8 = inl seals
       /\ seals <> []
       /\ Forall2 (fun seal a =>
                     sample_signer (sample_proposal (sample_hash header8)) seal
                     = Some a) seals signers
       /\ NoDup signers
       /\ (forall a, a ∈ signers -> a ∈ valset)
       /\ list_Size valset - list_F valset <= Z.of_nat (length signers).
Proof.
  assert (big_Uint64 (Number header8) <> 0) as H1 by (vm_compute; discriminate).
  assert (sample_verifyCommittedSeals header8 [] = None) as H2
    by (vm_compute; reflexivity).
  split; [exact H1|]. split; [exact H2|].
  exact (committed_seals_are_a_quorum (fun v => v) list_Get list_Remove
           list_Size list_F sample_hash sample_snapshot sample_seals
           sample_proposal sample_signer (fun v => v) header8 []
           list_validator_sets H1 H2).
Defined.

Lemma accepted_header_follows_its_parent_witness :
  big_Uint64 (Number header8) <> 0
  /\ sample_verifyCascadingFields header8 [] = None
  /\ exists parent valset signer,
       (if 0 <? VM.len (@nil Header) then last []
        else sample_GetHeader (ParentHash header8)
               (u64 (big_Uint64 (Number header8) - 1)))
       = Some parent
       /\ big_Uint64 (Number parent) = u64 (big_Uint64 (Number header8) - 1)
       /\ sample_hash parent = ParentHash header8
       /\ u64 (big_Uint64 (Time parent) + u64 1000) <= big_Uint64 (Time header8)
       /\ sample_snapshot (u64 (big_Uint64 (Number header8) - 1))
            (ParentHash header8) [] = inl valset
       /\ sample_ecrecover header8 = inl signer
       /\ list_Get signer valset = true
       /\ sample_verifyCommittedSeals header8 [] = None.
Proof.
  assert (big_Uint64 (Number header8) <> 0) as H1 by (vm_compute; discriminate).
  assert (sample_verifyCascadingFields header8 [] = None) as H2
    by (vm_compute; reflexivity).
  split; [exact H1|]. split; [exact H2|].
  exact (accepted_header_follows_its_parent (fun v => v) list_Get list_Remove
           list_Size list_F sample_GetHeader sample_hash sample_snapshot
           sample_seals sample_proposal sample_signer sample_ecrecover
           sample_VerifyVrf 1000 0 header8 [] H1 H2).
Defined.

Lemma prepared_header_is_in_time_witness :
  sample_backend_Prepare header8
  = inl (Istanbul.set_Time 2000
           (Istanbul.set_consensus_fields 99%N header8))
  /\ sample_verifyCascadingFields
       (Istanbul.set_Time 2000 (Istanbul.set_consensus_fields 99%N header8)) []
     <> Some errInvalidTimestamp.
Proof.
  assert (sample_backend_Prepare header8
          = inl (Istanbul.set_Time 2000
                   (Istanbul.set_consensus_fields 99%N header8))) as H1
    by reflexivity.
  split; [exact H1|].
  refine (proj2 (prepared_header_is_in_time (fun v => v) list_Get list_Remove
                   list_Size list_F sample_GetHeader sample_hash sample_snapshot
                   sample_seals sample_proposal sample_signer sample_ecrecover
                   sample_VerifyVrf 1000 0 (fun n => inl n) (fun _ _ => inl [])
                   (fun h _ => inl (Extra h)) 99%N 900 header8 _
                   (Samples.header_at 7 1000) H1 _ _ _ _)).
  - reflexivity.
  - vm_compute. discriminate.
  - vm_compute. reflexivity.
  - split; vm_compute; [discriminate | reflexivity].
Defined.

End IstanbulVerifyFacts.
